(** * Nexus-studio: repository ingestion and semantic indexing pipeline

    A shallow embedding of [services/github.ts] (URL parser, tree filter,
    priority sort, batched downloader, corpus assembler) and of
    [services/rag.ts] (chunker, embedding indexer, similarity search),
    followed by the properties of the specification that concern them.

    JavaScript strings are sequences of UTF-16 code units; they are
    modelled as lists of code units so that [length] is [String.length]
    and the line terminators U+2028 and U+2029 exist.  JavaScript numbers
    that hold counts and sizes are modelled as [nat] or [Z]; the numbers
    of the similarity search are IEEE 754 binary64 values ([PrimFloat]). *)

From Stdlib Require Import List Arith ZArith NArith Lia Bool Ascii.
From Stdlib Require String.
Import String.StringSyntax.
From Stdlib Require Import Permutation Sorted DecimalString DecimalNat.
From Stdlib Require Import Floats.
Import ListNotations.

Set Implicit Arguments.

(* ===================================================================== *)
(** ** JavaScript string primitives *)
(* ===================================================================== *)

Module Str.

(** A UTF-16 code unit. *)
Definition char := N.

Definition jsstring := list char.

(** A string literal of the source, given by its ASCII characters. *)
Definition lit (s : String.string) : jsstring :=
  map N_of_ascii (String.list_ascii_of_string s).

Arguments lit s%_string_scope.

(** The character U+000A, written [\n] in the source. *)
Definition nl : char := 10%N.

Definition char_eqb (a b : char) : bool := N.eqb a b.

(** [s.startsWith(p)], with the rest of [s] after [p]. *)
Fixpoint strip_prefix (p s : jsstring) : option jsstring :=
  match p with
  | [] => Some s
  | a :: p' =>
      match s with
      | [] => None
      | b :: s' => if char_eqb a b then strip_prefix p' s' else None
      end
  end.

Definition startsWith (s p : jsstring) : bool :=
  match strip_prefix p s with Some _ => true | None => false end.

(** [s.endsWith(p)]. *)
Definition endsWith (s p : jsstring) : bool :=
  startsWith (rev s) (rev p).

(** The first occurrence of [p] in [s]: the text before it and after it. *)
Fixpoint find_literal (p s : jsstring) : option (jsstring * jsstring) :=
  match strip_prefix p s with
  | Some rest => Some ([], rest)
  | None =>
      match s with
      | [] => None
      | c :: s' =>
          match find_literal p s' with
          | Some (before, rest) => Some (c :: before, rest)
          | None => None
          end
      end
  end.

(** [s.includes(p)]. *)
Definition includes (s p : jsstring) : bool :=
  match find_literal p s with Some _ => true | None => false end.

(** The decimal digits of a non-negative integer, as template literals
    and string concatenation print it. *)
Definition of_nat (n : nat) : jsstring :=
  lit (NilEmpty.string_of_uint (Nat.to_uint n)).

Definition of_Z (z : Z) : jsstring :=
  match z with
  | Zneg p => lit "-" ++ of_nat (Pos.to_nat p)
  | _ => of_nat (Z.to_nat z)
  end.

(** The characters that [.] does not match in a regular expression
    without the [s] flag: LF, CR, U+2028, U+2029. *)
Definition isLineTerminator (c : char) : bool :=
  (N.eqb c 10 || N.eqb c 13 || N.eqb c 8232 || N.eqb c 8233)%bool.

(** [String.prototype.toLowerCase] on the Basic Latin and Latin-1 ranges;
    code units beyond U+00FF are left as they are. *)
Definition lower_char (c : char) : char :=
  if ((65 <=? c) && (c <=? 90))%N then (c + 32)%N
  else if ((192 <=? c) && (c <=? 222) && negb (c =? 215))%N then (c + 32)%N
  else c.

Definition toLowerCase (s : jsstring) : jsstring := map lower_char s.

(** [s.split(sep)] for a one-character separator. *)
Fixpoint split_on (sep : char) (cur : jsstring) (s : jsstring)
  : list jsstring :=
  match s with
  | [] => [rev cur]
  | c :: s' =>
      if char_eqb c sep then rev cur :: split_on sep [] s'
      else split_on sep (c :: cur) s'
  end.

Definition split (s : jsstring) (sep : char) : list jsstring :=
  split_on sep [] s.

(** [Boolean(s)] for a string: the empty string is falsy. *)
Definition truthy (s : jsstring) : bool :=
  match s with [] => false | _ => true end.

(** Concatenation of the parts: [parts.join] with the empty separator. *)
Definition join (parts : list jsstring) : jsstring := concat parts.

(** Strict equality [===] of two strings. *)
Fixpoint str_eqb (a b : jsstring) : bool :=
  match a, b with
  | [], [] => true
  | x :: a', y :: b' => char_eqb x y && str_eqb a' b'
  | _, _ => false
  end.

(** [a || b] for strings that may be absent: the first truthy one. *)
Definition or_else (a : option jsstring) (b : jsstring) : jsstring :=
  match a with
  | Some x => if truthy x then x else b
  | None => b
  end.

End Str.

(* ===================================================================== *)
(** ** JavaScript array primitives *)
(* ===================================================================== *)

Module Arr.

(** [Array.prototype.sort] with a comparator is stable.  [after x y] says
    that the comparator returns a positive number on [(x, y)]: [x] must
    follow [y].  An element is placed before the first element it need
    not follow; every stable sort yields this list when the comparator is
    consistent. *)
Fixpoint insert_by {A} (after : A -> A -> bool) (x : A) (l : list A)
  : list A :=
  match l with
  | [] => [x]
  | y :: t => if after x y then y :: insert_by after x t else x :: y :: t
  end.

Fixpoint sort_by {A} (after : A -> A -> bool) (l : list A) : list A :=
  match l with
  | [] => []
  | x :: t => insert_by after x (sort_by after t)
  end.

(** [arr.slice(0, k)] for an integer [k]: a negative [k] counts from the
    end of the array. *)
Definition slice0 {A} (l : list A) (k : Z) : list A :=
  if (k <? 0)%Z then firstn (length l - Z.to_nat (- k)) l
  else firstn (Z.to_nat k) l.

End Arr.

(* ===================================================================== *)
(** ** services/rag.ts *)
(* ===================================================================== *)

Module Rag.
Import Str Arr.

Record CodeChunk := mkChunk {
  id : jsstring;
  fileName : jsstring;
  content : jsstring;
  embedding : option (list float)
}.

(** The three literal parts of the regular expression
    [/--- FILE: (.*?) ---\n([\s\S]*?)\n--- END OF FILE ---/g]. *)
Definition OPEN : jsstring := lit "--- FILE: ".
Definition MID : jsstring := lit " ---" ++ [nl].
Definition CLOSE : jsstring := nl :: lit "--- END OF FILE ---".

(** What follows [--- FILE: ] in a match: the lazy group [(.*?)] takes
    the fewest characters, none of them a line terminator, for which the
    rest of the pattern matches; the lazy group [([\s\S]*?)] then runs to
    the first [\n--- END OF FILE ---].  The result is the two groups and
    the text after the match. *)
Fixpoint match_after_open (s : jsstring)
  : option (jsstring * jsstring * jsstring) :=
  let extend :=
    match s with
    | [] => None
    | c :: s' =>
        if isLineTerminator c then None
        else match match_after_open s' with
             | Some (name, body, rest) => Some (c :: name, body, rest)
             | None => None
             end
    end in
  match strip_prefix MID s with
  | Some s2 =>
      match find_literal CLOSE s2 with
      | Some (body, rest) => Some ([], body, rest)
      | None => extend
      end
  | None => extend
  end.

(** A match of the whole pattern at the start of [s]. *)
Definition match_here (s : jsstring)
  : option (jsstring * jsstring * jsstring) :=
  match strip_prefix OPEN s with
  | Some s1 => match_after_open s1
  | None => None
  end.

(** [regex.exec] from [lastIndex]: the leftmost match in the text [s]
    that starts at [lastIndex]; the third component is the text from the
    new [lastIndex]. *)
Fixpoint regex_exec (s : jsstring)
  : option (jsstring * jsstring * jsstring) :=
  match match_here s with
  | Some m => Some m
  | None =>
      match s with
      | [] => None
      | _ :: s' => regex_exec s'
      end
  end.

(** [content.match(/[\s\S]{1,2000}/g) || []]: greedy pieces of up to [n]
    characters. *)
Fixpoint pieces (fuel n : nat) (s : jsstring) : list jsstring :=
  match fuel with
  | 0 => []
  | S fuel' =>
      match s with
      | [] => []
      | _ => firstn n s :: pieces fuel' n (skipn n s)
      end
  end.

Definition match_all (n : nat) (s : jsstring) : list jsstring :=
  pieces (length s) n s.

Definition chunk_id (idx : nat) : jsstring := lit "chunk-" ++ of_nat idx.

Definition part_name (fileName : jsstring) (i : nat) : jsstring :=
  fileName ++ lit " (Part " ++ of_nat (i + 1) ++ lit ")".

(** The state of the [while] loop of [chunkCode]: the counter [idx] and
    the array [chunks]. *)
Definition chunk_state := (nat * list CodeChunk)%type.

(** The body of [subChunks.forEach((sc, i) => ...)]. *)
Definition push_part (fileName : jsstring) (st : chunk_state)
  (isc : nat * jsstring) : chunk_state :=
  let '(idx, chunks) := st in
  let '(i, sc) := isc in
  (S idx, chunks ++ [mkChunk (chunk_id idx) (part_name fileName i) sc None]).

(** One iteration of the loop for a match [(fileName, content)]. *)
Definition push_file (st : chunk_state) (fileName content : jsstring)
  : chunk_state :=
  if 2000 <? length content then
    let subChunks := match_all 2000 content in
    fold_left (push_part fileName)
      (combine (seq 0 (length subChunks)) subChunks) st
  else
    let '(idx, chunks) := st in
    (S idx, chunks ++ [mkChunk (chunk_id idx) fileName content None]).

Fixpoint chunk_loop (fuel : nat) (s : jsstring) (st : chunk_state)
  : chunk_state :=
  match fuel with
  | 0 => st
  | S fuel' =>
      match regex_exec s with
      | None => st
      | Some (fileName, content, rest) =>
          chunk_loop fuel' rest (push_file st fileName content)
      end
  end.

(** [chunkCode]: every match consumes at least one character, so the
    length of the text bounds the number of iterations. *)
Definition chunkCode (fullCodeContext : jsstring) : list CodeChunk :=
  snd (chunk_loop (length fullCodeContext) fullCodeContext (0, [])).

(** *** Indexing and search *)

Section Embedding.

(** [generateEmbedding(text)] of [services/gemini.ts] as the [n]-th
    request sent to the embedding service: the vector it resolves to, or
    [None] when it rejects. *)
Variable generateEmbedding : nat -> jsstring -> option (list float).

(** The state of the loop of [indexCodebase]: the array [indexedChunks],
    the calls of [onProgress] and the texts sent to the service. *)
Record IndexState := mkIndex {
  indexedChunks : list CodeChunk;
  progress : list (nat * nat);
  requests : list jsstring
}.

Definition index_step (total : nat) (st : IndexState)
  (ic : nat * CodeChunk) : IndexState :=
  let '(i, c) := ic in
  let pr := progress st ++ [(i + 1, total)] in
  let rq := requests st ++ [content c] in
  match generateEmbedding (length (requests st)) (content c) with
  | Some e =>
      mkIndex
        (indexedChunks st ++ [mkChunk (id c) (fileName c) (content c) (Some e)])
        pr rq
  | None => mkIndex (indexedChunks st ++ [c]) pr rq
  end.

(** [indexCodebase]; the pause of 50 ms after each request changes no
    value. *)
Definition indexCodebase (codeContext : jsstring) : IndexState :=
  let chunks := chunkCode codeContext in
  fold_left (index_step (length chunks))
    (combine (seq 0 (length chunks)) chunks)
    (mkIndex [] [] []).

(** [vecB[i]] past the end of the array is [undefined], and a product
    with [undefined] is [NaN]. *)
Definition at_index (v : list float) (i : nat) : float := nth i v nan.

Definition cosine_step (vecA vecB : list float)
  (acc : float * float * float) (i : nat) : float * float * float :=
  let '(dotProduct, magnitudeA, magnitudeB) := acc in
  ((dotProduct + at_index vecA i * at_index vecB i)%float,
   (magnitudeA + at_index vecA i * at_index vecA i)%float,
   (magnitudeB + at_index vecB i * at_index vecB i)%float).

Definition cosineSimilarity (vecA vecB : list float) : float :=
  let '(dotProduct, magnitudeA, magnitudeB) :=
    fold_left (cosine_step vecA vecB) (seq 0 (length vecA))
      (zero, zero, zero) in
  (dotProduct / (PrimFloat.sqrt magnitudeA * PrimFloat.sqrt magnitudeB))%float.

(** A chunk of the result: the chunk with its [score]. *)
Record ScoredChunk := mkScored {
  chunk : CodeChunk;
  score : float
}.

(** [c.embedding] as a condition: an array, even an empty one, is truthy. *)
Definition has_embedding (c : CodeChunk) : bool :=
  match embedding c with Some _ => true | None => false end.

Definition score_chunk (queryEmbedding : list float) (c : CodeChunk)
  : ScoredChunk :=
  mkScored c
    (cosineSimilarity queryEmbedding
       (match embedding c with Some e => e | None => [] end)).

(** The comparator [(a, b) => b.score - a.score] returns a positive
    number; a [NaN] difference counts as zero. *)
Definition score_after (a b : ScoredChunk) : bool :=
  (zero <? score b - score a)%float.

(** [searchCodebase], as the [n]-th user of the embedding service: the
    chunks returned and the texts sent to the service. *)
Definition searchCodebase (n : nat) (query : jsstring)
  (indexedChunks : list CodeChunk) (topK : Z)
  : list ScoredChunk * list jsstring :=
  if negb (existsb has_embedding indexedChunks) then ([], [])
  else
    match generateEmbedding n query with
    | None => ([], [query])
    | Some queryEmbedding =>
        let scored :=
          map (score_chunk queryEmbedding)
            (filter has_embedding indexedChunks) in
        (slice0 (sort_by score_after scored) topK, [query])
    end.

End Embedding.

End Rag.

(* ===================================================================== *)
(** ** services/github.ts *)
(* ===================================================================== *)

Module Github.
Import Str Arr.

(** The two fields of a [URL] object that [parseGithubUrl] reads. *)
Record URL := mkURL { hostname : jsstring; pathname : jsstring }.

Record RepoInfo := mkRepoInfo { owner : jsstring; repo : jsstring }.

Inductive Status := pending | success | error.

Record FetchedFileStatus := mkStatus {
  fs_path : jsstring;
  fs_size : option Z;
  fs_status : Status
}.

Record FetchOptions := mkOptions {
  fetchAll : bool;
  branch : option jsstring;
  maxFileSize : option Z
}.

(** An HTTP response; [res.ok] holds for the statuses 200 to 299. *)
Record Response (B : Type) := mkResponse {
  status : Z;
  statusText : jsstring;
  body : B
}.

Definition ok {B} (res : Response B) : bool :=
  ((200 <=? status res) && (status res <=? 299))%Z.

(** How a [fetch] followed by reading the body settles: a response, or a
    rejection whose [name] is or is not ['AbortError']. *)
Inductive FetchOutcome (B : Type) :=
| Resolved (res : Response B)
| RejectedAbort
| RejectedOther.

Arguments RejectedAbort {B}.
Arguments RejectedOther {B}.

(** The fields read from the repository metadata. *)
Record RepoData := mkRepoData {
  default_branch : option jsstring;
  description : option jsstring;
  stargazers_count : Z;
  language : option jsstring
}.

Inductive NodeType := blob | tree | commit.

Record TreeNode := mkNode {
  path : jsstring;
  type : NodeType;
  size : option Z
}.

Record TreeData := mkTree {
  tree_nodes : list TreeNode;
  truncated : bool
}.

(** The errors thrown by [fetchGithubRepoContents], named as the
    specification names them; [message] is the text of the [Error]. *)
Inductive FetchError :=
| InvalidUrl
| RepoNotFound
| RateLimited
| ApiError (text : jsstring) (code : Z)
| BranchNotFound (b : jsstring)
| TreeFailed
| NoFilesFound
| DownloadFailed
| Rejected (aborted : bool).

Definition message (e : FetchError) : jsstring :=
  match e with
  | InvalidUrl =>
      lit "Invalid GitHub URL. Please use format: https://github.com/owner/repo"
  | RepoNotFound =>
      lit "Repository not found. It might be private or the URL is incorrect."
  | RateLimited =>
      lit "GitHub API rate limit exceeded. Please try again later or use a VPN."
  | ApiError text code =>
      lit "GitHub API Error: " ++ text ++ lit " (" ++ of_Z code ++ lit ")"
  | BranchNotFound b => lit "Branch '" ++ b ++ lit "' not found."
  | TreeFailed => lit "Failed to retrieve file structure."
  | NoFilesFound =>
      lit "No analyzable code files found matching the criteria."
  | DownloadFailed =>
      lit "Failed to download raw file contents. Network or CORS issue."
  | Rejected true => lit "AbortError"
  | Rejected false => lit "TypeError"
  end.

Inductive Event :=
| Progress (msg : jsstring)
| FileUpdate (file : FetchedFileStatus).

Record RepoDetails := mkDetails {
  d_owner : jsstring;
  d_repo : jsstring;
  d_branch : jsstring
}.

Record FetchResult := mkResult {
  r_content : jsstring;
  repoDetails : RepoDetails
}.

(** *** Pure parts *)

(** [repo.slice(0, -4)] when [repo] ends with [.git]. *)
Definition strip_git (repo : jsstring) : jsstring :=
  if endsWith repo (lit ".git") then firstn (length repo - 4) repo
  else repo.

Definition defaultExtensions : list jsstring :=
  [lit ".js"; lit ".jsx"; lit ".ts"; lit ".tsx"; lit ".py"; lit ".go";
   lit ".java"; lit ".c"; lit ".cpp"; lit ".rs"; lit ".rb"; lit ".php";
   lit ".html"; lit ".css"; lit ".json"; lit ".md"; lit ".yml";
   lit ".yaml"; lit ".toml"; lit ".sql"].

Definition effectiveExtensions (allowedExtensions : list jsstring)
  (options : FetchOptions) : list jsstring :=
  if fetchAll options then []
  else match allowedExtensions with
       | [] => defaultExtensions
       | _ => allowedExtensions
       end.

(** [maxSizeBytes]; [None] stands for [Infinity]. *)
Definition maxSizeBytes (options : FetchOptions) : option Z :=
  if fetchAll options then None
  else match maxFileSize options with
       | Some m => if (m =? 0)%Z then Some (100 * 1024)%Z else Some m
       | None => Some (100 * 1024)%Z
       end.

(** [node.size && node.size > maxSizeBytes]. *)
Definition too_large (options : FetchOptions) (node : TreeNode) : bool :=
  match size node with
  | None => false
  | Some sz =>
      if (sz =? 0)%Z then false
      else match maxSizeBytes options with
           | None => false
           | Some m => (m <? sz)%Z
           end
  end.

Definition isBlocked (p : jsstring) : bool :=
  includes p (lit "package-lock") ||
  includes p (lit "yarn.lock") ||
  includes p (lit "node_modules/") ||
  includes p (lit "dist/") ||
  includes p (lit "build/") ||
  includes p (lit ".min.") ||
  endsWith p (lit ".png") ||
  endsWith p (lit ".jpg") ||
  endsWith p (lit ".ico") ||
  endsWith p (lit ".svg").

(** The predicate of [treeData.tree.filter]. *)
Definition keep_node (allowedExtensions : list jsstring)
  (options : FetchOptions) (node : TreeNode) : bool :=
  match type node with
  | blob =>
      if too_large options node then false
      else if isBlocked (path node) then false
      else if fetchAll options then true
      else existsb (fun ext => endsWith (path node) ext)
             (effectiveExtensions allowedExtensions options)
  | _ => false
  end.

Definition score (p : jsstring) : Z :=
  if includes (toLowerCase p) (lit "readme.md") then 3
  else if endsWith p (lit "json") || endsWith p (lit "toml")
          || endsWith p (lit "yml") then 2
  else if startsWith p (lit "src/") then 1
  else 0.

(** The comparator handed to [allFiles.sort]. *)
Definition compare_nodes (a b : TreeNode) : Z :=
  (score (path b) - score (path a))%Z.

(** [allFiles.sort((a, b) => score(b.path) - score(a.path))]. *)
Definition priority_sort (allFiles : list TreeNode) : list TreeNode :=
  sort_by (fun a b => (0 <? compare_nodes a b)%Z) allFiles.

Definition limit (allowedExtensions : list jsstring)
  (options : FetchOptions) : nat :=
  if fetchAll options then 200
  else if (0 <? length allowedExtensions)
          && (length allowedExtensions <? 3) then 30
  else 20.

(** The files selected for download, from the tree listing. *)
Definition filesToFetch (allowedExtensions : list jsstring)
  (options : FetchOptions) (nodes : list TreeNode) : list TreeNode :=
  firstn (limit allowedExtensions options)
    (priority_sort (filter (keep_node allowedExtensions options) nodes)).

#[local] Set Warnings "-abstract-large-number".

Definition MAX_TEXT_LENGTH (options : FetchOptions) : nat :=
  if fetchAll options then 100000 else 50000.

#[local] Set Warnings "abstract-large-number".

Definition truncate_text (options : FetchOptions) (text : jsstring)
  : jsstring :=
  if MAX_TEXT_LENGTH options <? length text
  then firstn (MAX_TEXT_LENGTH options) text
       ++ [nl] ++ lit "...[Truncated]..."
  else text.

(** One file record of the corpus. *)
Definition file_record (p content : jsstring) : jsstring :=
  lit "--- FILE: " ++ p ++ lit " ---" ++ [nl] ++ content ++ [nl]
  ++ lit "--- END OF FILE ---" ++ [nl; nl].

Definition header (info : RepoInfo) (br : jsstring) (repoData : RepoData)
  : jsstring :=
  lit "Repository: " ++ owner info ++ lit "/" ++ repo info ++ [nl]
  ++ lit "Branch: " ++ br ++ [nl]
  ++ lit "Description: " ++ or_else (description repoData) (lit "N/A")
  ++ [nl]
  ++ lit "Stars: " ++ of_Z (stargazers_count repoData) ++ [nl]
  ++ lit "Language: "
  ++ match language repoData with Some l => l | None => lit "null" end
  ++ [nl; nl].

Definition api_repo_url (info : RepoInfo) : jsstring :=
  lit "https://api.github.com/repos/" ++ owner info ++ lit "/" ++ repo info.

Definition api_tree_url (info : RepoInfo) (br : jsstring) : jsstring :=
  api_repo_url info ++ lit "/git/trees/" ++ br ++ lit "?recursive=1".

Definition rawUrl (info : RepoInfo) (br p : jsstring) : jsstring :=
  lit "https://raw.githubusercontent.com/" ++ owner info ++ lit "/"
  ++ repo info ++ lit "/" ++ br ++ lit "/" ++ p.

Definition batchSize : nat := 5.

(** *** The parts that talk to the network *)

Section World.

(** [new URL(url)]: [None] when the constructor throws. *)
Variable URL_new : jsstring -> option URL.

(** What each request settles to, by its address. *)
Variable fetch_repo : jsstring -> FetchOutcome RepoData.
Variable fetch_tree : jsstring -> FetchOutcome TreeData.
Variable fetch_raw : jsstring -> FetchOutcome jsstring.

(** The fetches of a batch run concurrently.  [latency i] is the time
    after which the callback of the file at index [i] of [filesToFetch]
    resumes for its last step, the one that reports the file: once the
    response is there for a failure, once its text is there for a
    success. *)
Variable latency : nat -> nat.

(** [signal?.aborted] as read after [k] batches have settled; [None] when
    no signal was passed. *)
Variable signal : option (nat -> bool).

Definition aborted (k : nat) : bool :=
  match signal with
  | Some s => s k
  | None => false
  end.

Definition parseGithubUrl (url : jsstring) : option RepoInfo :=
  match URL_new url with
  | None => None
  | Some urlObj =>
      if negb (str_eqb (hostname urlObj) (lit "github.com")) then None
      else
        match filter truthy (split (pathname urlObj) 47%N) with
        | owner :: repo :: _ => Some (mkRepoInfo owner (strip_git repo))
        | _ => None
        end
  end.

(** The state of the download loop. *)
Record DlState := mkDl {
  loadedCount : nat;
  results : list jsstring;
  events : list Event
}.

Definition emit (e : Event) (st : DlState) : DlState :=
  mkDl (loadedCount st) (results st) (events st ++ [e]).

Variable options : FetchOptions.
Variable info : RepoInfo.
Variable br : jsstring.

(** The asynchronous function mapped over a batch that starts after [k]
    batches have settled, from the state in which its callback resumes:
    the new state and the value it resolves to. *)
Definition download_file (total k : nat) (st : DlState) (file : TreeNode)
  : DlState * option jsstring :=
  if aborted k then (st, None)
  else
    match fetch_raw (rawUrl info br (path file)) with
    | Resolved res =>
        if negb (ok res) then
          (emit (FileUpdate (mkStatus (path file) (size file) error)) st,
           None)
        else
          let n := S (loadedCount st) in
          let st1 := mkDl n (results st) (events st) in
          let st2 :=
            emit (Progress (lit "Downloading files (" ++ of_nat n ++ lit "/"
                            ++ of_nat total ++ lit ")...")) st1 in
          let st3 :=
            emit (FileUpdate (mkStatus (path file) (size file) success)) st2 in
          (st3,
           Some (file_record (path file) (truncate_text options (body res))))
    | RejectedAbort => (st, None)
    | RejectedOther =>
        (emit (FileUpdate (mkStatus (path file) (size file) error)) st, None)
    end.

(** The order in which the callbacks of a batch that starts at index [i]
    resume: by latency, the earlier file first when two resume together. *)
Definition settle_order (i : nat) (batch : list TreeNode) : list TreeNode :=
  map snd
    (sort_by (fun a b => latency (fst b) <? latency (fst a))
       (combine (seq i (length batch)) batch)).

(** A batch that starts at index [i]: the callbacks change the state in
    the order in which they resume; [Promise.all] collects their values
    in the order of the batch, and the [null]s are dropped. *)
Definition download_batch (total k i : nat) (st : DlState)
  (batch : list TreeNode) : DlState * list jsstring :=
  (fold_left (fun s file => fst (download_file total k s file))
     (settle_order i batch) st,
   flat_map
     (fun file =>
        match snd (download_file total k st file) with
        | Some x => [x]
        | None => []
        end) batch).

(** The [for] loop over the batches, from index [i]; the result carries
    the number of batches that settled. *)
Fixpoint download_loop (fuel : nat) (files : list TreeNode) (i : nat)
  (st : DlState) : DlState * nat :=
  match fuel with
  | 0 => (st, i / batchSize)
  | S fuel' =>
      if i <? length files then
        if aborted (i / batchSize) then (st, i / batchSize)
        else
          let batch := firstn batchSize (skipn i files) in
          let '(st1, batchResults) :=
            download_batch (length files) (i / batchSize) i st batch in
          download_loop fuel' files (i + batchSize)
            (mkDl (loadedCount st1) (results st1 ++ batchResults)
               (events st1))
      else (st, i / batchSize)
  end.

(** Steps 4 and 5 of [fetchGithubRepoContents]: the downloads, the final
    check and the assembled corpus. *)
Definition download (repoData : RepoData) (files : list TreeNode)
  (evs : list Event) : list Event * (FetchError + FetchResult) :=
  let st0 :=
    mkDl 0 []
      (evs ++ [Progress (lit "Downloading " ++ of_nat (length files)
                         ++ lit " files...")]) in
  let '(st, k) := download_loop (S (length files)) files 0 st0 in
  if (length (results st) =? 0) && negb (aborted k) then
    (events st, inl DownloadFailed)
  else
    (events st ++ [Progress (lit "Repository loaded successfully.")],
     inr (mkResult (header info br repoData ++ join (results st))
            (mkDetails (owner info) (repo info) br))).

End World.

(** [fetchGithubRepoContents]: the calls of [onProgress] and
    [onFileUpdate], in order, and the error thrown or the value returned. *)
Definition fetchGithubRepoContents
  (URL_new : jsstring -> option URL)
  (fetch_repo : jsstring -> FetchOutcome RepoData)
  (fetch_tree : jsstring -> FetchOutcome TreeData)
  (fetch_raw : jsstring -> FetchOutcome jsstring)
  (latency : nat -> nat)
  (url : jsstring) (allowedExtensions : list jsstring)
  (signal : option (nat -> bool)) (options : FetchOptions)
  : list Event * (FetchError + FetchResult) :=
  match parseGithubUrl URL_new url with
  | None => ([], inl InvalidUrl)
  | Some repoInfo =>
      let ev1 := [Progress (lit "Connecting to GitHub API...")] in
      match fetch_repo (api_repo_url repoInfo) with
      | RejectedAbort => (ev1, inl (Rejected true))
      | RejectedOther => (ev1, inl (Rejected false))
      | Resolved repoRes =>
          if negb (ok repoRes) then
            if (status repoRes =? 404)%Z then (ev1, inl RepoNotFound)
            else if (status repoRes =? 403)%Z then (ev1, inl RateLimited)
            else (ev1, inl (ApiError (statusText repoRes) (status repoRes)))
          else
            let repoData := body repoRes in
            let br :=
              or_else (branch options)
                (or_else (default_branch repoData) (lit "main")) in
            let ev2 :=
              ev1 ++ [Progress (lit "Scanning repository structure ("
                                ++ br ++ lit ")...")] in
            match fetch_tree (api_tree_url repoInfo br) with
            | RejectedAbort => (ev2, inl (Rejected true))
            | RejectedOther => (ev2, inl (Rejected false))
            | Resolved treeRes =>
                if negb (ok treeRes) then
                  if (status treeRes =? 404)%Z
                  then (ev2, inl (BranchNotFound br))
                  else (ev2, inl TreeFailed)
                else
                  let treeData := body treeRes in
                  let ev3 :=
                    if truncated treeData then
                      ev2 ++ [Progress (lit
                        "Warning: Large repository, analyzing partial content...")]
                    else ev2 in
                  let files :=
                    filesToFetch allowedExtensions options
                      (tree_nodes treeData) in
                  match files with
                  | [] => (ev3, inl NoFilesFound)
                  | _ =>
                      let ev4 :=
                        ev3 ++ map (fun f => FileUpdate
                                      (mkStatus (path f) (size f) pending))
                                 files in
                      download fetch_raw latency signal options repoInfo br
                        repoData files ev4
                  end
            end
      end
  end.

End Github.

(* ===================================================================== *)
(** ** Statements of the specification *)
(* ===================================================================== *)

Module Spec.
Import Str Arr Rag.

(** *** Corpus and chunks *)

(** The corpus of a known file set: [header + results.join("")], each
    file wrapped as the downloader wraps it. *)
Definition assemble (hdr : jsstring) (files : list (jsstring * jsstring))
  : jsstring :=
  hdr ++ join (map (fun f => Github.file_record (fst f) (snd f)) files).

Definition pairs (g : list CodeChunk) : list (jsstring * jsstring) :=
  map (fun c => (fileName c, content c)) g.

(** Ordered sub-chunks of a file: labelled with the file name and a part
    index, their contents rejoin to the content of the file. *)
Definition labelled_parts (name body : jsstring) (g : list CodeChunk)
  : Prop :=
  map fileName g = map (part_name name) (seq 0 (length g))
  /\ concat (map content g) = body.

(** What the specification says of one file: recovered as it is when
    under 2000 characters, as labelled parts when at or over. *)
Definition recovered_as_claimed (f : jsstring * jsstring)
  (g : list CodeChunk) : Prop :=
  if length (snd f) <? 2000 then pairs g = [f]
  else labelled_parts (fst f) (snd f) g.

(** What the chunker does for one file: recovered as it is up to 2000
    characters, as labelled parts beyond. *)
Definition recovered (f : jsstring * jsstring) (g : list CodeChunk)
  : Prop :=
  if length (snd f) <=? 2000 then pairs g = [f]
  else labelled_parts (fst f) (snd f) g.

Definition roundtrip_as_claimed (hdr : jsstring)
  (files : list (jsstring * jsstring)) : Prop :=
  exists groups,
    chunkCode (assemble hdr files) = concat groups
    /\ Forall2 recovered_as_claimed files groups.

Definition roundtrip (hdr : jsstring)
  (files : list (jsstring * jsstring)) : Prop :=
  exists groups,
    chunkCode (assemble hdr files) = concat groups
    /\ Forall2 recovered files groups.

(** A file the delimiters can carry: no line terminator in its name, no
    closing delimiter in its content. *)
Definition clean_file (f : jsstring * jsstring) : bool :=
  negb (existsb isLineTerminator (fst f)) && negb (includes (snd f) CLOSE).

(** The chunks pushed for the parts of a file, numbered from [idx]. *)
Fixpoint number_parts (name : jsstring) (idx : nat)
  (parts : list (nat * jsstring)) : list CodeChunk :=
  match parts with
  | [] => []
  | (i, sc) :: t =>
      mkChunk (chunk_id idx) (part_name name i) sc None
      :: number_parts name (S idx) t
  end.

(** The chunks pushed for one file when the counter is [idx]. *)
Definition file_group (idx : nat) (name body : jsstring) : list CodeChunk :=
  if 2000 <? length body then
    number_parts name idx
      (combine (seq 0 (length (match_all 2000 body))) (match_all 2000 body))
  else [mkChunk (chunk_id idx) name body None].

(** The groups of a file list, numbered from [idx]. *)
Fixpoint file_groups (idx : nat) (files : list (jsstring * jsstring))
  : list (list CodeChunk) :=
  match files with
  | [] => []
  | f :: t =>
      file_group idx (fst f) (snd f)
      :: file_groups (idx + length (file_group idx (fst f) (snd f))) t
  end.

(** The file name and the body of every record that the loop of
    [chunkCode] finds in a text, in order. *)
Fixpoint matches (fuel : nat) (s : jsstring)
  : list (jsstring * jsstring) :=
  match fuel with
  | 0 => []
  | S fuel' =>
      match regex_exec s with
      | None => []
      | Some (fileName, content, rest) =>
          (fileName, content) :: matches fuel' rest
      end
  end.

Definition file_bodies (fullCodeContext : jsstring)
  : list (jsstring * jsstring) :=
  matches (length fullCodeContext) fullCodeContext.

(** What the chunker does with one file body: the body as it is up to
    2000 characters, and beyond at least two labelled parts that rejoin
    to the body. *)
Definition split_when_long (f : jsstring * jsstring) (g : list CodeChunk)
  : Prop :=
  recovered f g /\ (2000 < length (snd f) -> 2 <= length g).

Definition ends_nl (h : jsstring) : Prop := exists h', h = h' ++ [nl].

(** A repository and file sets used as concrete inputs. *)
Definition sample_info : Github.RepoInfo :=
  Github.mkRepoInfo (lit "octo") (lit "demo").

Definition sample_data : Github.RepoData :=
  Github.mkRepoData (Some (lit "main")) None 7 (Some (lit "TypeScript")).

Definition sample_header : jsstring :=
  Github.header sample_info (lit "main") sample_data.

Definition file_with_delimiter : jsstring * jsstring :=
  (lit "notes.md", lit "x" ++ CLOSE ++ [nl] ++ lit "y").

Definition file_of_2000 : jsstring * jsstring :=
  (lit "a.ts", repeat 97%N 2000).

Definition sample_files : list (jsstring * jsstring) :=
  [(lit "a.ts", lit "let x = 1;"); (lit "big.txt", repeat 97%N 2001)].

(** *** The tree fetcher *)

(** Larger keys first. *)
Definition descending {A} (key : A -> Z) (a b : A) : Prop :=
  (key b <= key a)%Z.

Definition slash : char := 47%N.

(** The classes of the priority sort in the words of the specification. *)
Definition is_readme (p : jsstring) : bool :=
  endsWith (toLowerCase p) (lit "readme.md").

Definition is_config (p : jsstring) : bool :=
  endsWith p (lit ".json") || endsWith p (lit ".toml")
  || endsWith p (lit ".yml").

Definition is_src (p : jsstring) : bool := startsWith p (lit "src/").

Definition is_other (p : jsstring) : bool :=
  negb (is_readme p) && negb (is_config p) && negb (is_src p).

(** [a] is of a class that the specification puts before the class of
    [b]. *)
Definition precedes_as_claimed (a b : jsstring) : bool :=
  (is_readme a && is_config b) || (is_config a && is_src b)
  || (is_src a && is_other b).

Definition ordered_as_claimed (out : list Github.TreeNode) : Prop :=
  forall i j a b,
    nth_error out i = Some a -> nth_error out j = Some b ->
    precedes_as_claimed (Github.path a) (Github.path b) = true -> i < j.

Definition node_of (p : jsstring) : Github.TreeNode :=
  Github.mkNode p Github.blob (Some 120%Z).

Definition default_options : Github.FetchOptions :=
  Github.mkOptions false None None.

(** The paths of the hard blocklist in the words of the specification. *)
Definition contains (p q : jsstring) : Prop := exists a b, p = a ++ q ++ b.

Definition ends_in (p q : jsstring) : Prop := exists a, p = a ++ q.

(** [p] has the directory [dir] (written with its final slash) as one of
    its leading components. *)
Definition lies_under (dir p : jsstring) : Prop :=
  exists a b,
    p = a ++ dir ++ b /\ (a = [] \/ exists a', a = a' ++ [slash]).

Definition blocklisted (p : jsstring) : Prop :=
  contains p (lit "package-lock") \/ contains p (lit "yarn.lock")
  \/ lies_under (lit "node_modules/") p \/ lies_under (lit "dist/") p
  \/ lies_under (lit "build/") p \/ contains p (lit ".min.")
  \/ ends_in p (lit ".png") \/ ends_in p (lit ".jpg")
  \/ ends_in p (lit ".ico") \/ ends_in p (lit ".svg").

Definition blocked_examples : list jsstring :=
  [lit "node_modules/anything.js"; lit "yarn.lock"; lit "app.min.js";
   lit "logo.svg"].

Definition no_slash (s : jsstring) : bool :=
  forallb (fun c => negb (char_eqb c slash)) s.

(** The cap of the file count is reduced for one or two extensions, as
    the specification has it. *)
Definition cap_reduced_as_claimed : Prop :=
  forall narrow broad options,
    Github.fetchAll options = false ->
    1 <= length narrow <= 2 ->
    length broad = 0 \/ 3 <= length broad ->
    Github.limit narrow options < Github.limit broad options.

(** *** The downloader *)

Section DownloadSpec.

Variable fetch_raw : jsstring -> Github.FetchOutcome jsstring.
Variable options : Github.FetchOptions.
Variable info : Github.RepoInfo.
Variable br : jsstring.

(** The fetch of the file resolves with a 2xx response. *)
Definition succeeded (file : Github.TreeNode) : bool :=
  match fetch_raw (Github.rawUrl info br (Github.path file)) with
  | Github.Resolved res => Github.ok res
  | _ => false
  end.

(** The fetch of the file resolves with a response that is not 2xx. *)
Definition http_failed (file : Github.TreeNode) : bool :=
  match fetch_raw (Github.rawUrl info br (Github.path file)) with
  | Github.Resolved res => negb (Github.ok res)
  | _ => false
  end.

(** The record of a file in the corpus, from the text its fetch gave. *)
Definition record_of (file : Github.TreeNode) : jsstring :=
  match fetch_raw (Github.rawUrl info br (Github.path file)) with
  | Github.Resolved res =>
      Github.file_record (Github.path file)
        (Github.truncate_text options (Github.body res))
  | _ => []
  end.

End DownloadSpec.

Definition error_update (file : Github.TreeNode) : Github.Event :=
  Github.FileUpdate
    (Github.mkStatus (Github.path file) (Github.size file) Github.error).

Definition is_error_update (e : Github.Event) : bool :=
  match e with
  | Github.FileUpdate f =>
      match Github.fs_status f with Github.error => true | _ => false end
  | _ => false
  end.

(** The scenario of the specification: eight files selected, the first
    five download, the last three answer 500. *)
Definition sample_url : jsstring := lit "https://github.com/octo/demo.git".

Definition sample_URL_new (url : jsstring) : option Github.URL :=
  if str_eqb url sample_url
  then Some (Github.mkURL (lit "github.com") (lit "/octo/demo.git"))
  else None.

Definition OK {B} (b : B) : Github.FetchOutcome B :=
  Github.Resolved (Github.mkResponse 200%Z (lit "OK") b).

Definition answer {B} (code : Z) (text : jsstring) (b : B)
  : Github.FetchOutcome B :=
  Github.Resolved (Github.mkResponse code text b).

Definition scenario_nodes : list Github.TreeNode :=
  map node_of
    [lit "f1.ts"; lit "f2.ts"; lit "f3.ts"; lit "f4.ts"; lit "f5.ts";
     lit "f6.ts"; lit "f7.ts"; lit "f8.ts"].

Definition scenario_fetch_raw (url : jsstring)
  : Github.FetchOutcome jsstring :=
  if endsWith url (lit "f6.ts") || endsWith url (lit "f7.ts")
     || endsWith url (lit "f8.ts")
  then answer 500%Z (lit "Internal Server Error") []
  else OK (lit "export {};").

(** The later a file comes in the list, the sooner its fetch settles. *)
Definition scenario_latency (i : nat) : nat := 10 - i.

Definition scenario : list Github.Event
                      * (Github.FetchError + Github.FetchResult) :=
  Github.fetchGithubRepoContents sample_URL_new
    (fun _ => OK sample_data)
    (fun _ => OK (Github.mkTree scenario_nodes false))
    scenario_fetch_raw scenario_latency sample_url [] None default_options.

(** Eleven files, all of which would download, and a signal that is
    aborted once the first batch has settled. *)
Definition cancelled_scenario : list Github.Event
                                * (Github.FetchError + Github.FetchResult) :=
  Github.fetchGithubRepoContents sample_URL_new
    (fun _ => OK sample_data)
    (fun _ =>
       OK (Github.mkTree
             (scenario_nodes
              ++ map node_of [lit "f9.ts"; lit "g1.ts"; lit "g2.ts"])
             false))
    (fun _ => OK (lit "export {};")) scenario_latency sample_url []
    (Some (fun k => 1 <=? k)) default_options.

Definition empty_tree : Github.TreeData := Github.mkTree [] false.

(** A 403 from the tree lookup fails with [RateLimited], as the
    specification has it. *)
Definition tree_403_as_claimed : Prop :=
  forall URL_new fetch_repo fetch_tree fetch_raw latency url exts signal
         options repoInfo repoRes treeRes,
    Github.parseGithubUrl URL_new url = Some repoInfo ->
    fetch_repo (Github.api_repo_url repoInfo) = Github.Resolved repoRes ->
    Github.ok repoRes = true ->
    fetch_tree
      (Github.api_tree_url repoInfo
         (or_else (Github.branch options)
            (or_else (Github.default_branch (Github.body repoRes))
               (lit "main"))))
    = Github.Resolved treeRes ->
    Github.status treeRes = 403%Z ->
    snd (Github.fetchGithubRepoContents URL_new fetch_repo fetch_tree
           fetch_raw latency url exts signal options)
    = inl Github.RateLimited.

(** *** Indexing and search *)

(** The entry of the index for the [i]-th chunk: the chunk with what the
    [i]-th request gave. *)
Definition embed_at (generateEmbedding : nat -> jsstring -> option (list float))
  (ic : nat * CodeChunk) : CodeChunk :=
  mkChunk (id (snd ic)) (fileName (snd ic)) (content (snd ic))
    (generateEmbedding (fst ic) (content (snd ic))).

(** Dot product and Euclidean norm, summed from the left as the loop of
    [cosineSimilarity] sums. *)
Definition dot (a b : list float) : float :=
  fold_left (fun acc xy => (acc + fst xy * snd xy)%float) (combine a b) zero.

Definition sum_squares (a : list float) : float :=
  fold_left (fun acc x => (acc + x * x)%float) a zero.

Definition norm (a : list float) : float := PrimFloat.sqrt (sum_squares a).

(** [a] is not below [b]. *)
Definition score_ge (a b : ScoredChunk) : Prop :=
  (score b <=? score a)%float = true.

(** The verdict of the comparator on two scores agrees with their order:
    when the difference [b - a] is positive, [a <= b]; when it is not,
    [b <= a].  A [NaN] score agrees with nothing. *)
Definition agrees (a b : float) : bool :=
  if (zero <? b - a)%float then (a <=? b)%float else (b <=? a)%float.

Definition comparable (l : list float) : bool :=
  forallb (fun a => forallb (agrees a) l) l.

Definition embedding_of (c : CodeChunk) : list float :=
  match embedding c with Some e => e | None => [] end.

(** The scores of the chunks that have an embedding. *)
Definition scores_of (q : list float) (chunks : list CodeChunk) : list float :=
  map (fun c => cosineSimilarity q (embedding_of c))
    (filter has_embedding chunks).

(** The result has at most [K] chunks, for every [K], as the
    specification has it. *)
Definition at_most_K_as_claimed : Prop :=
  forall generateEmbedding n query chunks topK q,
    existsb has_embedding chunks = true ->
    generateEmbedding n query = Some q ->
    (Z.of_nat (length (fst (searchCodebase generateEmbedding n query chunks
                              topK))) <= topK)%Z.

(** The result is in descending order of score, for every chunk list, as
    the specification has it. *)
Definition descending_as_claimed : Prop :=
  forall generateEmbedding n query chunks topK q,
    existsb has_embedding chunks = true ->
    generateEmbedding n query = Some q ->
    Sorted score_ge
      (fst (searchCodebase generateEmbedding n query chunks topK)).

Definition chunk_with (name : jsstring) (e : option (list float))
  : CodeChunk :=
  mkChunk (lit "chunk-0") name (lit "text") e.

(** Four indexed chunks, one of them without an embedding, and an
    embedding service that answers every query with the same vector. *)
Definition sample_index : list CodeChunk :=
  [chunk_with (lit "a.ts") (Some [zero; one]);
   chunk_with (lit "b.ts") None;
   chunk_with (lit "c.ts") (Some [one; zero]);
   chunk_with (lit "d.ts") (Some [one; one])].

Definition sample_service (n : nat) (text : jsstring) : option (list float) :=
  Some [one; zero].

(** An index with a zero vector: its score is [0 / 0]. *)
Definition zero_index : list CodeChunk :=
  [chunk_with (lit "z.ts") (Some [zero; zero]);
   chunk_with (lit "c.ts") (Some [one; zero])].

(** *** Loop invariant of the chunker *)

(** A chunk as the chunker makes it: without embedding. *)
Definition bare (c : CodeChunk) : Prop := embedding c = None.

Definition short (c : CodeChunk) : Prop := length (content c) <= 2000.

Definition well_numbered (st : chunk_state) : Prop :=
  fst st = length (snd st) /\
  map id (snd st) = map chunk_id (seq 0 (fst st)) /\
  Forall short (snd st).

End Spec.

(* ===================================================================== *)
(** ** services/github.ts: a single file *)
(* ===================================================================== *)

Module GithubFile.
Import Str Github.

(** The errors of [fetchGithubFile]; a rejected [fetch] is passed on. *)
Inductive FileError :=
| FileNotFound (p : jsstring)
| FileFetchFailed (p : jsstring) (code : Z)
| FileRejected.

Definition file_message (e : FileError) : jsstring :=
  match e with
  | FileNotFound p => lit "File not found: " ++ p
  | FileFetchFailed p code =>
      lit "Failed to fetch file: " ++ p ++ lit ". Status: " ++ of_Z code
  | FileRejected => lit "TypeError"
  end.

Definition fetchGithubFile
  (fetch_raw : jsstring -> FetchOutcome jsstring)
  (owner repo branch p : jsstring) : FileError + jsstring :=
  match fetch_raw (rawUrl (mkRepoInfo owner repo) branch p) with
  | Resolved res =>
      if negb (ok res) then
        if (status res =? 404)%Z then inl (FileNotFound p)
        else inl (FileFetchFailed p (status res))
      else inr (body res)
  | _ => inl FileRejected
  end.

End GithubFile.

(* ===================================================================== *)
(** ** services/gemini.ts: the key and the embedding request *)
(* ===================================================================== *)

Module Gemini.
Import Str.

(** [localStorage]: [getItem] gives [null] for a key that was never set. *)
Definition Storage := jsstring -> option jsstring.

Definition getItem (st : Storage) (k : jsstring) : option jsstring := st k.

Definition setItem (st : Storage) (k v : jsstring) : Storage :=
  fun k' => if str_eqb k' k then Some v else st k'.

Definition KEY_NAME : jsstring := lit "nexus_api_key".

(** The module state: the variable [dynamicApiKey] and the storage. *)
Record KeyState := mkKeyState {
  dynamicApiKey : jsstring;
  localStorage : Storage
}.

(** The initialisation of [dynamicApiKey] when the module is loaded:
    [localStorage.getItem('nexus_api_key') || process.env.API_KEY || '']. *)
Definition load (storage : Storage) (env_API_KEY : option jsstring)
  : KeyState :=
  mkKeyState
    (or_else (getItem storage KEY_NAME) (or_else env_API_KEY []))
    storage.

Definition setGlobalApiKey (key : jsstring) (st : KeyState) : KeyState :=
  mkKeyState key (setItem (localStorage st) KEY_NAME key).

Definition hasValidKey (st : KeyState) : bool := truthy (dynamicApiKey st).

Inductive GeminiError :=
| ApiKeyMissing
| EmbeddingFailed
| RequestRejected.

Definition gemini_message (e : GeminiError) : jsstring :=
  match e with
  | ApiKeyMissing =>
      lit "API Key is missing. Please set your Google Gemini API Key in settings."
  | EmbeddingFailed => lit "Failed to generate embedding"
  | RequestRejected => lit "ApiError"
  end.

(** [getAIClient]: the key the client is made with. *)
Definition getAIClient (st : KeyState) : GeminiError + jsstring :=
  if truthy (dynamicApiKey st) then inr (dynamicApiKey st)
  else inl ApiKeyMissing.

(** The fields read from the response of [embedContent]. *)
Record ContentEmbedding := mkEmbedding { values : option (list float) }.

Record EmbedResponse := mkEmbedResponse {
  embeddings : option (list ContentEmbedding)
}.

(** [generateEmbedding] as the [n]-th request: [embedContent] is the
    service, given the key and the text; [None] when it rejects. *)
Definition generateEmbedding (st : KeyState)
  (embedContent : nat -> jsstring -> jsstring -> option EmbedResponse)
  (n : nat) (text : jsstring) : GeminiError + list float :=
  match getAIClient st with
  | inl e => inl e
  | inr apiKey =>
      match embedContent n apiKey text with
      | None => inl RequestRejected
      | Some result =>
          match embeddings result with
          | Some (first :: _) =>
              match values first with
              | Some v => inr v
              | None => inl EmbeddingFailed
              end
          | _ => inl EmbeddingFailed
          end
      end
  end.

(** [generateEmbedding] as [services/rag.ts] sees it inside [try]: the
    vector, or a rejection. *)
Definition embedding_service (st : KeyState)
  (embedContent : nat -> jsstring -> jsstring -> option EmbedResponse)
  (n : nat) (text : jsstring) : option (list float) :=
  match generateEmbedding st embedContent n text with
  | inr v => Some v
  | inl _ => None
  end.

End Gemini.

(* ===================================================================== *)
(** ** components/RepoView.tsx: the state fed to and by the fetch *)
(* ===================================================================== *)

Module View.
Import Str Github.

(** The updater of [updateFile]: replace the entries of the same path,
    or append. *)
Definition updateFile (prev : list FetchedFileStatus)
  (file : FetchedFileStatus) : list FetchedFileStatus :=
  match find (fun f => str_eqb (fs_path f) (fs_path file)) prev with
  | Some _ =>
      map (fun f => if str_eqb (fs_path f) (fs_path file) then file else f)
        prev
  | None => prev ++ [file]
  end.

(** The list of [fetchedFiles] after the calls of [onFileUpdate] among
    the events, starting from [setFetchedFiles([])]. *)
Definition apply_event (prev : list FetchedFileStatus) (e : Event)
  : list FetchedFileStatus :=
  match e with
  | FileUpdate file => updateFile prev file
  | Progress _ => prev
  end.

Definition fetchedFiles (evs : list Event) : list FetchedFileStatus :=
  fold_left apply_event evs [].

(** The updater of [toggleExtension]. *)
Definition toggleExtension (prev : list jsstring) (ext : jsstring)
  : list jsstring :=
  if existsb (str_eqb ext) prev
  then filter (fun e => negb (str_eqb e ext)) prev
  else prev ++ [ext].

(** The [extensions] that [handleGithubFetch] passes on. *)
Definition extensions (selectedExtensions : list jsstring)
  (customExtension : jsstring) : list jsstring :=
  if truthy customExtension then
    selectedExtensions
    ++ [if startsWith customExtension (lit ".") then customExtension
        else lit "." ++ customExtension]
  else selectedExtensions.

End View.

(* ===================================================================== *)
(** ** components/RepoView.tsx: the semantic search of the panel *)
(* ===================================================================== *)

Module Panel.
Import Str Rag.

(** [handleSemanticSearch] as the [n]-th user of the embedding service:
    the value of [semanticResults] when it has settled.  The handler
    returns at once for an empty query or an empty index. *)
Definition handleSemanticSearch
  (generateEmbedding : nat -> jsstring -> option (list float)) (n : nat)
  (semanticQuery : jsstring) (indexedChunks : list CodeChunk)
  (semanticResults : list ScoredChunk) : list ScoredChunk :=
  if negb (truthy semanticQuery) || (length indexedChunks =? 0)
  then semanticResults
  else fst (searchCodebase generateEmbedding n semanticQuery indexedChunks 4).

End Panel.

(* ===================================================================== *)
(** ** Further statements *)
(* ===================================================================== *)

Module Props.
Import Str Arr Rag.

Definition path_score (f : Github.TreeNode) : Z :=
  Github.score (Github.path f).

(** The files that pass the filter, in priority order. *)
Definition candidates (allowedExtensions : list jsstring)
  (options : Github.FetchOptions) (nodes : list Github.TreeNode)
  : list Github.TreeNode :=
  Github.priority_sort
    (filter (Github.keep_node allowedExtensions options) nodes).

Definition success_update (file : Github.TreeNode) : Github.Event :=
  Github.FileUpdate
    (Github.mkStatus (Github.path file) (Github.size file) Github.success).

Definition pending_update (file : Github.TreeNode) : Github.Event :=
  Github.FileUpdate
    (Github.mkStatus (Github.path file) (Github.size file) Github.pending).

Definition is_success_update (e : Github.Event) : bool :=
  match e with
  | Github.FileUpdate f =>
      match Github.fs_status f with Github.success => true | _ => false end
  | _ => false
  end.

Definition is_file_update (e : Github.Event) : bool :=
  match e with
  | Github.FileUpdate _ => true
  | _ => false
  end.

(** The fetch of the file fails with an [error] update: a response that
    is not 2xx, or a rejection that is not an abort. *)
Definition failed (fetch_raw : jsstring -> Github.FetchOutcome jsstring)
  (info : Github.RepoInfo) (br : jsstring) (file : Github.TreeNode) : bool :=
  match fetch_raw (Github.rawUrl info br (Github.path file)) with
  | Github.Resolved res => negb (Github.ok res)
  | Github.RejectedAbort => false
  | Github.RejectedOther => true
  end.

(** The status update with which the fetch of a file ends: [success],
    [error], or none when the fetch is rejected by an abort. *)
Definition terminal_update
  (fetch_raw : jsstring -> Github.FetchOutcome jsstring)
  (info : Github.RepoInfo) (br : jsstring) (file : Github.TreeNode)
  : list Github.Event :=
  match fetch_raw (Github.rawUrl info br (Github.path file)) with
  | Github.Resolved res =>
      if Github.ok res then [success_update file]
      else [Spec.error_update file]
  | Github.RejectedAbort => []
  | Github.RejectedOther => [Spec.error_update file]
  end.

(** The status record of a file. *)
Definition status_of (st : Github.Status) (file : Github.TreeNode)
  : Github.FetchedFileStatus :=
  Github.mkStatus (Github.path file) (Github.size file) st.

(** The arguments of the calls of [onFileUpdate] among the events. *)
Fixpoint statuses_of (evs : list Github.Event)
  : list Github.FetchedFileStatus :=
  match evs with
  | [] => []
  | Github.FileUpdate f :: t => f :: statuses_of t
  | Github.Progress _ :: t => statuses_of t
  end.

(** The status with which the fetch of a file settles, if it sends one. *)
Definition settled_status
  (fetch_raw : jsstring -> Github.FetchOutcome jsstring)
  (info : Github.RepoInfo) (br : jsstring) (file : Github.TreeNode)
  : option Github.Status :=
  match fetch_raw (Github.rawUrl info br (Github.path file)) with
  | Github.Resolved res =>
      if Github.ok res then Some Github.success else Some Github.error
  | Github.RejectedAbort => None
  | Github.RejectedOther => Some Github.error
  end.

(** The status shown for a file that was attempted. *)
Definition shown_status
  (fetch_raw : jsstring -> Github.FetchOutcome jsstring)
  (info : Github.RepoInfo) (br : jsstring) (file : Github.TreeNode)
  : Github.Status :=
  match settled_status fetch_raw info br file with
  | Some st => st
  | None => Github.pending
  end.

(** Twenty-one files of the same score, more than the cap lets through. *)
Definition crowd : list Github.TreeNode :=
  map (fun i => Spec.node_of (lit "f" ++ of_nat i ++ lit ".ts")) (seq 1 21).

(** The files of batch [j], and the files of the [n] batches from batch
    [j] on in the order in which their callbacks report: batch after
    batch, inside a batch as the callbacks resume. *)
Definition batch_at (files : list Github.TreeNode) (j : nat)
  : list Github.TreeNode :=
  firstn Github.batchSize (skipn (j * Github.batchSize) files).

Definition reported (latency : nat -> nat) (files : list Github.TreeNode)
  (j n : nat) : list Github.TreeNode :=
  flat_map
    (fun m =>
       Github.settle_order latency (m * Github.batchSize) (batch_at files m))
    (seq j n).

(** The last update for the path [p] among the updates [l]. *)
Definition last_update (p : jsstring) (l : list Github.FetchedFileStatus)
  : option Github.FetchedFileStatus :=
  find (fun f => str_eqb (Github.fs_path f) p) (rev l).

Definition lookup (p : jsstring) (l : list Github.FetchedFileStatus)
  : option Github.FetchedFileStatus :=
  find (fun f => str_eqb (Github.fs_path f) p) l.

Definition no_line_terminator (s : jsstring) : Prop :=
  existsb isLineTerminator s = false.

(** A chunk that the delimiters can carry again. *)
Definition clean_chunk (c : CodeChunk) : Prop :=
  no_line_terminator (fileName c) /\ includes (content c) CLOSE = false.

(** The text that the fetch of a file resolved with. *)
Definition text_of (fetch_raw : jsstring -> Github.FetchOutcome jsstring)
  (info : Github.RepoInfo) (br : jsstring) (file : Github.TreeNode)
  : jsstring :=
  match fetch_raw (Github.rawUrl info br (Github.path file)) with
  | Github.Resolved res => Github.body res
  | _ => []
  end.

(** A storage that holds nothing, and an embedding service that answers
    every request with one vector. *)
Definition empty_storage : Gemini.Storage := fun _ => None.

Definition constant_service (n : nat) (apiKey text : jsstring)
  : option Gemini.EmbedResponse :=
  Some (Gemini.mkEmbedResponse
          (Some [Gemini.mkEmbedding (Some [one; zero])])).

End Props.

(* ===================================================================== *)
(** ** Facts about the string primitives *)
(* ===================================================================== *)

Module StrFacts.
Import Str.

Lemma char_eqb_refl (a : char) : char_eqb a a = true.
Proof. apply N.eqb_refl. Qed.

Lemma char_eqb_eq (a b : char) : char_eqb a b = true <-> a = b.
Proof. apply N.eqb_eq. Qed.

Lemma strip_prefix_app (p s : jsstring) : strip_prefix p (p ++ s) = Some s.
Proof.
  induction p as [|a p IH]; simpl; [reflexivity|].
  now rewrite char_eqb_refl.
Qed.

Lemma strip_prefix_Some (p s r : jsstring) :
  strip_prefix p s = Some r -> s = p ++ r.
Proof.
  revert s; induction p as [|a p IH]; intros s H; simpl in *.
  - now inversion H.
  - destruct s as [|b s]; [discriminate|].
    destruct (char_eqb a b) eqn:E; [|discriminate].
    apply char_eqb_eq in E; subst b.
    now rewrite (IH _ H).
Qed.

Lemma strip_prefix_iff (p s r : jsstring) :
  strip_prefix p s = Some r <-> s = p ++ r.
Proof.
  split; [apply strip_prefix_Some|].
  intros ->; apply strip_prefix_app.
Qed.

Lemma startsWith_iff (s p : jsstring) :
  startsWith s p = true <-> exists r, s = p ++ r.
Proof.
  unfold startsWith; split.
  - destruct (strip_prefix p s) eqn:E; [|discriminate].
    intros _; exists j; now apply strip_prefix_Some.
  - intros [r ->]; now rewrite strip_prefix_app.
Qed.

Lemma endsWith_iff (s p : jsstring) :
  endsWith s p = true <-> exists a, s = a ++ p.
Proof.
  unfold endsWith; rewrite startsWith_iff; split.
  - intros [r H]; exists (rev r).
    rewrite <- (rev_involutive s), H, rev_app_distr.
    now rewrite rev_involutive.
  - intros [a ->]; exists (rev a); apply rev_app_distr.
Qed.

Lemma find_literal_Some (p s b r : jsstring) :
  find_literal p s = Some (b, r) -> s = b ++ p ++ r.
Proof.
  revert b; induction s as [|c s IH]; intros b H; simpl in H.
  - destruct (strip_prefix p []) eqn:E; [|discriminate].
    inversion H; subst; now apply strip_prefix_Some in E.
  - destruct (strip_prefix p (c :: s)) eqn:E.
    + inversion H; subst; now apply strip_prefix_Some in E.
    + destruct (find_literal p s) as [[b' r']|] eqn:F; [|discriminate].
      inversion H; subst; simpl; f_equal; now apply IH.
Qed.

Lemma find_literal_None_app (p a b : jsstring) :
  find_literal p (a ++ p ++ b) <> None.
Proof.
  induction a as [|c a IH]; simpl.
  - destruct (p ++ b) eqn:E; simpl;
      rewrite <- E, strip_prefix_app; discriminate.
  - destruct (strip_prefix p (c :: a ++ p ++ b)); [discriminate|].
    destruct (find_literal p (a ++ p ++ b)) as [[? ?]|]; [discriminate|].
    now elim IH.
Qed.

Lemma includes_iff (s p : jsstring) :
  includes s p = true <-> exists a b, s = a ++ p ++ b.
Proof.
  unfold includes; split.
  - destruct (find_literal p s) as [[b r]|] eqn:E; [|discriminate].
    intros _; exists b, r; now apply find_literal_Some.
  - intros (a & b & ->).
    destruct (find_literal p (a ++ p ++ b)) eqn:E; [reflexivity|].
    now apply find_literal_None_app in E.
Qed.

Lemma find_literal_None_cons (p : jsstring) (c : char) (s : jsstring) :
  find_literal p (c :: s) = None ->
  strip_prefix p (c :: s) = None /\ find_literal p s = None.
Proof.
  simpl; destruct (strip_prefix p (c :: s)) eqn:E; [discriminate|].
  destruct (find_literal p s) as [[? ?]|]; [discriminate|]; auto.
Qed.

(** A pattern whose first character does not occur again has no proper
    overlap with itself: an occurrence cannot start inside [s] and run
    into a following copy of the pattern. *)
Lemma strip_prefix_no_overlap (a : char) (q s rest : jsstring) :
  ~ In a q -> s <> [] ->
  strip_prefix (a :: q) s = None ->
  strip_prefix (a :: q) (s ++ (a :: q) ++ rest) = None.
Proof.
  intros Ha Hs Hn.
  destruct (strip_prefix (a :: q) (s ++ (a :: q) ++ rest)) as [r|] eqn:E;
    [|reflexivity].
  apply strip_prefix_Some in E.
  apply app_eq_app in E; destruct E as [l [[H1 H2]|[H1 H2]]].
  - rewrite H1, strip_prefix_app in Hn; discriminate.
  - destruct s as [|x s]; [congruence|].
    destruct l as [|y l].
    + rewrite app_nil_r in H1; rewrite <- H1 in Hn.
      rewrite <- (app_nil_r (a :: q)) in Hn at 2.
      rewrite strip_prefix_app in Hn; discriminate.
    + simpl in H1, H2.
      injection H1 as _ Hq; injection H2 as Hy _; subst y.
      elim Ha; rewrite Hq; apply in_or_app; right; now left.
Qed.

(** The first occurrence of such a pattern after a text that does not
    contain it is the one that follows the text. *)
Lemma find_literal_first (a : char) (q c rest : jsstring) :
  ~ In a q ->
  includes c (a :: q) = false ->
  find_literal (a :: q) (c ++ (a :: q) ++ rest) = Some (c, rest).
Proof.
  intros Ha; unfold includes.
  induction c as [|x c IH]; intros Hc.
  - change ([] ++ (a :: q) ++ rest) with ((a :: q) ++ rest).
    destruct ((a :: q) ++ rest) eqn:E; [discriminate|].
    cbn [find_literal]; rewrite <- E, strip_prefix_app; reflexivity.
  - destruct (find_literal (a :: q) (x :: c)) eqn:F; [discriminate|].
    apply find_literal_None_cons in F; destruct F as [F1 F2].
    change ((x :: c) ++ (a :: q) ++ rest)
      with (x :: (c ++ (a :: q) ++ rest)).
    cbn [find_literal].
    change (x :: c ++ (a :: q) ++ rest)
      with ((x :: c) ++ (a :: q) ++ rest).
    rewrite strip_prefix_no_overlap by (auto; discriminate).
    rewrite IH; [reflexivity|now rewrite F2].
Qed.

(** Decimal printing is injective. *)
Lemma lit_inj (s t : String.string) : lit s = lit t -> s = t.
Proof.
  revert t; induction s as [|a s IH]; intros [|b t] H;
    try discriminate; [reflexivity|].
  unfold lit in H; simpl in H; inversion H as [[H1 H2]].
  f_equal; [|now apply IH].
  rewrite <- (ascii_N_embedding a), <- (ascii_N_embedding b).
  now rewrite H1.
Qed.

Lemma of_nat_inj (n m : nat) : of_nat n = of_nat m -> n = m.
Proof.
  unfold of_nat; intros H; apply lit_inj in H.
  apply (f_equal NilEmpty.uint_of_string) in H.
  rewrite !NilEmpty.usu in H; inversion H as [H'].
  now apply DecimalNat.Unsigned.to_uint_inj.
Qed.

End StrFacts.

(* ===================================================================== *)
(** ** The chunker *)
(* ===================================================================== *)

Module ChunkerFacts.
Import Str Rag Spec StrFacts.

(** *** Sub-chunks *)

Lemma pieces_bound (fuel n : nat) (s : jsstring) :
  Forall (fun x => length x <= n) (pieces fuel n s).
Proof.
  revert s; induction fuel as [|fuel IH]; intros s; simpl; [constructor|].
  destruct s as [|c s]; constructor; [apply firstn_le_length|apply IH].
Qed.

Lemma pieces_concat (fuel n : nat) (s : jsstring) :
  0 < n -> length s <= fuel -> concat (pieces fuel n s) = s.
Proof.
  intros Hn; revert s; induction fuel as [|fuel IH]; intros s Hs.
  - destruct s; [reflexivity|simpl in Hs; lia].
  - destruct s as [|c s]; [reflexivity|].
    cbn [pieces concat]; rewrite IH.
    + apply firstn_skipn.
    + rewrite length_skipn; cbn [length] in *; lia.
Qed.

Lemma match_all_concat (n : nat) (s : jsstring) :
  0 < n -> concat (match_all n s) = s.
Proof. intros Hn; apply pieces_concat; auto. Qed.

(** *** The loop invariant: ids count up from zero, contents are short *)

Lemma well_numbered_push (idx : nat) (chunks : list CodeChunk)
  (name body : jsstring) :
  well_numbered (idx, chunks) -> length body <= 2000 ->
  well_numbered
    (S idx, chunks ++ [mkChunk (chunk_id idx) name body None]).
Proof.
  unfold well_numbered; cbn [fst snd]; intros (H1 & H2 & H3) Hb.
  repeat split.
  - rewrite length_app; simpl; lia.
  - rewrite map_app, seq_S, map_app, H2; reflexivity.
  - apply Forall_app; split; [assumption|].
    constructor; [exact Hb|constructor].
Qed.

Lemma well_numbered_parts (name : jsstring)
  (parts : list (nat * jsstring)) (st : chunk_state) :
  well_numbered st ->
  Forall (fun isc => length (snd isc) <= 2000) parts ->
  well_numbered (fold_left (push_part name) parts st).
Proof.
  revert st; induction parts as [|[i sc] parts IH]; intros [idx chunks] Hst Hp;
    simpl; [assumption|].
  inversion Hp; subst; apply IH; [|assumption].
  now apply well_numbered_push.
Qed.

Lemma combine_snd_Forall {A B} (P : B -> Prop) (l : list A) (l' : list B) :
  Forall P l' -> Forall (fun ab => P (snd ab)) (combine l l').
Proof.
  intros H; revert l; induction H as [|b l' Hb H IH]; intros [|a l];
    simpl; constructor; auto.
Qed.

Lemma well_numbered_file (st : chunk_state) (name body : jsstring) :
  well_numbered st -> well_numbered (push_file st name body).
Proof.
  intros Hst; unfold push_file.
  destruct (2000 <? length body) eqn:E.
  - apply well_numbered_parts; [assumption|].
    apply combine_snd_Forall with (P := fun x => length x <= 2000).
    apply pieces_bound.
  - destruct st as [idx chunks]; apply well_numbered_push; [assumption|].
    apply Nat.ltb_ge in E; exact E.
Qed.

Lemma well_numbered_loop (fuel : nat) (s : jsstring) (st : chunk_state) :
  well_numbered st -> well_numbered (chunk_loop fuel s st).
Proof.
  revert s st; induction fuel as [|fuel IH]; intros s st Hst; simpl;
    [assumption|].
  destruct (regex_exec s) as [[[name body] rest]|]; [|assumption].
  apply IH; now apply well_numbered_file.
Qed.

Lemma chunk_id_inj (n m : nat) : chunk_id n = chunk_id m -> n = m.
Proof.
  unfold chunk_id; intros H; apply app_inv_head in H.
  now apply of_nat_inj.
Qed.

(** *** The bound on the iterations is never reached *)

Lemma find_literal_shorter (p s b r : jsstring) :
  find_literal p s = Some (b, r) -> length r <= length s.
Proof.
  intros H; apply find_literal_Some in H; subst.
  rewrite !length_app; lia.
Qed.

Lemma match_after_open_shorter (s name body rest : jsstring) :
  match_after_open s = Some (name, body, rest) -> length rest <= length s.
Proof.
  revert name; induction s as [|c s IH]; intros name H.
  - cbn in H. discriminate.
  - assert (Hext :
      (if isLineTerminator c then None
       else match match_after_open s with
            | Some (n, b, r) => Some (c :: n, b, r)
            | None => None
            end) = Some (name, body, rest) -> length rest <= length (c :: s)).
    { destruct (isLineTerminator c); [discriminate|].
      destruct (match_after_open s) as [[[n b] r]|] eqn:E; [|discriminate].
      intros H'; inversion H'; subst; simpl.
      specialize (IH _ eq_refl); lia. }
    cbn [match_after_open] in H.
    destruct (strip_prefix MID (c :: s)) as [s2|] eqn:E1; [|now apply Hext].
    destruct (find_literal CLOSE s2) as [[b r]|] eqn:E2; [|now apply Hext].
    inversion H; subst.
    apply find_literal_shorter in E2; apply strip_prefix_Some in E1.
    rewrite E1, length_app; lia.
Qed.

Lemma regex_exec_shorter (s name body rest : jsstring) :
  regex_exec s = Some (name, body, rest) -> length rest < length s.
Proof.
  induction s as [|c s IH]; intros H.
  - cbn in H; discriminate.
  - cbn [regex_exec] in H.
    destruct (match_here (c :: s)) as [m|] eqn:E.
    + inversion H; subst; unfold match_here in E.
      destruct (strip_prefix OPEN (c :: s)) as [s1|] eqn:E1; [|discriminate].
      apply match_after_open_shorter in E; apply strip_prefix_Some in E1.
      rewrite E1, length_app; change (length OPEN) with 10; lia.
    + specialize (IH H); simpl; lia.
Qed.

Lemma chunk_loop_fuel (fuel : nat) (s : jsstring) (st : chunk_state) :
  length s <= fuel ->
  chunk_loop fuel s st = chunk_loop (length s) s st.
Proof.
  remember (length s) as n eqn:Hn.
  revert fuel s st Hn.
  induction n as [n IH] using lt_wf_ind; intros fuel s st Hn Hle.
  destruct fuel as [|fuel].
  - assert (n = 0) by lia; subst; now rewrite H.
  - destruct n as [|n].
    + destruct s; [|discriminate]; cbn; reflexivity.
    + cbn [chunk_loop].
      destruct (regex_exec s) as [[[name body] rest]|] eqn:E; [|reflexivity].
      apply regex_exec_shorter in E.
      rewrite (IH (length rest)) by (try reflexivity; lia).
      symmetry; apply (IH (length rest)); try reflexivity; lia.
Qed.

(** *** The chunker on an assembled corpus *)

Lemma record_shape (p c : jsstring) :
  Github.file_record p c = OPEN ++ p ++ MID ++ c ++ CLOSE ++ [nl; nl].
Proof.
  unfold Github.file_record, OPEN, MID, CLOSE.
  rewrite <- !app_assoc; reflexivity.
Qed.

Lemma MID_needs_nl (s r : jsstring) :
  strip_prefix MID s = Some r -> nth_error s 4 = Some nl.
Proof.
  intros H; apply strip_prefix_Some in H; subst; reflexivity.
Qed.

Lemma name_has_no_MID (p t : jsstring) :
  p <> [] -> existsb isLineTerminator p = false ->
  strip_prefix MID (p ++ MID ++ t) = None.
Proof.
  intros Hp Hlt.
  destruct (strip_prefix MID (p ++ MID ++ t)) as [r|] eqn:E; [|reflexivity].
  apply MID_needs_nl in E.
  destruct p as [|a [|b [|c [|d [|e p]]]]]; try congruence;
    try (cbn in E; discriminate).
  cbn in E; injection E as ->.
  cbn in Hlt; rewrite !orb_true_r in Hlt; discriminate.
Qed.

Lemma CLOSE_head_unique : ~ In nl (lit "--- END OF FILE ---").
Proof. cbn; intuition discriminate. Qed.

Lemma match_after_open_record (p c rest : jsstring) :
  existsb isLineTerminator p = false ->
  includes c CLOSE = false ->
  match_after_open (p ++ MID ++ c ++ CLOSE ++ rest) = Some (p, c, rest).
Proof.
  intros Hp Hc; induction p as [|x p IH].
  - change ([] ++ MID ++ c ++ CLOSE ++ rest)
      with (MID ++ c ++ CLOSE ++ rest).
    assert (E : strip_prefix MID (MID ++ c ++ CLOSE ++ rest)
                = Some (c ++ CLOSE ++ rest)) by apply strip_prefix_app.
    assert (F : find_literal CLOSE (c ++ CLOSE ++ rest) = Some (c, rest)).
    { unfold CLOSE in *.
      apply find_literal_first; [apply CLOSE_head_unique|exact Hc]. }
    destruct (MID ++ c ++ CLOSE ++ rest) as [|y l] eqn:El; [discriminate|].
    cbn [match_after_open]; rewrite E, F; reflexivity.
  - cbn [existsb] in Hp; apply orb_false_iff in Hp; destruct Hp as [Hx Hp].
    change ((x :: p) ++ MID ++ c ++ CLOSE ++ rest)
      with (x :: (p ++ MID ++ c ++ CLOSE ++ rest)).
    cbn [match_after_open].
    change (x :: p ++ MID ++ c ++ CLOSE ++ rest)
      with ((x :: p) ++ MID ++ c ++ CLOSE ++ rest).
    rewrite name_has_no_MID;
      [|discriminate|cbn [existsb]; now rewrite Hx, Hp].
    rewrite Hx, (IH Hp); reflexivity.
Qed.

Lemma regex_exec_record (p c rest : jsstring) :
  existsb isLineTerminator p = false ->
  includes c CLOSE = false ->
  regex_exec (Github.file_record p c ++ rest)
  = Some (p, c, [nl; nl] ++ rest).
Proof.
  intros Hp Hc.
  assert (M : match_here (Github.file_record p c ++ rest)
              = Some (p, c, [nl; nl] ++ rest)).
  { unfold match_here; rewrite record_shape, <- !app_assoc.
    rewrite strip_prefix_app.
    now apply match_after_open_record. }
  destruct (Github.file_record p c ++ rest) as [|y l];
    cbn [regex_exec]; rewrite M; reflexivity.
Qed.

Lemma ends_nl_app (x y : jsstring) : ends_nl y -> ends_nl (x ++ y).
Proof. intros [h ->]; exists (x ++ h); apply app_assoc. Qed.

Lemma ends_nl_tail (x : char) (h : jsstring) :
  ends_nl (x :: h) -> h = [] \/ ends_nl h.
Proof.
  intros [[|y h'] H]; simpl in H; injection H as _ H.
  - now left.
  - right; now exists h'.
Qed.

Lemma OPEN_has_no_nl : ~ In nl OPEN.
Proof. cbn; intuition discriminate. Qed.

(** Text that does not contain the opening delimiter and ends with a
    newline cannot hold the start of a match. *)
Lemma regex_exec_skip (h rest : jsstring) :
  includes h OPEN = false -> h = [] \/ ends_nl h ->
  regex_exec (h ++ rest) = regex_exec rest.
Proof.
  unfold includes; induction h as [|x h IH]; intros Hinc Hend;
    [reflexivity|].
  destruct (find_literal OPEN (x :: h)) eqn:F; [discriminate|].
  apply find_literal_None_cons in F; destruct F as [F1 F2].
  destruct Hend as [Hend|Hend]; [discriminate|].
  assert (S : strip_prefix OPEN ((x :: h) ++ rest) = None).
  { destruct (strip_prefix OPEN ((x :: h) ++ rest)) as [r|] eqn:E;
      [|reflexivity].
    apply strip_prefix_Some in E.
    apply app_eq_app in E; destruct E as [l [[H1 H2]|[H1 H2]]].
    - rewrite H1, strip_prefix_app in F1; discriminate.
    - destruct Hend as [h' Hh']; elim OPEN_has_no_nl.
      rewrite H1, Hh', <- app_assoc.
      apply in_or_app; right; now left. }
  change ((x :: h) ++ rest) with (x :: (h ++ rest)).
  cbn [regex_exec]; unfold match_here.
  change (x :: h ++ rest) with ((x :: h) ++ rest); rewrite S.
  apply IH; [now rewrite F2|now apply ends_nl_tail in Hend].
Qed.

Lemma regex_exec_gap (rest : jsstring) :
  regex_exec ([nl; nl] ++ rest) = regex_exec rest.
Proof.
  apply regex_exec_skip; [reflexivity|right; now exists [nl]].
Qed.

Lemma chunk_loop_records (files : list (jsstring * jsstring)) :
  forallb clean_file files = true ->
  forall fuel gap st,
    regex_exec gap = None ->
    (forall rest, regex_exec (gap ++ rest) = regex_exec rest) ->
    length files <= fuel ->
    chunk_loop fuel (assemble gap files) st
    = fold_left (fun st f => push_file st (fst f) (snd f)) files st.
Proof.
  unfold assemble, join.
  induction files as [|[p c] files IH]; intros Hclean fuel gap st Hnone Hgap Hfuel.
  - cbn [map concat fold_left]; rewrite app_nil_r.
    destruct fuel; cbn [chunk_loop]; [reflexivity|now rewrite Hnone].
  - cbn [forallb] in Hclean; apply andb_true_iff in Hclean.
    destruct Hclean as [Hf Hclean].
    unfold clean_file in Hf; cbn [fst snd] in Hf.
    apply andb_true_iff in Hf; destruct Hf as [Hp Hc].
    apply negb_true_iff in Hp, Hc.
    destruct fuel as [|fuel]; [simpl in Hfuel; lia|].
    cbn [map concat fold_left fst snd chunk_loop].
    rewrite Hgap, regex_exec_record by assumption.
    apply (IH Hclean fuel [nl; nl]); [reflexivity|apply regex_exec_gap|].
    simpl in Hfuel; lia.
Qed.

Lemma push_parts_number (name : jsstring) (parts : list (nat * jsstring)) :
  forall idx chunks,
    fold_left (push_part name) parts (idx, chunks)
    = (idx + length parts, chunks ++ number_parts name idx parts).
Proof.
  induction parts as [|[i sc] parts IH]; intros idx chunks.
  - cbn; now rewrite Nat.add_0_r, app_nil_r.
  - cbn [fold_left push_part number_parts length]; rewrite IH.
    rewrite <- app_assoc; f_equal; lia.
Qed.

Lemma push_file_group (idx : nat) (chunks : list CodeChunk)
  (name body : jsstring) :
  push_file (idx, chunks) name body
  = (idx + length (file_group idx name body),
     chunks ++ file_group idx name body).
Proof.
  unfold push_file, file_group.
  destruct (2000 <? length body).
  - rewrite push_parts_number; f_equal.
    generalize (combine (seq 0 (length (match_all 2000 body)))
                  (match_all 2000 body)).
    intros l; generalize idx; induction l as [|[i sc] l IH]; intros k;
      simpl; [reflexivity|].
    specialize (IH (S k)); lia.
  - f_equal; simpl; lia.
Qed.

Lemma push_files_groups (files : list (jsstring * jsstring)) :
  forall idx chunks,
    snd (fold_left (fun st f => push_file st (fst f) (snd f)) files
           (idx, chunks))
    = chunks ++ concat (file_groups idx files).
Proof.
  induction files as [|[p c] files IH]; intros idx chunks.
  - cbn; now rewrite app_nil_r.
  - cbn [fold_left fst snd file_groups concat].
    rewrite push_file_group, IH, <- app_assoc; reflexivity.
Qed.

Lemma number_parts_names (name : jsstring) (parts : list (nat * jsstring)) :
  forall idx,
    map fileName (number_parts name idx parts)
    = map (part_name name) (map fst parts)
    /\ map content (number_parts name idx parts) = map snd parts
    /\ length (number_parts name idx parts) = length parts.
Proof.
  induction parts as [|[i sc] parts IH]; intros idx; cbn; [auto|].
  destruct (IH (S idx)) as (H1 & H2 & H3); now rewrite H1, H2, H3.
Qed.

Lemma combine_seq_fst {A} (l : list A) (k : nat) :
  map fst (combine (seq k (length l)) l) = seq k (length l)
  /\ map snd (combine (seq k (length l)) l) = l
  /\ length (combine (seq k (length l)) l) = length l.
Proof.
  revert k; induction l as [|a l IH]; intros k; cbn; [auto|].
  destruct (IH (S k)) as (H1 & H2 & H3); now rewrite H1, H2, H3.
Qed.

Lemma file_group_recovered (idx : nat) (f : jsstring * jsstring) :
  recovered f (file_group idx (fst f) (snd f)).
Proof.
  destruct f as [p c]; unfold recovered, file_group; cbn [fst snd].
  destruct (2000 <? length c) eqn:E.
  - apply Nat.ltb_lt in E.
    destruct (length c <=? 2000) eqn:E'; [apply Nat.leb_le in E'; lia|].
    set (parts := match_all 2000 c).
    destruct (number_parts_names p (combine (seq 0 (length parts)) parts) idx)
      as (H1 & H2 & H3).
    destruct (combine_seq_fst parts 0) as (G1 & G2 & G3).
    split.
    + rewrite H1, H3, G1, G3; reflexivity.
    + rewrite H2, G2; apply match_all_concat; lia.
  - apply Nat.ltb_ge in E.
    destruct (length c <=? 2000) eqn:E'; [reflexivity|].
    apply Nat.leb_gt in E'; lia.
Qed.

Lemma file_groups_recovered (files : list (jsstring * jsstring)) :
  forall idx, Forall2 recovered files (file_groups idx files).
Proof.
  induction files as [|f files IH]; intros idx; cbn; constructor.
  - apply file_group_recovered.
  - apply IH.
Qed.

Lemma roundtrip_clean (hdr : jsstring) (files : list (jsstring * jsstring)) :
  includes hdr OPEN = false -> hdr = [] \/ ends_nl hdr ->
  forallb clean_file files = true ->
  roundtrip hdr files.
Proof.
  intros Hh He Hf; exists (file_groups 0 files); split;
    [|apply file_groups_recovered].
  unfold chunkCode.
  assert (Hn : regex_exec hdr = None).
  { rewrite <- (app_nil_r hdr), regex_exec_skip by assumption.
    reflexivity. }
  destruct files as [|f files].
  - unfold assemble; cbn [map join concat file_groups].
    rewrite app_nil_r.
    destruct (length hdr); cbn [chunk_loop]; [reflexivity|].
    now rewrite Hn.
  - rewrite chunk_loop_records; auto.
    + now rewrite push_files_groups.
    + intros rest; now apply regex_exec_skip.
    + unfold assemble, join; cbn [map concat].
      rewrite !length_app, record_shape, !length_app.
      change (length OPEN) with 10.
      assert (length files <= length (concat (map
                (fun f0 => Github.file_record (fst f0) (snd f0)) files))).
      { clear; induction files as [|g files IH]; cbn [map concat length];
          [lia|].
        rewrite length_app, record_shape, !length_app.
        change (length OPEN) with 10; lia. }
      cbn [length]; lia.
Qed.

Lemma header_ends_nl (info : Github.RepoInfo) (br : jsstring)
  (repoData : Github.RepoData) :
  ends_nl (Github.header info br repoData).
Proof.
  unfold Github.header.
  repeat (apply ends_nl_app).
  now exists [nl].
Qed.


(** C1 (as amended). For every file set whose names hold no line
    terminator and whose contents do not hold the closing delimiter, and
    a header that does not hold the opening delimiter, chunking the
    assembled corpus recovers, in order, the pair of every file of at
    most 2000 characters, and recovers every longer file as sub-chunks
    labelled with the file name and a part index whose contents rejoin
    to the content of the file. *)
Theorem corpus_roundtrip (info : Github.RepoInfo) (br : jsstring)
  (repoData : Github.RepoData) (files : list (jsstring * jsstring)) :
  includes (Github.header info br repoData) OPEN = false ->
  forallb clean_file files = true ->
  roundtrip (Github.header info br repoData) files.
Proof.
  intros Hh Hf; apply roundtrip_clean; auto.
  right; apply header_ends_nl.
Qed.

Lemma corpus_roundtrip_witness :
  includes (Github.header sample_info (lit "main") sample_data) OPEN = false
  /\ forallb clean_file sample_files = true
  /\ roundtrip (Github.header sample_info (lit "main") sample_data)
       sample_files.
Proof.
  split; [vm_compute; reflexivity|].
  split; [vm_compute; reflexivity|].
  apply corpus_roundtrip; vm_compute; reflexivity.
Defined.

(** C1 as stated fails: a content that holds the closing delimiter is
    cut at it, and a content of exactly 2000 characters comes back as one
    chunk under the plain file name, not as labelled parts. *)
Lemma corpus_roundtrip_counterexample :
  ~ roundtrip_as_claimed sample_header [file_with_delimiter]
  /\ ~ roundtrip_as_claimed sample_header [file_of_2000].
Proof.
  split; intros [groups [H1 H2]];
    inversion H2 as [|f g fs gs Hr Hrest]; subst;
    inversion Hrest; subst;
    cbn [concat] in H1; rewrite app_nil_r in H1; subst g.
  - vm_compute in Hr; discriminate.
  - vm_compute in Hr; destruct Hr as [Hn _]; discriminate.
Qed.

Lemma chunkCode_short_distinct (fullCodeContext : jsstring) :
  Forall short (chunkCode fullCodeContext)
  /\ NoDup (map id (chunkCode fullCodeContext)).
Proof.
  unfold chunkCode.
  destruct (well_numbered_loop (length fullCodeContext) fullCodeContext
              (st := (0, []))) as (H1 & H2 & H3).
  { repeat split; constructor. }
  split; [exact H3|].
  rewrite H2; apply Finite.Injective_map_NoDup; [|apply seq_NoDup].
  intros n m; apply chunk_id_inj.
Qed.

End ChunkerFacts.

(* ===================================================================== *)
(** ** Stable sorting *)
(* ===================================================================== *)

Module SortFacts.
Import Arr Spec.

Section ByKey.

Variable A : Type.
Variable after : A -> A -> bool.

Lemma insert_by_perm (x : A) (l : list A) :
  Permutation (x :: l) (insert_by after x l).
Proof.
  induction l as [|y t IH]; simpl; [reflexivity|].
  destruct (after x y); [|reflexivity].
  rewrite perm_swap; now constructor.
Qed.

Lemma sort_by_perm (l : list A) : Permutation l (sort_by after l).
Proof.
  induction l as [|x t IH]; simpl; [constructor|].
  rewrite <- insert_by_perm; now constructor.
Qed.

Lemma sort_by_length (l : list A) : length (sort_by after l) = length l.
Proof. symmetry; apply Permutation_length, sort_by_perm. Qed.

(** Sorting by an integer key, larger keys first: [x] must follow [y]
    exactly when its key is smaller. *)
Variable key : A -> Z.
Hypothesis after_key : forall x y, after x y = (key x <? key y)%Z.

Lemma insert_by_sorted (x : A) (l : list A) :
  StronglySorted (descending key) l ->
  StronglySorted (descending key) (insert_by after x l).
Proof.
  induction 1 as [|y t Ht IH Hy]; simpl; [repeat constructor|].
  rewrite after_key; destruct (key x <? key y)%Z eqn:E.
  - apply Z.ltb_lt in E; constructor; [assumption|].
    apply (Permutation_Forall (insert_by_perm x t)).
    constructor; [unfold descending; lia|assumption].
  - apply Z.ltb_ge in E; constructor; [now constructor|].
    constructor; [exact E|].
    eapply Forall_impl; [|exact Hy].
    unfold descending; intros; lia.
Qed.

Lemma sort_by_sorted (l : list A) :
  StronglySorted (descending key) (sort_by after l).
Proof.
  induction l as [|x t IH]; simpl; [constructor|].
  now apply insert_by_sorted.
Qed.

Lemma insert_by_stable (s : Z) (x : A) (l : list A) :
  filter (fun a => (key a =? s)%Z) (insert_by after x l)
  = filter (fun a => (key a =? s)%Z) (x :: l).
Proof.
  induction l as [|y t IH]; [reflexivity|].
  cbn [insert_by]; rewrite after_key.
  destruct (key x <? key y)%Z eqn:E; [|reflexivity].
  apply Z.ltb_lt in E.
  cbn [filter] in *; rewrite IH.
  destruct (key x =? s)%Z eqn:Ex; destruct (key y =? s)%Z eqn:Ey;
    try reflexivity.
  apply Z.eqb_eq in Ex, Ey; lia.
Qed.

Lemma sort_by_stable (s : Z) (l : list A) :
  filter (fun a => (key a =? s)%Z) (sort_by after l)
  = filter (fun a => (key a =? s)%Z) l.
Proof.
  induction l as [|x t IH]; [reflexivity|].
  cbn [sort_by]; rewrite insert_by_stable; cbn [filter]; now rewrite IH.
Qed.

End ByKey.

Lemma In_firstn {A} (n : nat) (l : list A) (x : A) :
  In x (firstn n l) -> In x l.
Proof.
  intros H; rewrite <- (firstn_skipn n l); apply in_or_app; now left.
Qed.

End SortFacts.

(* ===================================================================== *)
(** ** The tree fetcher: filter, priority sort, cap *)
(* ===================================================================== *)

Module TreeFacts.
Import Str Arr Github Spec StrFacts SortFacts.

Lemma after_score (a b : TreeNode) :
  (0 <? compare_nodes a b)%Z = (score (path a) <? score (path b))%Z.
Proof.
  unfold compare_nodes.
  destruct (score (path a) <? score (path b))%Z eqn:E.
  - apply Z.ltb_lt in E; apply Z.ltb_lt; lia.
  - apply Z.ltb_ge in E; apply Z.ltb_ge; lia.
Qed.

Lemma score_classes (p : jsstring) :
  (score p = 3%Z <-> includes (toLowerCase p) (lit "readme.md") = true)
  /\ (score p = 2%Z <->
      includes (toLowerCase p) (lit "readme.md") = false
      /\ (endsWith p (lit "json") || endsWith p (lit "toml")
          || endsWith p (lit "yml")) = true)
  /\ (score p = 1%Z <->
      includes (toLowerCase p) (lit "readme.md") = false
      /\ (endsWith p (lit "json") || endsWith p (lit "toml")
          || endsWith p (lit "yml")) = false
      /\ startsWith p (lit "src/") = true)
  /\ (score p = 0%Z \/ score p = 1%Z \/ score p = 2%Z \/ score p = 3%Z).
Proof.
  unfold score.
  destruct (includes (toLowerCase p) (lit "readme.md"));
    destruct (endsWith p (lit "json") || endsWith p (lit "toml")
              || endsWith p (lit "yml"));
    destruct (startsWith p (lit "src/"));
    repeat split; intros; try discriminate; try tauto;
    repeat match goal with H : _ /\ _ |- _ => destruct H end;
    try discriminate.
Qed.

(** C2 (as amended). For every file list, the sort of the tree fetcher
    yields a permutation of the list in descending order of the score of
    the path, and paths of equal score keep their relative order; the
    score is 3 when the lower-cased path contains [readme.md], else 2
    when the path ends with [json], [toml] or [yml], else 1 when it
    starts with [src/], else 0. *)
Theorem priority_sort_stable (files : list TreeNode) :
  Permutation files (priority_sort files)
  /\ StronglySorted (descending (fun f => score (path f)))
       (priority_sort files)
  /\ (forall s,
        filter (fun f => (score (path f) =? s)%Z) (priority_sort files)
        = filter (fun f => (score (path f) =? s)%Z) files)
  /\ (forall p,
        (score p = 3%Z <-> includes (toLowerCase p) (lit "readme.md") = true)
        /\ (score p = 2%Z <->
            includes (toLowerCase p) (lit "readme.md") = false
            /\ (endsWith p (lit "json") || endsWith p (lit "toml")
                || endsWith p (lit "yml")) = true)
        /\ (score p = 1%Z <->
            includes (toLowerCase p) (lit "readme.md") = false
            /\ (endsWith p (lit "json") || endsWith p (lit "toml")
                || endsWith p (lit "yml")) = false
            /\ startsWith p (lit "src/") = true)
        /\ (score p = 0%Z \/ score p = 1%Z \/ score p = 2%Z
            \/ score p = 3%Z)).
Proof.
  unfold priority_sort; split; [|split; [|split]].
  - apply sort_by_perm.
  - apply sort_by_sorted; intros; apply after_score.
  - intros s.
    apply (sort_by_stable (fun a b => (0 <? compare_nodes a b)%Z)
             (fun f => score (path f)) after_score).
  - apply score_classes.
Qed.

(** C2 as stated fails: [README.mdx] does not end in [readme.md], is no
    configuration file and is not under [src/], yet it is sorted before
    [src/x.ts]. *)
Lemma priority_sort_counterexample :
  ~ ordered_as_claimed
      (priority_sort [node_of (lit "src/x.ts"); node_of (lit "README.mdx")]).
Proof.
  intros H.
  specialize (H 1 0 (node_of (lit "src/x.ts")) (node_of (lit "README.mdx"))
                eq_refl eq_refl eq_refl).
  lia.
Qed.

(** C5 (as amended). The selected files never exceed the cap; the cap is
    200 in fetch-everything mode, which is larger than any other cap;
    otherwise it is 30 when the caller gave one or two extensions and 20
    for no extensions or three and more: narrowing the allow-list raises
    the cap. *)
Theorem file_count_cap (allowedExtensions : list jsstring)
  (options : FetchOptions) (nodes : list TreeNode) :
  length (filesToFetch allowedExtensions options nodes)
  <= limit allowedExtensions options
  /\ (fetchAll options = true -> limit allowedExtensions options = 200)
  /\ (fetchAll options = false -> limit allowedExtensions options < 200)
  /\ (fetchAll options = false -> 1 <= length allowedExtensions <= 2 ->
      limit allowedExtensions options = 30)
  /\ (fetchAll options = false ->
      length allowedExtensions = 0 \/ 3 <= length allowedExtensions ->
      limit allowedExtensions options = 20).
Proof.
  unfold filesToFetch, limit; repeat split.
  - apply firstn_le_length.
  - now intros ->.
  - intros ->.
    destruct ((0 <? length allowedExtensions)
              && (length allowedExtensions <? 3)); lia.
  - intros -> [H1 H2].
    destruct (0 <? length allowedExtensions) eqn:E1;
      destruct (length allowedExtensions <? 3) eqn:E2; try reflexivity;
      [apply Nat.ltb_ge in E2|apply Nat.ltb_ge in E1|apply Nat.ltb_ge in E1];
      lia.
  - intros -> H.
    destruct (0 <? length allowedExtensions) eqn:E1;
      destruct (length allowedExtensions <? 3) eqn:E2; try reflexivity.
    apply Nat.ltb_lt in E1, E2; lia.
Qed.

Lemma file_count_cap_witness :
  limit [lit ".ts"] default_options = 30
  /\ limit [] default_options = 20
  /\ limit [] (mkOptions true None None) = 200.
Proof.
  split; [|split].
  - apply (file_count_cap [lit ".ts"] default_options []);
      [reflexivity|simpl; lia].
  - apply (file_count_cap [] default_options []);
      [reflexivity|left; reflexivity].
  - apply (file_count_cap [] (mkOptions true None None) []); reflexivity.
Defined.

(** C5 as stated fails: with one extension the cap is 30, above the cap
    of 20 of the default extension set. *)
Lemma file_count_cap_counterexample : ~ cap_reduced_as_claimed.
Proof.
  intros H.
  specialize (H [lit ".ts"] [] default_options eq_refl).
  cbn in H; lia.
Qed.

(** *** The hard blocklist *)

Lemma isBlocked_of_blocklisted (p : jsstring) :
  blocklisted p -> isBlocked p = true.
Proof.
  unfold blocklisted, isBlocked.
  intros [H|[H|[H|[H|[H|[H|[H|[H|[H|H]]]]]]]]];
    try (destruct H as (a & b & -> & _);
         assert (E : forall q, includes (a ++ q ++ b) q = true)
           by (intros q; apply includes_iff; now exists a, b);
         rewrite E; repeat (rewrite ?orb_true_r; cbn [orb]); reflexivity);
    try (apply includes_iff in H; rewrite H;
         repeat (rewrite ?orb_true_r; cbn [orb]); reflexivity);
    try (apply endsWith_iff in H; rewrite H;
         repeat (rewrite ?orb_true_r; cbn [orb]); reflexivity).
Qed.

Lemma isBlocked_examples (p : jsstring) :
  In p blocked_examples -> isBlocked p = true.
Proof.
  intros [<-|[<-|[<-|[<-|[]]]]]; vm_compute; reflexivity.
Qed.

Lemma keep_node_blocked (allowedExtensions : list jsstring)
  (options : FetchOptions) (node : TreeNode) :
  isBlocked (path node) = true ->
  keep_node allowedExtensions options node = false.
Proof.
  intros H; unfold keep_node; rewrite H.
  destruct (type node); try reflexivity.
  now destruct (too_large options node).
Qed.

Lemma selected_kept (allowedExtensions : list jsstring)
  (options : FetchOptions) (nodes : list TreeNode) (node : TreeNode) :
  In node (filesToFetch allowedExtensions options nodes) ->
  In node nodes /\ keep_node allowedExtensions options node = true.
Proof.
  unfold filesToFetch, priority_sort; intros H.
  apply In_firstn in H.
  apply (Permutation_in _ (Permutation_sym (sort_by_perm _ _))) in H.
  now apply filter_In in H.
Qed.

(** C6. Under every extension allow-list, size threshold and setting of
    fetch-everything, a blob whose path contains [package-lock] or
    [yarn.lock], lies under [node_modules/], [dist/] or [build/],
    contains [.min.] or ends in [.png], [.jpg], [.ico] or [.svg] is
    rejected by the filter and is not among the selected files; so are
    [node_modules/anything.js], [yarn.lock], [app.min.js] and
    [logo.svg]. *)
Theorem hard_blocklist (allowedExtensions : list jsstring)
  (options : FetchOptions) (nodes : list TreeNode) (node : TreeNode) :
  blocklisted (path node) \/ In (path node) blocked_examples ->
  keep_node allowedExtensions options node = false
  /\ ~ In node (filesToFetch allowedExtensions options nodes).
Proof.
  intros H.
  assert (B : isBlocked (path node) = true).
  { destruct H; [now apply isBlocked_of_blocklisted
                |now apply isBlocked_examples]. }
  pose proof (keep_node_blocked allowedExtensions options node B) as K.
  split; [exact K|].
  intros Hin; apply selected_kept in Hin; destruct Hin as [_ Hin].
  congruence.
Qed.

Lemma hard_blocklist_witness :
  let node := mkNode (lit "lib/node_modules/x/index.js") blob None in
  let options := mkOptions true None (Some 1%Z) in
  blocklisted (path node)
  /\ keep_node [lit ".js"] options node = false
  /\ ~ In node (filesToFetch [lit ".js"] options [node]).
Proof.
  intros node options.
  assert (B : blocklisted (path node)).
  { right; right; left.
    exists (lit "lib/"), (lit "x/index.js"); split; [reflexivity|].
    right; exists (lit "lib"); reflexivity. }
  split; [exact B|].
  apply (hard_blocklist [lit ".js"] options [node] node); left; exact B.
Defined.

(** *** The URL parser *)

Lemma str_eqb_eq (a b : jsstring) : str_eqb a b = true <-> a = b.
Proof.
  revert b; induction a as [|x a IH]; intros [|y b]; simpl;
    try (split; [discriminate|discriminate]); [tauto|].
  rewrite andb_true_iff, char_eqb_eq, IH.
  split; [intros [-> ->]; reflexivity|intros H; now inversion H].
Qed.

Lemma split_on_last (cur a : jsstring) :
  no_slash a = true -> split_on slash cur a = [rev cur ++ a].
Proof.
  revert cur; induction a as [|c a IH]; intros cur H; simpl.
  - now rewrite app_nil_r.
  - simpl in H; apply andb_true_iff in H; destruct H as [Hc Ha].
    apply negb_true_iff in Hc; rewrite Hc, IH by assumption.
    simpl; now rewrite <- app_assoc.
Qed.

Lemma split_on_segment (cur a rest : jsstring) :
  no_slash a = true ->
  split_on slash cur (a ++ slash :: rest)
  = (rev cur ++ a) :: split_on slash [] rest.
Proof.
  revert cur; induction a as [|c a IH]; intros cur H; simpl.
  - now rewrite app_nil_r.
  - simpl in H; apply andb_true_iff in H; destruct H as [Hc Ha].
    apply negb_true_iff in Hc; rewrite Hc, IH by assumption.
    simpl; now rewrite <- app_assoc.
Qed.

Lemma path_parts (owner seg trailing : jsstring) :
  owner <> [] -> seg <> [] ->
  no_slash owner = true -> no_slash seg = true ->
  trailing = [] \/ (exists t, trailing = slash :: t) ->
  exists more,
    filter truthy (split ([slash] ++ owner ++ [slash] ++ seg ++ trailing)
                     slash)
    = owner :: seg :: more.
Proof.
  intros Ho Hs Hno Hns Ht; unfold split.
  change ([slash] ++ owner ++ [slash] ++ seg ++ trailing)
    with ([] ++ slash :: (owner ++ slash :: (seg ++ trailing))).
  rewrite split_on_segment by reflexivity.
  rewrite split_on_segment by assumption.
  cbn [rev app filter truthy].
  destruct owner as [|o owner]; [congruence|].
  destruct Ht as [->|[t ->]].
  - rewrite app_nil_r, split_on_last by assumption.
    destruct seg as [|x seg]; [congruence|].
    exists []; reflexivity.
  - rewrite split_on_segment by assumption.
    destruct seg as [|x seg]; [congruence|].
    eexists; reflexivity.
Qed.

Lemma strip_git_suffix (r : jsstring) : strip_git (r ++ lit ".git") = r.
Proof.
  unfold strip_git.
  assert (E : endsWith (r ++ lit ".git") (lit ".git") = true)
    by (apply endsWith_iff; now exists r).
  rewrite E, length_app.
  change (length (lit ".git")) with 4.
  replace (length r + 4 - 4) with (length r + 0) by lia.
  now rewrite firstn_app_2, app_nil_r.
Qed.

Lemma no_slash_app (a b : jsstring) :
  no_slash a = true -> no_slash b = true -> no_slash (a ++ b) = true.
Proof.
  unfold no_slash; intros Ha Hb; rewrite forallb_app; now rewrite Ha, Hb.
Qed.

(** C7. When the URL parses, the host is [github.com] and the path is
    [/owner/repo] or [/owner/repo.git], with or without further segments,
    [parseGithubUrl] returns the owner and the repository name without
    the [.git] suffix; when the host is another one, when the path has
    fewer than two non-empty segments, or when the URL does not parse, it
    returns [null]. *)
Theorem parseGithubUrl_contract (URL_new : jsstring -> option URL)
  (url : jsstring) :
  (forall u owner r trailing,
      URL_new url = Some u -> hostname u = lit "github.com" ->
      owner <> [] -> r <> [] ->
      no_slash owner = true -> no_slash r = true ->
      trailing = [] \/ (exists t, trailing = slash :: t) ->
      (pathname u
       = [slash] ++ owner ++ [slash] ++ (r ++ lit ".git") ++ trailing ->
       parseGithubUrl URL_new url = Some (mkRepoInfo owner r))
      /\ (pathname u = [slash] ++ owner ++ [slash] ++ r ++ trailing ->
          endsWith r (lit ".git") = false ->
          parseGithubUrl URL_new url = Some (mkRepoInfo owner r)))
  /\ (forall u, URL_new url = Some u -> hostname u <> lit "github.com" ->
      parseGithubUrl URL_new url = None)
  /\ (forall u, URL_new url = Some u ->
      length (filter truthy (split (pathname u) slash)) < 2 ->
      parseGithubUrl URL_new url = None)
  /\ (URL_new url = None -> parseGithubUrl URL_new url = None).
Proof.
  unfold parseGithubUrl; split; [|split; [|split]].
  - intros u owner r trailing Hu Hh Ho Hr Hno Hnr Ht.
    rewrite Hu, Hh.
    assert (E : str_eqb (lit "github.com") (lit "github.com") = true)
      by reflexivity.
    rewrite E; cbn [negb]; split.
    + intros Hp; rewrite Hp.
      assert (Hg : r ++ lit ".git" <> []) by (destruct r; discriminate).
      assert (Hng : no_slash (r ++ lit ".git") = true)
        by (apply no_slash_app; [assumption|reflexivity]).
      destruct (path_parts Ho Hg Hno Hng Ht) as [more Hm].
      change slash with 47%N in *; rewrite Hm.
      now rewrite strip_git_suffix.
    + intros Hp Hg; rewrite Hp.
      destruct (path_parts Ho Hr Hno Hnr Ht) as [more Hm].
      change slash with 47%N in *; rewrite Hm.
      unfold strip_git; now rewrite Hg.
  - intros u Hu Hh; rewrite Hu.
    destruct (str_eqb (hostname u) (lit "github.com")) eqn:E;
      [|reflexivity].
    apply str_eqb_eq in E; congruence.
  - intros u Hu Hl; rewrite Hu.
    destruct (negb (str_eqb (hostname u) (lit "github.com")));
      [reflexivity|].
    change slash with 47%N in *.
    destruct (filter truthy (split (pathname u) 47%N)) as [|a [|b l]];
      try reflexivity.
    simpl in Hl; lia.
  - now intros ->.
Qed.

Lemma parseGithubUrl_contract_witness :
  parseGithubUrl sample_URL_new sample_url
  = Some (mkRepoInfo (lit "octo") (lit "demo")).
Proof.
  destruct (parseGithubUrl_contract sample_URL_new sample_url) as [H _].
  assert (Ho : lit "octo" <> []) by discriminate.
  assert (Hr : lit "demo" <> []) by discriminate.
  destruct (H (mkURL (lit "github.com") (lit "/octo/demo.git"))
              (lit "octo") (lit "demo") [] eq_refl eq_refl Ho Hr
              eq_refl eq_refl (or_introl eq_refl)) as [H1 _].
  apply H1; reflexivity.
Defined.

End TreeFacts.

(* ===================================================================== *)
(** ** The fetch session: errors and downloads *)
(* ===================================================================== *)

Module FetchFacts.
Import Str Arr Rag Github Spec StrFacts ChunkerFacts SortFacts.

(** *** Errors of the metadata and tree lookups *)

Lemma not_ok_of_status {B} (res : Response B) (code : Z) :
  status res = code -> (code < 200 \/ 299 < code)%Z -> ok res = false.
Proof.
  intros H Hc; unfold ok; rewrite H.
  destruct (200 <=? code)%Z eqn:E1; destruct (code <=? 299)%Z eqn:E2;
    try reflexivity.
  apply Z.leb_le in E1, E2; lia.
Qed.

(** The errors of the two lookups as the code has them: a 404 from the
    metadata lookup fails with [RepoNotFound], a 403 from it with
    [RateLimited], any other non-2xx metadata response with an [ApiError]
    that carries the status text and the status; a 404 from the tree
    lookup fails with [BranchNotFound] for the resolved branch, whose
    message differs from that of [RepoNotFound]; any other non-2xx tree
    response fails with the error "Failed to retrieve file structure." *)
Lemma lookup_errors
  (URL_new : jsstring -> option URL)
  (fetch_repo : jsstring -> FetchOutcome RepoData)
  (fetch_tree : jsstring -> FetchOutcome TreeData)
  (fetch_raw : jsstring -> FetchOutcome jsstring)
  (latency : nat -> nat)
  (url : jsstring) (allowedExtensions : list jsstring)
  (signal : option (nat -> bool)) (options : FetchOptions)
  (repoInfo : RepoInfo) (repoRes : Response RepoData) :
  parseGithubUrl URL_new url = Some repoInfo ->
  fetch_repo (api_repo_url repoInfo) = Resolved repoRes ->
  let out :=
    snd (fetchGithubRepoContents URL_new fetch_repo fetch_tree fetch_raw latency
           url allowedExtensions signal options) in
  let br :=
    or_else (branch options)
      (or_else (default_branch (body repoRes)) (lit "main")) in
  (status repoRes = 404%Z -> out = inl RepoNotFound)
  /\ (status repoRes = 403%Z -> out = inl RateLimited)
  /\ (ok repoRes = false -> status repoRes <> 404%Z ->
      status repoRes <> 403%Z ->
      out = inl (ApiError (statusText repoRes) (status repoRes)))
  /\ (ok repoRes = true ->
      forall treeRes,
        fetch_tree (api_tree_url repoInfo br) = Resolved treeRes ->
        (status treeRes = 404%Z -> out = inl (BranchNotFound br))
        /\ (ok treeRes = false -> status treeRes <> 404%Z ->
            out = inl TreeFailed))
  /\ (forall b, message (BranchNotFound b) <> message RepoNotFound).
Proof.
  intros Hp Hr out br; subst out; unfold fetchGithubRepoContents.
  rewrite Hp, Hr; split; [|split; [|split; [|split]]].
  - intros H; rewrite (not_ok_of_status repoRes H) by lia.
    cbn [negb]; rewrite H; reflexivity.
  - intros H; rewrite (not_ok_of_status repoRes H) by lia.
    cbn [negb]; rewrite H; reflexivity.
  - intros Hok H1 H2; rewrite Hok; cbn [negb].
    apply Z.eqb_neq in H1, H2; rewrite H1, H2; reflexivity.
  - intros Hok treeRes Ht; rewrite Hok; cbn [negb].
    fold br; rewrite Ht; split.
    + intros H; rewrite (not_ok_of_status treeRes H) by lia.
      cbn [negb]; rewrite H; reflexivity.
    + intros Hno H; rewrite Hno; cbn [negb].
      apply Z.eqb_neq in H; rewrite H; reflexivity.
  - intros b H; cbn in H; discriminate.
Qed.

Lemma lookup_errors_branch :
  snd (fetchGithubRepoContents sample_URL_new
         (fun _ => OK sample_data)
         (fun _ => answer 404%Z (lit "Not Found") empty_tree)
         (fun _ => RejectedOther) (fun _ => 0) sample_url [] None
         (mkOptions false (Some (lit "feature-x")) None))
  = inl (BranchNotFound (lit "feature-x")).
Proof.
  assert (P : parseGithubUrl sample_URL_new sample_url
              = Some (mkRepoInfo (lit "octo") (lit "demo")))
    by reflexivity.
  destruct (lookup_errors sample_URL_new
              (fun _ => OK sample_data)
              (fun _ => answer 404%Z (lit "Not Found") empty_tree)
              (fun _ => RejectedOther) (fun _ => 0) sample_url [] None
              (mkOptions false (Some (lit "feature-x")) None)
              P eq_refl) as (_ & _ & _ & H & _).
  destruct (H eq_refl _ eq_refl) as [H404 _].
  apply H404; reflexivity.
Defined.

(** C4. The claim holds for the metadata lookup and for a 404 from the
    tree lookup, but a 403 from the tree lookup is not reported as the
    rate-limit error that the metadata lookup raises for the same
    status: with the metadata lookup answering 200 and the tree lookup
    answering 403, the operation fails with the error "Failed to retrieve
    file structure.", whose message is not that of [RateLimited]. *)
Theorem tree_lookup_403 :
  snd (fetchGithubRepoContents sample_URL_new
         (fun _ => OK sample_data)
         (fun _ => answer 403%Z (lit "Forbidden") empty_tree)
         (fun _ => RejectedOther) (fun _ => 0) sample_url [] None
         default_options)
  = inl TreeFailed
  /\ snd (fetchGithubRepoContents sample_URL_new
            (fun _ => answer 403%Z (lit "Forbidden") sample_data)
            (fun _ => OK empty_tree)
            (fun _ => RejectedOther) (fun _ => 0) sample_url [] None
            default_options)
     = inl RateLimited
  /\ message TreeFailed <> message RateLimited.
Proof.
  split; [reflexivity|]. split; [reflexivity|].
  vm_compute; discriminate.
Qed.

Lemma tree_403_not_as_claimed : ~ tree_403_as_claimed.
Proof.
  intros H.
  specialize (H sample_URL_new (fun _ => OK sample_data)
                (fun _ => answer 403%Z (lit "Forbidden") empty_tree)
                (fun _ => RejectedOther) (fun _ => 0) sample_url [] None
                default_options
                (mkRepoInfo (lit "octo") (lit "demo"))
                (mkResponse 200%Z (lit "OK") sample_data)
                (mkResponse 403%Z (lit "Forbidden") empty_tree)
                eq_refl eq_refl eq_refl eq_refl eq_refl).
  vm_compute in H; discriminate.
Qed.

(** *** The batched downloader *)

Section Download.

Variable fetch_raw : jsstring -> FetchOutcome jsstring.
Variable latency : nat -> nat.
Variable signal : option (nat -> bool).
Variable options : FetchOptions.
Variable info : RepoInfo.
Variable br : jsstring.

Local Abbreviation good := (succeeded fetch_raw info br).
Local Abbreviation bad := (http_failed fetch_raw info br).
Local Abbreviation rec_of := (record_of fetch_raw options info br).

Lemma download_file_spec (total k : nat) (st : DlState) (file : TreeNode) :
  aborted signal k = false ->
  let out := download_file fetch_raw signal options info br total k st file in
  results (fst out) = results st
  /\ incl (events st) (events (fst out))
  /\ snd out = (if good file then Some (rec_of file) else None)
  /\ (bad file = true -> In (error_update file) (events (fst out))).
Proof.
  intros Hab; unfold download_file, succeeded, http_failed, record_of;
    rewrite Hab.
  destruct (fetch_raw (rawUrl info br (path file))) as [res| |].
  - destruct (ok res); cbn [negb fst snd emit results events].
    + repeat split; try discriminate.
      intros e He; apply in_or_app; left; apply in_or_app; now left.
    + repeat split.
      * intros e He; apply in_or_app; now left.
      * intros _; apply in_or_app; right; now left.
  - cbn [fst snd]; repeat split; try discriminate; apply incl_refl.
  - cbn [fst snd emit results events]; repeat split; try discriminate.
    intros e He; apply in_or_app; now left.
Qed.

(** The callbacks of a batch resume in an order that rearranges the
    batch. *)
Lemma settle_order_perm (i : nat) (batch : list TreeNode) :
  Permutation (settle_order latency i batch) batch.
Proof.
  unfold settle_order.
  destruct (combine_seq_fst batch i) as (_ & H & _).
  transitivity (map snd (combine (seq i (length batch)) batch));
    [|now rewrite H].
  apply Permutation_map, Permutation_sym, sort_by_perm.
Qed.

Lemma settle_fold_spec (total k : nat) (order : list TreeNode) :
  aborted signal k = false ->
  forall st,
    let st' :=
      fold_left
        (fun s file =>
           fst (download_file fetch_raw signal options info br total k s
                  file)) order st in
    results st' = results st
    /\ incl (events st) (events st')
    /\ (forall f, In f order -> bad f = true ->
        In (error_update f) (events st')).
Proof.
  intros Hab; induction order as [|file order IH]; intros st.
  - cbn; repeat split; [apply incl_refl|contradiction].
  - cbn [fold_left].
    pose proof (@download_file_spec total k st file Hab) as F.
    cbv zeta in F; destruct F as (F1 & F2 & _ & F4).
    specialize (IH (fst (download_file fetch_raw signal options info br
                           total k st file))).
    cbv zeta in IH; destruct IH as (I1 & I2 & I4).
    repeat split.
    + congruence.
    + eapply incl_tran; eassumption.
    + intros f [<-|Hf] Hb; [apply I2; now apply F4|now apply I4].
Qed.

Lemma batch_values (total k : nat) (st : DlState) (batch : list TreeNode) :
  aborted signal k = false ->
  flat_map
    (fun file =>
       match snd (download_file fetch_raw signal options info br total k st
                    file) with
       | Some x => [x]
       | None => []
       end) batch
  = map rec_of (filter good batch).
Proof.
  intros Hab; induction batch as [|file batch IH]; [reflexivity|].
  cbn [flat_map filter]; rewrite IH.
  pose proof (@download_file_spec total k st file Hab) as F.
  cbv zeta in F; destruct F as (_ & _ & F3 & _); rewrite F3.
  destruct (good file); reflexivity.
Qed.

Lemma download_batch_spec (total k i : nat) (batch : list TreeNode) :
  aborted signal k = false ->
  forall st,
    let out := download_batch fetch_raw latency signal options info br
                 total k i st batch in
    results (fst out) = results st
    /\ incl (events st) (events (fst out))
    /\ snd out = map rec_of (filter good batch)
    /\ (forall f, In f batch -> bad f = true ->
        In (error_update f) (events (fst out))).
Proof.
  intros Hab st; unfold download_batch; cbn [fst snd].
  destruct (@settle_fold_spec total k (settle_order latency i batch) Hab st)
    as (S1 & S2 & S3).
  split; [exact S1|]. split; [exact S2|].
  split; [now apply batch_values|].
  intros f Hf Hb; apply S3; [|exact Hb].
  apply (Permutation_in _ (Permutation_sym (settle_order_perm i batch))).
  exact Hf.
Qed.

Lemma firstn_add {A} (a b : nat) (l : list A) :
  firstn (a + b) l = firstn a l ++ firstn b (skipn a l).
Proof.
  revert l; induction a as [|a IH]; intros [|x l]; cbn;
    try reflexivity; [now rewrite firstn_nil|now rewrite IH].
Qed.

(** The loop from batch [j] on: it stops after some batch [k], having
    attempted the files of the batches [j] to [k - 1]. *)
Lemma download_loop_spec (files : list TreeNode) (fuel : nat) :
  forall j st,
    length (skipn (j * batchSize) files) <= fuel * batchSize ->
    exists k st',
      download_loop fetch_raw latency signal options info br fuel files
        (j * batchSize) st = (st', k)
      /\ j <= k
      /\ (forall m, j <= m < k -> aborted signal m = false)
      /\ (length files <= k * batchSize \/ aborted signal k = true)
      /\ results st'
         = results st
           ++ map rec_of
                (filter good
                   (firstn ((k - j) * batchSize)
                      (skipn (j * batchSize) files)))
      /\ incl (events st) (events st')
      /\ (forall f,
            In f (firstn ((k - j) * batchSize)
                    (skipn (j * batchSize) files)) ->
            bad f = true -> In (error_update f) (events st')).
Proof.
  assert (D : forall j, j * batchSize / batchSize = j)
    by (intros j; now apply Nat.div_mul).
  induction fuel as [|fuel IH]; intros j st Hlen.
  - exists j, st; cbn [download_loop]; rewrite D, Nat.sub_diag.
    rewrite length_skipn in Hlen.
    split; [reflexivity|]. split; [lia|]. split; [intros m Hm; lia|].
    split; [left; lia|].
    split; [cbn; now rewrite app_nil_r|].
    split; [apply incl_refl|intros f []].
  - cbn [download_loop]; rewrite D.
    destruct (j * batchSize <? length files) eqn:Ei.
    + destruct (aborted signal j) eqn:Hab.
      * exists j, st; rewrite Nat.sub_diag.
        split; [reflexivity|]. split; [lia|]. split; [intros m Hm; lia|].
        split; [now right|].
        split; [cbn; now rewrite app_nil_r|].
        split; [apply incl_refl|intros f []].
      * set (rest := skipn (j * batchSize) files) in *.
        pose proof (@download_batch_spec (length files) j (j * batchSize)
                      (firstn batchSize rest) Hab st) as B.
        destruct (download_batch fetch_raw latency signal options info br
                    (length files) j (j * batchSize) st
                    (firstn batchSize rest))
          as [st1 rs].
        cbn [fst snd] in B; destruct B as (B1 & B2 & B3 & B4).
        assert (Hnext : skipn (S j * batchSize) files
                        = skipn batchSize rest).
        { unfold rest; rewrite skipn_skipn; f_equal; cbn [Nat.mul]; lia. }
        destruct (IH (S j)
                    (mkDl (loadedCount st1) (results st1 ++ rs) (events st1)))
          as (k & st' & L1 & L2 & L3 & L4 & L5 & L6 & L7).
        { rewrite Hnext, length_skipn; cbn [Nat.mul] in Hlen; lia. }
        assert (Hsplit : firstn ((k - j) * batchSize) rest
                         = firstn batchSize rest
                           ++ firstn ((k - S j) * batchSize)
                                (skipn batchSize rest)).
        { rewrite <- firstn_add; f_equal; unfold batchSize; lia. }
        exists k, st'.
        replace (j * batchSize + batchSize) with (S j * batchSize)
          by (cbn [Nat.mul]; lia).
        split; [exact L1|]. split; [lia|]. split.
        { intros m Hm; destruct (Nat.eq_dec m j) as [->|Hne];
            [exact Hab|apply L3; lia]. }
        split; [exact L4|]. split.
        { rewrite L5, Hnext, Hsplit; cbn [results].
          rewrite filter_app, map_app, B1, B3, app_assoc; reflexivity. }
        split; [eapply incl_tran; [exact B2|exact L6]|].
        intros f Hf Hb; rewrite Hsplit in Hf.
        apply in_app_or in Hf; destruct Hf as [Hf|Hf].
        -- apply L6; cbn [events]; now apply B4.
        -- apply L7; [now rewrite Hnext|exact Hb].
    + exists j, st; rewrite Nat.sub_diag.
      apply Nat.ltb_ge in Ei.
      split; [reflexivity|]. split; [lia|]. split; [intros m Hm; lia|].
      split; [now left|]. split; [cbn; now rewrite app_nil_r|].
      split; [apply incl_refl|intros f []].
Qed.

End Download.

(** C3. For every selected file list, a file whose fetch answers with a
    non-2xx response gets an [error] status update and the batches go on;
    with [k] the number of batches that ran (all batches, or those before
    the signal was seen aborted), the downloader throws [DownloadFailed]
    exactly when none of the files of these batches succeeded and the
    signal is not aborted at the final check; in every other case it
    returns the header followed by the records of the files that
    succeeded, in order.  In the scenario of eight files whose last three
    answer 500, the result is a corpus of five records, with three
    [error] updates. *)
Theorem download_partial_success :
  (forall (fetch_raw : jsstring -> FetchOutcome jsstring)
          (latency : nat -> nat)
          (signal : option (nat -> bool)) (options : FetchOptions)
          (info : RepoInfo) (br : jsstring) (repoData : RepoData)
          (files : list TreeNode) (evs : list Event),
      let out :=
        download fetch_raw latency signal options info br repoData files
          evs in
      exists k,
        let attempted := firstn (k * batchSize) files in
        (forall m, m < k -> aborted signal m = false)
        /\ (length files <= k * batchSize \/ aborted signal k = true)
        /\ (snd out = inl DownloadFailed <->
            filter (succeeded fetch_raw info br) attempted = []
            /\ aborted signal k = false)
        /\ (snd out = inl DownloadFailed
            \/ snd out
               = inr (mkResult
                        (header info br repoData
                         ++ join (map (record_of fetch_raw options info br)
                                    (filter (succeeded fetch_raw info br)
                                       attempted)))
                        (mkDetails (owner info) (repo info) br)))
        /\ (forall f, In f attempted ->
            http_failed fetch_raw info br f = true ->
            In (error_update f) (fst out)))
  /\ (exists res,
        snd scenario = inr res
        /\ length (chunkCode (r_content res)) = 5
        /\ length (filter is_error_update (fst scenario)) = 3).
Proof.
  split.
  - intros fetch_raw latency signal options info br repoData files evs out.
    subst out; unfold download.
    set (st0 := mkDl 0 [] _).
    destruct (@download_loop_spec fetch_raw latency signal options info br
                files (S (length files)) 0 st0)
      as (k & st' & L1 & L2 & L3 & L4 & L5 & L6 & L7).
    { cbn [Nat.mul skipn]; unfold batchSize; lia. }
    cbn [Nat.mul skipn] in L1, L5, L7; rewrite Nat.sub_0_r in L5, L7.
    rewrite L1; cbn [results st0 app] in L5.
    exists k; cbv zeta.
    split; [intros m Hm; apply L3; lia|]. split; [exact L4|].
    assert (Z0 : (length (results st') =? 0) = true
                 <-> filter (succeeded fetch_raw info br)
                       (firstn (k * batchSize) files) = []).
    { rewrite L5, length_map, Nat.eqb_eq; split.
      - now intros H; apply length_zero_iff_nil.
      - now intros ->. }
    destruct ((length (results st') =? 0) && negb (aborted signal k)) eqn:C.
    + apply andb_true_iff in C; destruct C as [C1 C2].
      apply negb_true_iff in C2; apply Z0 in C1.
      cbn [fst snd]; split; [tauto|]. split; [now left|].
      intros f Hf Hb; now apply L7.
    + cbn [fst snd]; split; [|split].
      * split; [discriminate|].
        intros [H1 H2]; apply Z0 in H1.
        rewrite H1, H2 in C; discriminate.
      * right; now rewrite L5.
      * intros f Hf Hb; apply in_or_app; left; now apply L7.
  - vm_compute; eexists; repeat split.
Qed.

(** Cancelling after the first of three batches: the corpus holds the
    five files of the first batch, and no error is raised. *)
Lemma cancel_after_first_batch :
  exists res,
    snd cancelled_scenario = inr res
    /\ map fileName (chunkCode (r_content res))
       = [lit "f1.ts"; lit "f2.ts"; lit "f3.ts"; lit "f4.ts"; lit "f5.ts"]
    /\ filter is_error_update (fst cancelled_scenario) = [].
Proof. vm_compute; eexists; repeat split. Qed.

End FetchFacts.

(* ===================================================================== *)
(** ** The embedding indexer and the similarity search *)
(* ===================================================================== *)

Module IndexFacts.
Import Str Arr Rag Spec StrFacts SortFacts ChunkerFacts.

(** *** The chunker attaches no embedding *)

Lemma bare_parts (name : jsstring) (parts : list (nat * jsstring)) :
  forall st, Forall bare (snd st) ->
             Forall bare (snd (fold_left (push_part name) parts st)).
Proof.
  induction parts as [|[i sc] parts IH]; intros [idx chunks] H;
    [exact H|].
  cbn [fold_left push_part]; apply IH; cbn [snd] in *.
  apply Forall_app; split; [exact H|repeat constructor].
Qed.

Lemma bare_loop (fuel : nat) :
  forall s st, Forall bare (snd st) ->
               Forall bare (snd (chunk_loop fuel s st)).
Proof.
  induction fuel as [|fuel IH]; intros s st H; cbn [chunk_loop];
    [exact H|].
  destruct (regex_exec s) as [[[name body] rest]|]; [|exact H].
  apply IH; unfold push_file.
  destruct (2000 <? length body); [now apply bare_parts|].
  destruct st as [idx chunks]; cbn [snd] in *.
  apply Forall_app; split; [exact H|repeat constructor].
Qed.

Lemma chunkCode_bare (s : jsstring) : Forall bare (chunkCode s).
Proof. apply bare_loop; constructor. Qed.

(** *** The indexer *)

Section Indexer.

Variable generateEmbedding : nat -> jsstring -> option (list float).

Lemma index_fold (total : nat) (chunks : list CodeChunk) :
  Forall bare chunks ->
  forall st,
    fold_left (index_step generateEmbedding total)
      (combine (seq (length (requests st)) (length chunks)) chunks) st
    = mkIndex
        (indexedChunks st
         ++ map (embed_at generateEmbedding)
              (combine (seq (length (requests st)) (length chunks)) chunks))
        (progress st
         ++ map (fun i => (i + 1, total))
              (seq (length (requests st)) (length chunks)))
        (requests st ++ map content chunks).
Proof.
  induction 1 as [|c chunks Hc Hb IH]; intros st.
  - cbn; rewrite !app_nil_r; now destruct st.
  - cbn [length seq combine fold_left map].
    set (st1 := index_step generateEmbedding total st
                  (length (requests st), c)).
    assert (R : requests st1 = requests st ++ [content c]).
    { unfold st1, index_step.
      destruct (generateEmbedding (length (requests st)) (content c));
        reflexivity. }
    assert (L : length (requests st1) = S (length (requests st))).
    { rewrite R, length_app; simpl; lia. }
    rewrite <- L, IH, R, <- !app_assoc; cbn [app].
    unfold st1, index_step, embed_at; cbn [fst snd].
    destruct c as [i f t e]; unfold bare in Hc; cbn in Hc; subst e.
    cbn [content id fileName].
    destruct (generateEmbedding (length (requests st)) t);
      cbn [indexedChunks progress]; rewrite <- !app_assoc; reflexivity.
Qed.

End Indexer.

Lemma indexCodebase_closed_form
  (generateEmbedding : nat -> jsstring -> option (list float))
  (codeContext : jsstring) :
  indexCodebase generateEmbedding codeContext
  = mkIndex
      (map (embed_at generateEmbedding)
         (combine (seq 0 (length (chunkCode codeContext)))
            (chunkCode codeContext)))
      (map (fun i => (i + 1, length (chunkCode codeContext)))
         (seq 0 (length (chunkCode codeContext))))
      (map content (chunkCode codeContext)).
Proof.
  unfold indexCodebase.
  apply (index_fold generateEmbedding (length (chunkCode codeContext))
           (chunkCode_bare codeContext) (mkIndex [] [] [])).
Qed.

(** *** Long bodies are split *)

Lemma chunk_loop_matches (fuel : nat) :
  forall s st,
    chunk_loop fuel s st
    = fold_left (fun st f => push_file st (fst f) (snd f)) (matches fuel s)
        st.
Proof.
  induction fuel as [|fuel IH]; intros s st; cbn [chunk_loop matches];
    [reflexivity|].
  destruct (regex_exec s) as [[[name body] rest]|]; [|reflexivity].
  cbn [fold_left fst snd]; apply IH.
Qed.

Lemma long_body_pieces (body : jsstring) :
  2000 < length body -> 2 <= length (match_all 2000 body).
Proof.
  intros H; unfold match_all.
  destruct body as [|c body]; [cbn in H; lia|].
  cbn [length pieces].
  assert (R : 0 < length (skipn 2000 (c :: body)))
    by (rewrite length_skipn; cbn [length] in *; lia).
  destruct (skipn 2000 (c :: body)) as [|d rest]; [cbn in R; lia|].
  destruct (length body) as [|n] eqn:E; [cbn [length] in H; lia|].
  cbn [pieces length]; lia.
Qed.

Lemma file_group_split (idx : nat) (f : jsstring * jsstring) :
  split_when_long f (file_group idx (fst f) (snd f)).
Proof.
  split; [apply file_group_recovered|].
  intros H; unfold file_group.
  apply Nat.ltb_lt in H; rewrite H; apply Nat.ltb_lt in H.
  destruct (number_parts_names (fst f)
              (combine (seq 0 (length (match_all 2000 (snd f))))
                 (match_all 2000 (snd f))) idx) as (_ & _ & L).
  destruct (combine_seq_fst (match_all 2000 (snd f)) 0) as (_ & _ & L').
  rewrite L, L'; now apply long_body_pieces.
Qed.

Lemma file_groups_split (files : list (jsstring * jsstring)) :
  forall idx, Forall2 split_when_long files (file_groups idx files).
Proof.
  induction files as [|f files IH]; intros idx; cbn; constructor.
  - apply file_group_split.
  - apply IH.
Qed.

(** C10. For every input string, every chunk produced by [chunkCode] has
    a content of at most 2000 characters, the ids of the chunks are
    pairwise distinct, and every text that [indexCodebase] sends to the
    embedding service has at most 2000 characters; the chunks are, file
    body after file body, the chunks of each body that the loop finds in
    the input: a body of at most 2000 characters as one chunk under the
    file name, and a longer body always split into at least two
    sub-chunks, labelled with the file name and the part number, whose
    contents rejoin to the body. *)
Theorem chunk_size_invariant
  (generateEmbedding : nat -> jsstring -> option (list float))
  (fullCodeContext : jsstring) :
  Forall (fun c => length (content c) <= 2000) (chunkCode fullCodeContext)
  /\ NoDup (map id (chunkCode fullCodeContext))
  /\ Forall (fun text => length text <= 2000)
       (requests (indexCodebase generateEmbedding fullCodeContext))
  /\ exists groups,
       chunkCode fullCodeContext = concat groups
       /\ Forall2
            (fun f g =>
               (if length (snd f) <=? 2000 then pairs g = [f]
                else map fileName g
                     = map (part_name (fst f)) (seq 0 (length g))
                     /\ concat (map content g) = snd f)
               /\ (2000 < length (snd f) -> 2 <= length g))
            (file_bodies fullCodeContext) groups.
Proof.
  destruct (chunkCode_short_distinct fullCodeContext) as [H1 H2].
  split; [exact H1|]. split; [exact H2|]. split.
  - rewrite indexCodebase_closed_form; cbn [requests].
    apply Forall_map; exact H1.
  - exists (file_groups 0 (file_bodies fullCodeContext)); split.
    + unfold chunkCode, file_bodies.
      rewrite chunk_loop_matches, push_files_groups; reflexivity.
    + apply file_groups_split.
Qed.

(** C9. For every corpus string, [indexCodebase] returns one entry per
    chunk of [chunkCode], in the same order and with the same id, file
    name and content; the entry of the [i]-th chunk carries the vector of
    the [i]-th request when that request succeeded and no embedding when
    it failed; every chunk is requested, whatever the earlier requests
    gave, and progress is reported as [(i + 1, total)] for each chunk. *)
Theorem indexCodebase_tolerant
  (generateEmbedding : nat -> jsstring -> option (list float))
  (codeContext : jsstring) :
  let chunks := chunkCode codeContext in
  let st := indexCodebase generateEmbedding codeContext in
  indexedChunks st
  = map (embed_at generateEmbedding) (combine (seq 0 (length chunks)) chunks)
  /\ length (indexedChunks st) = length chunks
  /\ map id (indexedChunks st) = map id chunks
  /\ map fileName (indexedChunks st) = map fileName chunks
  /\ map content (indexedChunks st) = map content chunks
  /\ map embedding (indexedChunks st)
     = map (fun ic => generateEmbedding (fst ic) (content (snd ic)))
         (combine (seq 0 (length chunks)) chunks)
  /\ requests st = map content chunks
  /\ progress st
     = map (fun i => (i + 1, length chunks)) (seq 0 (length chunks)).
Proof.
  intros chunks st; subst st chunks.
  rewrite indexCodebase_closed_form; cbn [indexedChunks progress requests].
  assert (G : forall (B : Type) (g : CodeChunk -> B) (l : list CodeChunk) k,
             map (fun ic => g (snd ic)) (combine (seq k (length l)) l)
             = map g l).
  { intros B g l; induction l as [|c l IH]; intros k; cbn;
      [reflexivity|now rewrite IH]. }
  repeat split.
  - rewrite length_map, length_combine, length_seq; apply Nat.min_id.
  - rewrite map_map; apply (G _ id).
  - rewrite map_map; apply (G _ fileName).
  - rewrite map_map; apply (G _ content).
  - rewrite map_map; reflexivity.
Qed.

(** *** Cosine similarity *)

Lemma cosine_shift (x y : float) (a b : list float) (l : list nat) :
  forall acc,
    fold_left (cosine_step (x :: a) (y :: b)) (map S l) acc
    = fold_left (cosine_step a b) l acc.
Proof.
  induction l as [|i l IH]; intros acc; [reflexivity|].
  cbn [map fold_left]; rewrite IH.
  destruct acc as [[d ma] mb]; reflexivity.
Qed.

Lemma cosine_fold (a : list float) :
  forall b d ma mb,
    length a = length b ->
    fold_left (cosine_step a b) (seq 0 (length a)) (d, ma, mb)
    = (fold_left (fun acc xy => (acc + fst xy * snd xy)%float)
         (combine a b) d,
       fold_left (fun acc x => (acc + x * x)%float) a ma,
       fold_left (fun acc x => (acc + x * x)%float) b mb).
Proof.
  induction a as [|x a IH]; intros [|y b] d ma mb H; try discriminate;
    [reflexivity|].
  cbn [length seq fold_left combine].
  rewrite <- seq_shift, cosine_shift.
  cbn [cosine_step at_index nth fst snd].
  apply IH; simpl in H; lia.
Qed.

Lemma cosine_formula (a b : list float) :
  length a = length b ->
  cosineSimilarity a b = (dot a b / (norm a * norm b))%float.
Proof.
  intros H; unfold cosineSimilarity, dot, norm, sum_squares.
  now rewrite cosine_fold.
Qed.

(** *** Sorting by score *)

Lemma insert_score_hd (x y : ScoredChunk) (t : list ScoredChunk) :
  score_ge y x -> HdRel score_ge y t ->
  HdRel score_ge y (insert_by score_after x t).
Proof.
  intros Hx Ht; destruct t as [|z t]; cbn [insert_by]; [now constructor|].
  destruct (score_after x z); constructor; [now inversion Ht|exact Hx].
Qed.

Lemma insert_score_sorted (x : ScoredChunk) (l : list ScoredChunk) :
  Sorted score_ge l ->
  (forall y, In y l -> agrees (score x) (score y) = true) ->
  Sorted score_ge (insert_by score_after x l).
Proof.
  induction 1 as [|y t Ht IH Hy]; intros Hag; cbn [insert_by];
    [repeat constructor|].
  pose proof (Hag y (or_introl eq_refl)) as A.
  unfold agrees in A; unfold score_after at 1.
  destruct (zero <? score y - score x)%float.
  - constructor.
    + apply IH; intros z Hz; apply Hag; now right.
    + apply insert_score_hd; [exact A|exact Hy].
  - constructor; [now constructor|constructor; exact A].
Qed.

Lemma sort_score_sorted (l : list ScoredChunk) :
  comparable (map score l) = true ->
  Sorted score_ge (sort_by score_after l).
Proof.
  unfold comparable; intros H.
  assert (A : forall x y, In x l -> In y l ->
                          agrees (score x) (score y) = true).
  { intros x y Hx Hy.
    rewrite forallb_forall in H.
    specialize (H (score x) (in_map score l x Hx)).
    rewrite forallb_forall in H.
    apply H; now apply in_map. }
  clear H; induction l as [|x l IH]; cbn; [constructor|].
  apply insert_score_sorted.
  - apply IH; intros a b Ha Hb; apply A; now right.
  - intros y Hy; apply A; [now left|right].
    now apply (Permutation_in _ (Permutation_sym (sort_by_perm _ _))) in Hy.
Qed.

Lemma Sorted_firstn {A} (R : A -> A -> Prop) (k : nat) (l : list A) :
  Sorted R l -> Sorted R (firstn k l).
Proof.
  intros H; revert k; induction H as [|x l Hl IH Hx]; intros [|k]; cbn;
    try constructor; [apply IH|].
  destruct Hx as [|y l Hy]; destruct k; cbn; constructor; exact Hy.
Qed.

Lemma slice0_In {A} (l : list A) (k : Z) (x : A) :
  In x (slice0 l k) -> In x l.
Proof.
  unfold slice0; destruct (k <? 0)%Z; apply In_firstn.
Qed.

Lemma slice0_length {A} (l : list A) (k : Z) :
  (0 <= k)%Z -> (Z.of_nat (length (slice0 l k)) <= k)%Z.
Proof.
  intros Hk; unfold slice0.
  destruct (k <? 0)%Z eqn:E; [apply Z.ltb_lt in E; lia|].
  pose proof (firstn_le_length (Z.to_nat k) l); lia.
Qed.

Lemma slice0_sorted {A} (R : A -> A -> Prop) (l : list A) (k : Z) :
  Sorted R l -> Sorted R (slice0 l k).
Proof. unfold slice0; destruct (k <? 0)%Z; apply Sorted_firstn. Qed.

(** C8 (as amended). If no chunk has an embedding, [searchCodebase]
    returns the empty list and sends no request; if the query request
    fails, it returns the empty list; otherwise it sends one request and
    returns, for a non-negative [K], at most [K] chunks, each of them a
    chunk of the list that has an embedding, with its cosine score; the
    score is the dot product divided by the product of the Euclidean
    norms when the two vectors have the same length; the result is in
    descending order of score when the comparator agrees with the order
    of the scores, which excludes [NaN] scores. *)
Theorem searchCodebase_contract
  (generateEmbedding : nat -> jsstring -> option (list float))
  (n : nat) (query : jsstring) (chunks : list CodeChunk) (topK : Z) :
  let out := searchCodebase generateEmbedding n query chunks topK in
  (existsb has_embedding chunks = false -> out = ([], []))
  /\ (existsb has_embedding chunks = true ->
      generateEmbedding n query = None -> out = ([], [query]))
  /\ (forall q,
        existsb has_embedding chunks = true ->
        generateEmbedding n query = Some q ->
        snd out = [query]
        /\ ((0 <= topK)%Z -> (Z.of_nat (length (fst out)) <= topK)%Z)
        /\ (forall r, In r (fst out) ->
              In (chunk r) chunks
              /\ has_embedding (chunk r) = true
              /\ score r = cosineSimilarity q (embedding_of (chunk r))
              /\ (length q = length (embedding_of (chunk r)) ->
                  score r
                  = (dot q (embedding_of (chunk r))
                     / (norm q * norm (embedding_of (chunk r))))%float))
        /\ (comparable (scores_of q chunks) = true ->
            Sorted score_ge (fst out))).
Proof.
  intros out; subst out; unfold searchCodebase.
  split; [|split].
  - now intros ->.
  - now intros -> ->.
  - intros q -> ->; cbn [negb fst snd].
    split; [reflexivity|]. split; [apply slice0_length|]. split.
    + intros r Hr; apply slice0_In in Hr.
      apply (Permutation_in _ (Permutation_sym (sort_by_perm _ _))) in Hr.
      apply in_map_iff in Hr; destruct Hr as (c & <- & Hc).
      apply filter_In in Hc; destruct Hc as [Hc1 Hc2].
      cbn [chunk score score_chunk].
      repeat split; auto.
      intros Hlen; now apply cosine_formula.
    + intros Hcmp; apply slice0_sorted, sort_score_sorted.
      unfold scores_of in Hcmp; rewrite map_map.
      exact Hcmp.
Qed.

Lemma searchCodebase_contract_witness :
  map (fun r => fileName (chunk r))
    (fst (searchCodebase sample_service 0 (lit "auth") sample_index 2))
  = [lit "c.ts"; lit "d.ts"]
  /\ (Z.of_nat (length (fst (searchCodebase sample_service 0 (lit "auth")
                               sample_index 2))) <= 2)%Z
  /\ Sorted score_ge
       (fst (searchCodebase sample_service 0 (lit "auth") sample_index 2)).
Proof.
  destruct (searchCodebase_contract sample_service 0 (lit "auth")
              sample_index 2) as (_ & _ & H).
  destruct (H [one; zero] eq_refl eq_refl) as (_ & Hk & _ & Hs).
  split; [vm_compute; reflexivity|].
  split; [apply Hk; lia|apply Hs; vm_compute; reflexivity].
Defined.

(** C8 as stated fails: with [K = -1] the slice drops the last of three
    scored chunks and returns two; and a zero vector scores [NaN], which
    no order of the result puts in descending order. *)
Lemma searchCodebase_counterexample :
  ~ at_most_K_as_claimed /\ ~ descending_as_claimed.
Proof.
  split; intros H.
  - specialize (H sample_service 0 (lit "auth") sample_index (-1)%Z
                  [one; zero] eq_refl eq_refl).
    vm_compute in H; apply H; reflexivity.
  - specialize (H sample_service 0 (lit "auth") zero_index 3%Z
                  [one; zero] eq_refl eq_refl).
    vm_compute in H.
    inversion H as [|x l Hl Hx]; subst.
    inversion Hx as [|y l' Hy]; subst.
    unfold score_ge in Hy; vm_compute in Hy; discriminate.
Qed.

End IndexFacts.

(* ===================================================================== *)
(** ** Further properties of the file selection *)
(* ===================================================================== *)

Module SelectionFacts.
Import Str Arr Github Spec Props StrFacts SortFacts TreeFacts.

Lemma selected_candidate (allowedExtensions : list jsstring)
  (options : FetchOptions) (nodes : list TreeNode) :
  filesToFetch allowedExtensions options nodes
  = firstn (limit allowedExtensions options)
      (candidates allowedExtensions options nodes).
Proof. reflexivity. Qed.

(** X1. The size threshold.  Outside fetch-everything mode the threshold
    is the caller's, or 100 KiB when the caller gave none or gave zero:
    no selected file has a reported, non-zero size above it, and no node
    with such a size passes the filter.  In fetch-everything mode there
    is no threshold: no node is too large, and every blob that is not
    blocked passes the filter whatever its size. *)
Theorem selected_within_size (allowedExtensions : list jsstring)
  (options : FetchOptions) (nodes : list TreeNode) :
  let threshold :=
    match maxFileSize options with
    | Some m => if (m =? 0)%Z then 102400%Z else m
    | None => 102400%Z
    end in
  (fetchAll options = false ->
   (forall f sz,
       In f (filesToFetch allowedExtensions options nodes) ->
       size f = Some sz -> sz = 0%Z \/ (sz <= threshold)%Z)
   /\ (forall node sz,
         size node = Some sz -> sz <> 0%Z -> (threshold < sz)%Z ->
         keep_node allowedExtensions options node = false))
  /\ (fetchAll options = true ->
      forall node,
        too_large options node = false
        /\ (type node = blob -> isBlocked (path node) = false ->
            keep_node allowedExtensions options node = true)).
Proof.
  cbv zeta; split.
  - intros Hfa; split.
    + intros f sz Hin Hsz.
      apply selected_kept in Hin; destruct Hin as [_ Hk].
      unfold keep_node in Hk.
      destruct (type f); try discriminate.
      destruct (too_large options f) eqn:Ht; [discriminate|].
      unfold too_large, maxSizeBytes in Ht.
      rewrite Hsz, Hfa in Ht.
      destruct (sz =? 0)%Z eqn:E0; [left; now apply Z.eqb_eq|right].
      destruct (maxFileSize options) as [m|].
      * destruct (m =? 0)%Z; apply Z.ltb_ge in Ht; exact Ht.
      * apply Z.ltb_ge in Ht; exact Ht.
    + intros node sz Hsz Hnz Hgt.
      assert (Ht : too_large options node = true).
      { unfold too_large, maxSizeBytes; rewrite Hsz, Hfa.
        apply Z.eqb_neq in Hnz; rewrite Hnz.
        destruct (maxFileSize options) as [m|].
        - destruct (m =? 0)%Z; now apply Z.ltb_lt.
        - now apply Z.ltb_lt. }
      unfold keep_node; rewrite Ht.
      destruct (type node); reflexivity.
  - intros Hfa node.
    assert (Ht : too_large options node = false).
    { unfold too_large, maxSizeBytes; rewrite Hfa.
      destruct (size node) as [sz|]; [destruct (sz =? 0)%Z|]; reflexivity. }
    split; [exact Ht|].
    intros Hb Hnb; unfold keep_node; now rewrite Hb, Ht, Hnb, Hfa.
Qed.

Lemma selected_within_size_witness :
  let big := mkNode (lit "src/big.ts") blob (Some 60000%Z) in
  let small := mkNode (lit "src/small.ts") blob (Some 900%Z) in
  filesToFetch [] (mkOptions false None (Some 51200%Z)) [big; small]
  = [small]
  /\ keep_node [] (mkOptions false None (Some 51200%Z)) big = false
  /\ keep_node [] (mkOptions true None (Some 51200%Z)) big = true.
Proof.
  intros big small.
  destruct (selected_within_size [] (mkOptions false None (Some 51200%Z))
              [big; small]) as [H1 _].
  destruct (selected_within_size [] (mkOptions true None (Some 51200%Z))
              [big; small]) as [_ H2].
  split; [vm_compute; reflexivity|]. split.
  - apply (proj2 (H1 eq_refl) big 60000%Z); [reflexivity|discriminate|].
    reflexivity.
  - apply (proj2 (H2 eq_refl big)); reflexivity.
Defined.

(** X2. The allow-list: outside fetch-everything mode every selected file is
    a blob of the tree whose path ends with one of the caller's
    extensions, or with one of the default extensions when the caller
    gave none; in fetch-everything mode every blob that is not blocked
    passes the filter, whatever its extension and size. *)
Theorem selected_by_extension (allowedExtensions : list jsstring)
  (options : FetchOptions) (nodes : list TreeNode) :
  (fetchAll options = false ->
   forall f,
     In f (filesToFetch allowedExtensions options nodes) ->
     In f nodes /\ type f = blob
     /\ exists ext,
          In ext (match allowedExtensions with
                  | [] => defaultExtensions
                  | _ => allowedExtensions
                  end)
          /\ endsWith (path f) ext = true)
  /\ (fetchAll options = true ->
      forall f,
        type f = blob -> isBlocked (path f) = false ->
        keep_node allowedExtensions options f = true).
Proof.
  split.
  - intros Hfa f Hin; apply selected_kept in Hin; destruct Hin as [Hn Hk].
    split; [exact Hn|].
    unfold keep_node, effectiveExtensions in Hk; rewrite Hfa in Hk.
    destruct (type f); try discriminate.
    split; [reflexivity|].
    destruct (too_large options f); [discriminate|].
    destruct (isBlocked (path f)); [discriminate|].
    apply existsb_exists in Hk; destruct Hk as (ext & H1 & H2).
    exists ext; split; assumption.
  - intros Hfa f Hb Hnb; unfold keep_node, too_large, maxSizeBytes.
    rewrite Hb, Hfa, Hnb.
    destruct (size f) as [sz|]; [destruct (sz =? 0)%Z|]; reflexivity.
Qed.

Lemma selected_by_extension_witness :
  let nodes := [mkNode (lit "main.py") blob None;
                mkNode (lit "src") tree None;
                mkNode (lit "notes.txt") blob None] in
  filesToFetch [lit ".py"] default_options nodes
  = [mkNode (lit "main.py") blob None]
  /\ exists ext, In ext [lit ".py"] /\ endsWith (lit "main.py") ext = true.
Proof.
  intros nodes.
  split; [vm_compute; reflexivity|].
  destruct (selected_by_extension [lit ".py"] default_options nodes)
    as [H _].
  destruct (H eq_refl (mkNode (lit "main.py") blob None)) as (_ & _ & He).
  - vm_compute; left; reflexivity.
  - exact He.
Defined.

Lemma sorted_split {A} (R : A -> A -> Prop) (l : list A) :
  StronglySorted R l ->
  forall n f g, In f (firstn n l) -> In g (skipn n l) -> R f g.
Proof.
  induction 1 as [|x l Hl IH Hx]; intros n f g Hf Hg.
  - rewrite firstn_nil in Hf; contradiction.
  - destruct n as [|n]; [contradiction|].
    cbn [firstn skipn] in Hf, Hg.
    destruct Hf as [<-|Hf].
    + rewrite Forall_forall in Hx; apply Hx.
      rewrite <- (firstn_skipn n l); apply in_or_app; now right.
    + now apply (IH n).
Qed.

Lemma filter_firstn_skipn {A} (P : A -> bool) (n : nat) (l : list A) :
  filter P (firstn n l) ++ filter P (skipn n l) = filter P l.
Proof. now rewrite <- filter_app, firstn_skipn. Qed.

(** X3. The cap drops only the lowest priorities, and among files of the
    same score those that come later in the tree: with the files that
    pass the filter in tree order, the selected files and the dropped
    ones together are these files; the selected ones are as many as the
    cap allows; no dropped file has a higher score than a selected one;
    for every score, the selected files of that score followed by the
    dropped ones of that score are the files of that score in tree
    order; and nothing is dropped when the files that pass the filter
    are not more than the cap. *)
Theorem cap_keeps_best (allowedExtensions : list jsstring)
  (options : FetchOptions) (nodes : list TreeNode) :
  let kept := filter (keep_node allowedExtensions options) nodes in
  let selected := filesToFetch allowedExtensions options nodes in
  exists dropped,
    Permutation (selected ++ dropped) kept
    /\ length selected
       = Nat.min (limit allowedExtensions options) (length kept)
    /\ (forall f g, In f selected -> In g dropped ->
          (path_score g <= path_score f)%Z)
    /\ (forall s,
          filter (fun f => (path_score f =? s)%Z) selected
          ++ filter (fun f => (path_score f =? s)%Z) dropped
          = filter (fun f => (path_score f =? s)%Z) kept)
    /\ (length kept <= limit allowedExtensions options -> dropped = []).
Proof.
  intros kept selected; subst kept selected.
  exists (skipn (limit allowedExtensions options)
            (candidates allowedExtensions options nodes)).
  rewrite selected_candidate.
  split.
  { rewrite firstn_skipn; unfold candidates, priority_sort.
    apply Permutation_sym, sort_by_perm. }
  split.
  { rewrite length_firstn; unfold candidates, priority_sort.
    now rewrite sort_by_length. }
  split.
  { intros f g Hf Hg.
    apply (@sorted_split _ (descending path_score)
             (candidates allowedExtensions options nodes)) with
      (n := limit allowedExtensions options); auto.
    unfold candidates, priority_sort, path_score.
    apply sort_by_sorted; intros; apply after_score. }
  split.
  { intros s; rewrite filter_firstn_skipn.
    unfold candidates, priority_sort, path_score.
    apply (sort_by_stable (fun a b => (0 <? compare_nodes a b)%Z)
             (fun f => score (path f)) after_score). }
  intros Hlen; apply skipn_all2.
  unfold candidates, priority_sort; now rewrite sort_by_length.
Qed.

Lemma cap_keeps_best_witness :
  exists dropped,
    Permutation (filesToFetch [] default_options crowd ++ dropped) crowd
    /\ length (filesToFetch [] default_options crowd) = 20
    /\ filesToFetch [] default_options crowd ++ dropped = crowd.
Proof.
  destruct (cap_keeps_best [] default_options crowd)
    as (dropped & P & L & _ & S & _).
  assert (K : filter (keep_node [] default_options) crowd = crowd)
    by (vm_compute; reflexivity).
  rewrite K in P, L.
  exists dropped; split; [exact P|]. split; [rewrite L; reflexivity|].
  specialize (S 0%Z); rewrite K in S.
  assert (F : forall l, incl l crowd ->
                        filter (fun f => (path_score f =? 0)%Z) l = l).
  { induction l as [|x l IH]; intros Hl; [reflexivity|].
    assert (Hx : (path_score x =? 0)%Z = true).
    { assert (A : forallb (fun f => (path_score f =? 0)%Z) crowd = true)
        by (vm_compute; reflexivity).
      rewrite forallb_forall in A; apply A, Hl; now left. }
    cbn [filter]; rewrite Hx, IH; [reflexivity|].
    intros y Hy; apply Hl; now right. }
  assert (I : incl (filesToFetch [] default_options crowd ++ dropped) crowd)
    by (intros x Hx; exact (Permutation_in _ P Hx)).
  rewrite (F (filesToFetch [] default_options crowd)) in S
    by (intros x Hx; apply I, in_or_app; now left).
  rewrite (F dropped) in S by (intros x Hx; apply I, in_or_app; now right).
  rewrite S; apply F, incl_refl.
Defined.

#[local] Set Warnings "-abstract-large-number".

(** X4. The truncation of a downloaded text.  The maximum is 50000
    characters, or 100000 in fetch-everything mode: a text within the
    maximum is kept as it is; a longer one is cut to the maximum and
    followed by a newline and the marker [...[Truncated]...], 18
    characters in all; in both cases the first characters up to the
    maximum are those of the text. *)
Theorem truncate_text_bounds (options : FetchOptions) (text : jsstring) :
  let MAX := if fetchAll options then 100000 else 50000 in
  let out := truncate_text options text in
  length out <= MAX + 18
  /\ firstn MAX out = firstn MAX text
  /\ (length text <= MAX -> out = text)
  /\ (MAX < length text ->
      out = firstn MAX text ++ [nl] ++ lit "...[Truncated]..."
      /\ length out = MAX + 18
      /\ endsWith out ([nl] ++ lit "...[Truncated]...") = true).
Proof.
  intros MAX out; subst out; unfold truncate_text.
  change (MAX_TEXT_LENGTH options) with MAX.
  generalize MAX; clear MAX; intros M.
  destruct (M <? length text) eqn:E.
  - apply Nat.ltb_lt in E.
    assert (L : length (firstn M text ++ [nl] ++ lit "...[Truncated]...")
                = M + 18).
    { rewrite length_app, length_firstn.
      change (length ([nl] ++ lit "...[Truncated]...")) with 18; lia. }
    split; [lia|]. split.
    { rewrite firstn_app, firstn_firstn, Nat.min_id, length_firstn.
      replace (M - Nat.min M (length text)) with 0 by lia.
      now rewrite firstn_0, app_nil_r. }
    split; [lia|].
    intros _; split; [reflexivity|]. split; [exact L|].
    apply endsWith_iff; now exists (firstn M text).
  - apply Nat.ltb_ge in E.
    split; [lia|]. split; [reflexivity|]. split; [reflexivity|lia].
Qed.

Lemma truncate_text_bounds_witness :
  (length (truncate_text default_options (repeat 120%N 50001)) =? 50018)
  = true
  /\ (length (truncate_text (mkOptions true None None)
                (repeat 120%N 50001)) =? 50001)
     = true.
Proof.
  destruct (truncate_text_bounds default_options (repeat 120%N 50001))
    as (_ & _ & _ & H).
  destruct (truncate_text_bounds (mkOptions true None None)
              (repeat 120%N 50001)) as (_ & _ & K & _).
  split.
  - destruct H as (_ & H & _); [apply Nat.ltb_lt; vm_compute; reflexivity|].
    rewrite H; vm_compute; reflexivity.
  - rewrite K; [vm_compute; reflexivity|].
    apply Nat.leb_le; vm_compute; reflexivity.
Defined.

#[local] Set Warnings "abstract-large-number".

End SelectionFacts.

(* ===================================================================== *)
(** ** Further properties of the fetch session *)
(* ===================================================================== *)

Module SessionFacts.
Import Str Arr Rag Github Spec Props StrFacts SortFacts TreeFacts FetchFacts.

Section Trace.

Variable fetch_raw : jsstring -> FetchOutcome jsstring.
Variable latency : nat -> nat.
Variable signal : option (nat -> bool).
Variable options : FetchOptions.
Variable info : RepoInfo.
Variable br : jsstring.

Local Abbreviation good := (succeeded fetch_raw info br).
Local Abbreviation terminal := (terminal_update fetch_raw info br).
Local Abbreviation updates := (filter is_file_update).

Lemma download_file_trace (total k : nat) (st : DlState) (file : TreeNode) :
  aborted signal k = false ->
  let out := download_file fetch_raw signal options info br total k st file in
  updates (events (fst out)) = updates (events st) ++ terminal file
  /\ loadedCount (fst out)
     = loadedCount st + (if good file then 1 else 0).
Proof.
  intros Hab; unfold download_file, terminal_update, succeeded;
    rewrite Hab.
  destruct (fetch_raw (rawUrl info br (path file))) as [res| |].
  - destruct (ok res); cbn [negb fst snd emit events loadedCount];
      rewrite ?filter_app; cbn [filter is_file_update];
      rewrite ?app_nil_r; split; try reflexivity; lia.
  - cbn [fst]; rewrite app_nil_r; split; [reflexivity|lia].
  - cbn [fst emit events loadedCount]; rewrite filter_app.
    split; [reflexivity|lia].
Qed.

Lemma settle_fold_trace (total k : nat) (order : list TreeNode) :
  aborted signal k = false ->
  forall st,
    let st' :=
      fold_left
        (fun s file =>
           fst (download_file fetch_raw signal options info br total k s
                  file)) order st in
    updates (events st') = updates (events st) ++ flat_map terminal order
    /\ loadedCount st' = loadedCount st + length (filter good order).
Proof.
  intros Hab; induction order as [|file order IH]; intros st.
  - cbn; rewrite app_nil_r; split; [reflexivity|lia].
  - cbn [fold_left].
    pose proof (@download_file_trace total k st file Hab) as F.
    cbv zeta in F; destruct F as [F1 F2].
    specialize (IH (fst (download_file fetch_raw signal options info br
                           total k st file))).
    cbv zeta in IH; destruct IH as [I1 I2].
    split.
    + rewrite I1, F1, <- app_assoc; reflexivity.
    + rewrite I2, F2; cbn [filter].
      destruct (good file); cbn [length]; lia.
Qed.

Lemma download_batch_trace (total k i : nat) (batch : list TreeNode) :
  aborted signal k = false ->
  forall st,
    let out := download_batch fetch_raw latency signal options info br
                 total k i st batch in
    updates (events (fst out))
    = updates (events st)
      ++ flat_map terminal (settle_order latency i batch)
    /\ loadedCount (fst out)
       = loadedCount st
         + length (filter good (settle_order latency i batch)).
Proof.
  intros Hab st; unfold download_batch; cbn [fst].
  now apply settle_fold_trace.
Qed.

Lemma reported_step (files : list TreeNode) (j n : nat) :
  reported latency files j (S n)
  = settle_order latency (j * batchSize) (batch_at files j)
    ++ reported latency files (S j) n.
Proof. reflexivity. Qed.

(** The files that have reported are the attempted files, rearranged
    inside the batches. *)
Lemma reported_perm (files : list TreeNode) (n : nat) :
  forall j,
    Permutation (reported latency files j n)
      (firstn (n * batchSize) (skipn (j * batchSize) files)).
Proof.
  induction n as [|n IH]; intros j; [reflexivity|].
  rewrite reported_step.
  replace (S n * batchSize) with (batchSize + n * batchSize)
    by (cbn [Nat.mul]; lia).
  rewrite firstn_add, skipn_skipn.
  apply Permutation_app; [apply settle_order_perm|].
  replace (batchSize + j * batchSize) with (S j * batchSize)
    by (cbn [Nat.mul]; lia).
  apply IH.
Qed.

Lemma download_loop_trace (files : list TreeNode) (fuel : nat) :
  forall j st,
    length (skipn (j * batchSize) files) <= fuel * batchSize ->
    exists k st',
      download_loop fetch_raw latency signal options info br fuel files
        (j * batchSize) st = (st', k)
      /\ j <= k
      /\ updates (events st')
         = updates (events st)
           ++ flat_map terminal (reported latency files j (k - j))
      /\ loadedCount st'
         = loadedCount st
           + length (filter good (reported latency files j (k - j))).
Proof.
  assert (D : forall j, j * batchSize / batchSize = j)
    by (intros j; now apply Nat.div_mul).
  assert (Stop : forall j st,
             updates (events st)
             = updates (events st)
               ++ flat_map terminal (reported latency files j (j - j))
             /\ loadedCount st
                = loadedCount st
                  + length (filter good (reported latency files j (j - j)))).
  { intros j st; rewrite Nat.sub_diag; cbn; rewrite app_nil_r.
    split; [reflexivity|lia]. }
  induction fuel as [|fuel IH]; intros j st Hlen.
  - exists j, st; cbn [download_loop]; rewrite D.
    split; [reflexivity|]. split; [lia|apply Stop].
  - cbn [download_loop]; rewrite D.
    destruct (j * batchSize <? length files) eqn:Ei;
      [|exists j, st; split; [reflexivity|]; split; [lia|apply Stop]].
    destruct (aborted signal j) eqn:Hab;
      [exists j, st; split; [reflexivity|]; split; [lia|apply Stop]|].
    set (rest := skipn (j * batchSize) files) in *.
    pose proof (@download_batch_trace (length files) j (j * batchSize)
                  (firstn batchSize rest) Hab st) as B.
    destruct (download_batch fetch_raw latency signal options info br
                (length files) j (j * batchSize) st (firstn batchSize rest))
      as [st1 rs].
    cbn [fst] in B; destruct B as [B1 B2].
    destruct (IH (S j)
                (mkDl (loadedCount st1) (results st1 ++ rs) (events st1)))
      as (k & st' & L1 & L2 & L3 & L4).
    { replace (skipn (S j * batchSize) files) with (skipn batchSize rest).
      - rewrite length_skipn; cbn [Nat.mul] in Hlen; lia.
      - unfold rest; rewrite skipn_skipn; f_equal; cbn [Nat.mul]; lia. }
    assert (Hsplit : reported latency files j (k - j)
                     = settle_order latency (j * batchSize)
                         (firstn batchSize rest)
                       ++ reported latency files (S j) (k - S j)).
    { replace (k - j) with (S (k - S j)) by lia; apply reported_step. }
    exists k, st'.
    replace (j * batchSize + batchSize) with (S j * batchSize)
      by (cbn [Nat.mul]; lia).
    split; [exact L1|]. split; [lia|].
    cbn [events loadedCount] in L3, L4.
    split.
    + rewrite L3, B1, Hsplit, flat_map_app, <- app_assoc; reflexivity.
    + rewrite L4, B2, Hsplit, filter_app, length_app; lia.
Qed.

End Trace.

Lemma short_batch_later (files : list TreeNode) (i m : nat) :
  length (batch_at files i) < batchSize -> i < m -> batch_at files m = [].
Proof.
  unfold batch_at; intros H Hm.
  rewrite length_firstn, length_skipn in H.
  rewrite skipn_all2; [apply firstn_nil|].
  assert (i * batchSize + batchSize <= m * batchSize) by nia.
  lia.
Qed.

Lemma settle_order_length (latency : nat -> nat) (i : nat)
  (batch : list TreeNode) :
  length (settle_order latency i batch) = length batch.
Proof. apply Permutation_length, settle_order_perm. Qed.

Lemma short_batch_last (latency : nat -> nat) (files : list TreeNode)
  (i n : nat) :
  length (batch_at files i) < batchSize ->
  reported latency files (S i) n = [].
Proof.
  intros H; unfold reported.
  assert (G : forall m, In m (seq (S i) n) ->
                        settle_order latency (m * batchSize)
                          (batch_at files m) = []).
  { intros m Hm; apply in_seq in Hm.
    rewrite (@short_batch_later files i m H) by lia; reflexivity. }
  induction (seq (S i) n) as [|m l IH]; [reflexivity|].
  cbn [flat_map]; rewrite G by now left.
  apply IH; intros m' Hm'; apply G; now right.
Qed.

(** Batch [j] of the files that have reported is batch [j] of the files
    as its callbacks resumed. *)
Lemma reported_batch (latency : nat -> nat) (files : list TreeNode)
  (k j : nat) :
  j < k ->
  firstn batchSize (skipn (j * batchSize) (reported latency files 0 k))
  = settle_order latency (j * batchSize) (batch_at files j).
Proof.
  assert (G : forall n i m,
             m < n ->
             firstn batchSize
               (skipn (m * batchSize) (reported latency files i n))
             = settle_order latency ((i + m) * batchSize)
                 (batch_at files (i + m))).
  { induction n as [|n IH]; intros i m Hm; [lia|].
    rewrite reported_step.
    set (b := settle_order latency (i * batchSize) (batch_at files i)).
    destruct m as [|m].
    - cbn [Nat.mul skipn]; rewrite Nat.add_0_r; fold b.
      destruct (Nat.lt_ge_cases (length b) batchSize) as [Hs|Hs].
      + (* a short batch is the last one *)
        assert (Hl : length (batch_at files i) < batchSize)
          by (unfold b in Hs; now rewrite settle_order_length in Hs).
        assert (E : reported latency files (S i) n = []).
        { apply short_batch_last; exact Hl. }
        rewrite E, app_nil_r; apply firstn_all2; lia.
      + rewrite firstn_app.
        replace (batchSize - length b) with 0 by
          (pose proof (settle_order_length latency (i * batchSize)
                         (batch_at files i)) as L;
           fold b in L; unfold batch_at in L;
           pose proof (firstn_le_length batchSize
                         (skipn (i * batchSize) files)); lia).
        cbn [firstn]; rewrite app_nil_r; apply firstn_all2.
        pose proof (settle_order_length latency (i * batchSize)
                      (batch_at files i)) as L; fold b in L.
        unfold batch_at in L.
        pose proof (firstn_le_length batchSize
                      (skipn (i * batchSize) files)); lia.
    - destruct (Nat.lt_ge_cases (length b) batchSize) as [Hs|Hs].
      + assert (Hl : length (batch_at files i) < batchSize)
          by (unfold b in Hs; now rewrite settle_order_length in Hs).
        assert (E : reported latency files (S i) n = [])
          by (apply short_batch_last; exact Hl).
        assert (E' : settle_order latency ((i + S m) * batchSize)
                       (batch_at files (i + S m)) = []).
        { apply length_zero_iff_nil; rewrite settle_order_length.
          apply length_zero_iff_nil.
          apply (@short_batch_later files i (i + S m) Hl); lia. }
        rewrite E, app_nil_r, E'.
        rewrite skipn_all2; [reflexivity|].
        cbn [Nat.mul]; lia.
      + assert (Hb : length b = batchSize).
        { pose proof (settle_order_length latency (i * batchSize)
                        (batch_at files i)) as L; fold b in L.
          unfold batch_at in L.
          pose proof (firstn_le_length batchSize
                        (skipn (i * batchSize) files)); lia. }
        rewrite skipn_app, skipn_all2 by (cbn [Nat.mul]; lia).
        replace (S m * batchSize - length b) with (m * batchSize)
          by (cbn [Nat.mul]; lia).
        cbn [app]; rewrite IH by lia.
        replace (S i + m) with (i + S m) by lia; reflexivity. }
  intros Hj; apply (G k 0 j Hj).
Qed.

Lemma updates_of_success (l : list Event) :
  filter is_success_update l = filter is_success_update (filter is_file_update l).
Proof.
  induction l as [|e l IH]; [reflexivity|].
  destruct e as [msg|f]; cbn [filter is_file_update is_success_update];
    [exact IH|].
  destruct (fs_status f); cbn [filter is_success_update]; now rewrite IH.
Qed.

Lemma updates_of_error (l : list Event) :
  filter is_error_update l = filter is_error_update (filter is_file_update l).
Proof.
  induction l as [|e l IH]; [reflexivity|].
  destruct e as [msg|f]; cbn [filter is_file_update is_error_update];
    [exact IH|].
  destruct (fs_status f); cbn [filter is_error_update]; now rewrite IH.
Qed.

Lemma terminal_success
  (fetch_raw : jsstring -> FetchOutcome jsstring) (info : RepoInfo)
  (br : jsstring) (l : list TreeNode) :
  filter is_success_update (flat_map (terminal_update fetch_raw info br) l)
  = map success_update (filter (succeeded fetch_raw info br) l)
  /\ filter is_error_update (flat_map (terminal_update fetch_raw info br) l)
     = map error_update (filter (failed fetch_raw info br) l).
Proof.
  induction l as [|f l [IH1 IH2]]; [split; reflexivity|].
  cbn [flat_map filter]; rewrite !filter_app, IH1, IH2.
  unfold terminal_update, succeeded, failed.
  destruct (fetch_raw (rawUrl info br (path f))) as [res| |];
    [destruct (ok res)| |]; split; reflexivity.
Qed.

(** X5. The statuses of a download agree with the corpus: with [k] the
    number of batches that ran, the status updates sent during the
    download are one [success] or [error] per attempted file and none
    for a fetch rejected by an abort, batch after batch and inside a
    batch in the order in which the callbacks resume, which rearranges
    the files of the batch; the files marked [success] are exactly those
    whose records make up the returned corpus, where the records stand
    in the order of the files, and the files marked [error] are exactly
    those whose fetch answered non-2xx or was rejected otherwise. *)
Theorem download_statuses
  (fetch_raw : jsstring -> FetchOutcome jsstring)
  (latency : nat -> nat)
  (signal : option (nat -> bool)) (options : FetchOptions)
  (info : RepoInfo) (br : jsstring) (repoData : RepoData)
  (files : list TreeNode) (evs : list Event) :
  let out :=
    download fetch_raw latency signal options info br repoData files evs in
  exists k,
    let attempted := firstn (k * batchSize) files in
    let order := reported latency files 0 k in
    (length files <= k * batchSize \/ aborted signal k = true)
    /\ Permutation order attempted
    /\ (forall j, j < k ->
        Permutation (firstn batchSize (skipn (j * batchSize) order))
          (firstn batchSize (skipn (j * batchSize) files)))
    /\ filter is_file_update (fst out)
       = filter is_file_update evs
         ++ flat_map (terminal_update fetch_raw info br) order
    /\ filter is_success_update (fst out)
       = filter is_success_update evs
         ++ map success_update (filter (succeeded fetch_raw info br) order)
    /\ filter is_error_update (fst out)
       = filter is_error_update evs
         ++ map error_update (filter (failed fetch_raw info br) order)
    /\ (forall res, snd out = inr res ->
        r_content res
        = header info br repoData
          ++ join (map (record_of fetch_raw options info br)
                     (filter (succeeded fetch_raw info br) attempted))).
Proof.
  intros out; subst out; unfold download.
  set (st0 := mkDl 0 [] _).
  destruct (@download_loop_spec fetch_raw latency signal options info br
              files (S (length files)) 0 st0)
    as (k & st' & L1 & _ & _ & L4 & L5 & _).
  { cbn [Nat.mul skipn]; unfold batchSize; lia. }
  destruct (@download_loop_trace fetch_raw latency signal options info br
              files (S (length files)) 0 st0)
    as (k' & st'' & M1 & _ & M3 & _).
  { cbn [Nat.mul skipn]; unfold batchSize; lia. }
  rewrite L1 in M1; injection M1 as <- <-.
  cbn [Nat.mul skipn] in L1, L5; rewrite Nat.sub_0_r in L5, M3.
  rewrite L1; cbn [results st0 app] in L5.
  assert (E0 : filter is_file_update (events st0) = filter is_file_update evs).
  { unfold st0; cbn [events]; rewrite filter_app; cbn; apply app_nil_r. }
  rewrite E0 in M3.
  destruct (terminal_success fetch_raw info br (reported latency files 0 k))
    as [T1 T2].
  exists k; cbv zeta.
  assert (U : forall tail,
             filter is_file_update tail = [] ->
             filter is_file_update (events st' ++ tail)
             = filter is_file_update evs
               ++ flat_map (terminal_update fetch_raw info br)
                    (reported latency files 0 k)).
  { intros tail Ht; rewrite filter_app, Ht, app_nil_r; exact M3. }
  assert (V : forall l,
             filter is_file_update l
             = filter is_file_update evs
               ++ flat_map (terminal_update fetch_raw info br)
                    (reported latency files 0 k) ->
             filter is_success_update l
             = filter is_success_update evs
               ++ map success_update
                    (filter (succeeded fetch_raw info br)
                       (reported latency files 0 k))
             /\ filter is_error_update l
                = filter is_error_update evs
                  ++ map error_update
                       (filter (failed fetch_raw info br)
                          (reported latency files 0 k))).
  { intros l Hl; split.
    - rewrite updates_of_success, Hl, filter_app, <- updates_of_success, T1.
      reflexivity.
    - rewrite updates_of_error, Hl, filter_app, <- updates_of_error, T2.
      reflexivity. }
  assert (P : Permutation (reported latency files 0 k)
                (firstn (k * batchSize) files))
    by apply (reported_perm latency files k 0).
  assert (Q : forall j, j < k ->
                Permutation
                  (firstn batchSize
                     (skipn (j * batchSize) (reported latency files 0 k)))
                  (firstn batchSize (skipn (j * batchSize) files))).
  { intros j Hj; rewrite (reported_batch latency files Hj).
    apply settle_order_perm. }
  destruct ((length (results st') =? 0) && negb (aborted signal k));
    cbn [fst snd].
  - split; [exact L4|]. split; [exact P|]. split; [exact Q|].
    split; [exact M3|].
    destruct (V _ M3) as [V1 V2].
    split; [exact V1|]. split; [exact V2|discriminate].
  - pose proof (U [Progress (lit "Repository loaded successfully.")]
                  eq_refl) as U1.
    split; [exact L4|]. split; [exact P|]. split; [exact Q|].
    split; [exact U1|].
    destruct (V _ U1) as [V1 V2].
    split; [exact V1|]. split; [exact V2|].
    intros res Hres; injection Hres as <-; cbn [r_content].
    now rewrite L5.
Qed.

(** X6. Cancelling before the first batch: when the signal is already aborted
    at the first check, no file is fetched and no status update is sent;
    the operation does not fail but returns a corpus that holds the
    header alone, after the message "Repository loaded successfully." *)
Theorem cancel_before_start
  (fetch_raw : jsstring -> FetchOutcome jsstring)
  (latency : nat -> nat)
  (signal : option (nat -> bool)) (options : FetchOptions)
  (info : RepoInfo) (br : jsstring) (repoData : RepoData)
  (files : list TreeNode) (evs : list Event) :
  aborted signal 0 = true ->
  download fetch_raw latency signal options info br repoData files evs
  = (evs
     ++ [Progress (lit "Downloading " ++ of_nat (length files)
                   ++ lit " files...");
         Progress (lit "Repository loaded successfully.")],
     inr (mkResult (header info br repoData)
            (mkDetails (owner info) (repo info) br))).
Proof.
  intros Hab; unfold download.
  set (st0 := mkDl 0 [] _).
  assert (L : download_loop fetch_raw latency signal options info br
                (S (length files)) files 0 st0 = (st0, 0)).
  { cbn [download_loop]; change (0 / batchSize) with 0.
    destruct (0 <? length files); [rewrite Hab|]; reflexivity. }
  rewrite L, Hab; cbn [results st0 length Nat.eqb andb negb events].
  unfold join; cbn [concat]; rewrite app_nil_r, <- app_assoc.
  reflexivity.
Qed.

Lemma cancel_before_start_witness :
  snd (download (fun _ => OK (lit "text")) (fun _ => 0)
         (Some (fun _ => true))
         default_options sample_info (lit "main") sample_data
         scenario_nodes [])
  = inr (mkResult (header sample_info (lit "main") sample_data)
           (mkDetails (lit "octo") (lit "demo") (lit "main"))).
Proof.
  rewrite (@cancel_before_start (fun _ => OK (lit "text")) (fun _ => 0)
             (Some (fun _ => true)) default_options sample_info
             (lit "main") sample_data scenario_nodes [] eq_refl).
  reflexivity.
Defined.

End SessionFacts.

(* ===================================================================== *)
(** ** The list of file statuses of the view *)
(* ===================================================================== *)

Module ViewFacts.
Import Str Arr Github Spec Props View StrFacts SortFacts TreeFacts FetchFacts.

Lemma str_eqb_refl (a : jsstring) : str_eqb a a = true.
Proof. now apply str_eqb_eq. Qed.

Lemma str_eqb_neq (a b : jsstring) : a <> b -> str_eqb a b = false.
Proof.
  intros H; destruct (str_eqb a b) eqn:E; [|reflexivity].
  apply str_eqb_eq in E; contradiction.
Qed.

Lemma find_app_first {A} (P : A -> bool) (a b : list A) :
  find P (a ++ b)
  = match find P a with Some x => Some x | None => find P b end.
Proof.
  induction a as [|x a IH]; [reflexivity|]; cbn.
  destruct (P x); [reflexivity|exact IH].
Qed.

Lemma lookup_replace (p : jsstring) (x : FetchedFileStatus)
  (prev : list FetchedFileStatus) :
  lookup p
    (map (fun f => if str_eqb (fs_path f) (fs_path x) then x else f) prev)
  = match lookup (fs_path x) prev with
    | Some _ => if str_eqb (fs_path x) p then Some x else lookup p prev
    | None => lookup p prev
    end.
Proof.
  unfold lookup; induction prev as [|f prev IH]; [reflexivity|].
  cbn [map find].
  destruct (str_eqb (fs_path f) (fs_path x)) eqn:E.
  - apply str_eqb_eq in E.
    destruct (str_eqb (fs_path x) p) eqn:Ep.
    + reflexivity.
    + rewrite E, Ep, IH.
      destruct (find (fun f0 => str_eqb (fs_path f0) (fs_path x)) prev);
        reflexivity.
  - destruct (str_eqb (fs_path f) p) eqn:Ep.
    + apply str_eqb_eq in Ep.
      destruct (find (fun f0 => str_eqb (fs_path f0) (fs_path x)) prev);
        [|reflexivity].
      rewrite <- Ep, str_eqb_neq; [reflexivity|].
      intros H; rewrite H, str_eqb_refl in E; discriminate.
    + exact IH.
Qed.

Lemma lookup_updateFile (p : jsstring) (x : FetchedFileStatus)
  (prev : list FetchedFileStatus) :
  lookup p (updateFile prev x)
  = if str_eqb (fs_path x) p then Some x else lookup p prev.
Proof.
  unfold updateFile.
  destruct (find (fun f => str_eqb (fs_path f) (fs_path x)) prev) eqn:F.
  - rewrite lookup_replace; unfold lookup at 1; rewrite F; reflexivity.
  - unfold lookup; rewrite find_app_first; cbn [find].
    destruct (str_eqb (fs_path x) p) eqn:Ep.
    + apply str_eqb_eq in Ep; subst p; rewrite F; reflexivity.
    + destruct (find (fun f => str_eqb (fs_path f) p) prev); reflexivity.
Qed.

Lemma paths_updateFile (x : FetchedFileStatus)
  (prev : list FetchedFileStatus) :
  map fs_path (updateFile prev x)
  = match lookup (fs_path x) prev with
    | Some _ => map fs_path prev
    | None => map fs_path prev ++ [fs_path x]
    end.
Proof.
  unfold updateFile, lookup.
  destruct (find (fun f => str_eqb (fs_path f) (fs_path x)) prev) as [y|].
  - rewrite map_map; apply map_ext; intros g.
    destruct (str_eqb (fs_path g) (fs_path x)) eqn:E; [|reflexivity].
    apply str_eqb_eq in E; now rewrite E.
  - now rewrite map_app.
Qed.

Lemma lookup_None (p : jsstring) (l : list FetchedFileStatus) :
  lookup p l = None <-> ~ In p (map fs_path l).
Proof.
  unfold lookup; induction l as [|f l IH]; cbn; [tauto|].
  destruct (str_eqb (fs_path f) p) eqn:E.
  - apply str_eqb_eq in E; split; [discriminate|tauto].
  - rewrite IH; split; [|tauto].
    intros H [H1|H1]; [|tauto].
    rewrite H1, str_eqb_refl in E; discriminate.
Qed.

Lemma updateFile_nodup (prev : list FetchedFileStatus)
  (file : FetchedFileStatus) :
  NoDup (map fs_path prev) -> NoDup (map fs_path (updateFile prev file)).
Proof.
  intros Hnd; rewrite paths_updateFile.
  destruct (lookup (fs_path file) prev) eqn:E; [exact Hnd|].
  apply lookup_None in E.
  apply NoDup_app; [exact Hnd|repeat constructor; intros []|].
  intros a Ha [<-|[]]; contradiction.
Qed.

(** X7. The status list is updated by path: after [updateFile] the entry
    found for the path of the update is the update and the entries found
    for the other paths are the old ones; the paths of the list stay as
    they are when the path was listed and get the new path at the end
    when it was not, so a list without repeated paths stays so. *)
Theorem updateFile_upsert (prev : list FetchedFileStatus)
  (file : FetchedFileStatus) :
  lookup (fs_path file) (updateFile prev file) = Some file
  /\ (forall p, p <> fs_path file ->
        lookup p (updateFile prev file) = lookup p prev)
  /\ (In (fs_path file) (map fs_path prev) ->
      map fs_path (updateFile prev file) = map fs_path prev)
  /\ (~ In (fs_path file) (map fs_path prev) ->
      updateFile prev file = prev ++ [file])
  /\ (NoDup (map fs_path prev) ->
      NoDup (map fs_path (updateFile prev file))).
Proof.
  split; [|split; [|split; [|split]]].
  - now rewrite lookup_updateFile, str_eqb_refl.
  - intros p Hp; rewrite lookup_updateFile, str_eqb_neq; auto.
  - intros Hin; rewrite paths_updateFile.
    destruct (lookup (fs_path file) prev) eqn:E; [reflexivity|].
    apply lookup_None in E; contradiction.
  - intros Hin; apply lookup_None in Hin.
    unfold updateFile; unfold lookup in Hin; now rewrite Hin.
  - apply updateFile_nodup.
Qed.

Lemma updateFile_upsert_witness :
  let a := mkStatus (lit "a.ts") None pending in
  let b := mkStatus (lit "b.ts") None pending in
  let a' := mkStatus (lit "a.ts") None success in
  map fs_path (updateFile [a; b] a') = [lit "a.ts"; lit "b.ts"]
  /\ updateFile [a] b = [a; b].
Proof.
  intros a b a'; split.
  - apply (updateFile_upsert [a; b] a'); left; reflexivity.
  - apply (updateFile_upsert [a] b); intros [H|[]]; discriminate.
Defined.

Lemma fetchedFiles_fold (evs : list Event) :
  forall acc,
    fold_left apply_event evs acc
    = fold_left updateFile (statuses_of evs) acc.
Proof.
  induction evs as [|[msg|f] evs IH]; intros acc; cbn; auto.
Qed.

Lemma fold_lookup (p : jsstring) (l : list FetchedFileStatus) :
  forall acc,
    lookup p (fold_left updateFile l acc)
    = match last_update p l with
      | Some f => Some f
      | None => lookup p acc
      end.
Proof.
  unfold last_update; induction l as [|x l IH]; intros acc; [reflexivity|].
  cbn [fold_left rev]; rewrite IH, find_app_first, lookup_updateFile.
  destruct (find (fun f => str_eqb (fs_path f) p) (rev l));
    [reflexivity|].
  cbn [find]; destruct (str_eqb (fs_path x) p); reflexivity.
Qed.

Lemma fold_nodup (l : list FetchedFileStatus) :
  forall acc,
    NoDup (map fs_path acc) ->
    NoDup (map fs_path (fold_left updateFile l acc)).
Proof.
  induction l as [|x l IH]; intros acc H; [exact H|].
  cbn [fold_left]; apply IH; now apply updateFile_nodup.
Qed.

(** X8. The view shows the last status sent for each path: the entry found
    for a path in [fetchedFiles] is the last update for that path among
    the calls of [onFileUpdate], and no path is listed twice. *)
Theorem fetchedFiles_last_update (evs : list Event) (p : jsstring) :
  lookup p (fetchedFiles evs) = last_update p (statuses_of evs)
  /\ NoDup (map fs_path (fetchedFiles evs)).
Proof.
  unfold fetchedFiles; rewrite fetchedFiles_fold; split.
  - rewrite fold_lookup.
    destruct (last_update p (statuses_of evs)); reflexivity.
  - apply fold_nodup; constructor.
Qed.

(** *** The statuses shown after a download *)

Lemma statuses_of_app (a b : list Event) :
  statuses_of (a ++ b) = statuses_of a ++ statuses_of b.
Proof.
  induction a as [|[msg|f] a IH]; cbn; [reflexivity|exact IH|].
  now rewrite IH.
Qed.

Lemma statuses_of_updates (l : list Event) :
  statuses_of l = statuses_of (filter is_file_update l).
Proof.
  induction l as [|[msg|f] l IH]; cbn; [reflexivity|exact IH|].
  now rewrite IH.
Qed.

Section Shown.

Variable fetch_raw : jsstring -> FetchOutcome jsstring.
Variable info : RepoInfo.
Variable br : jsstring.

Local Abbreviation terminal := (terminal_update fetch_raw info br).
Local Abbreviation settled := (settled_status fetch_raw info br).

Lemma terminal_statuses (f : TreeNode) :
  statuses_of (terminal f)
  = match settled f with
    | Some st => [status_of st f]
    | None => []
    end.
Proof.
  unfold terminal_update, settled_status.
  destruct (fetch_raw (rawUrl info br (path f))) as [res| |];
    [destruct (ok res)| |]; reflexivity.
Qed.

Lemma terminal_paths (l : list TreeNode) (p : jsstring) :
  In p (map fs_path (statuses_of (flat_map terminal l))) ->
  In p (map path l).
Proof.
  induction l as [|g l IH]; [intros []|].
  cbn [flat_map]; rewrite statuses_of_app, map_app, terminal_statuses.
  intros H; apply in_app_or in H; destruct H as [H|H].
  - destruct (settled g); [|contradiction].
    destruct H as [<-|[]]; now left.
  - right; now apply IH.
Qed.

Lemma terminal_lookup (l : list TreeNode) :
  NoDup (map path l) ->
  forall f,
    (In f l ->
     lookup (path f) (statuses_of (flat_map terminal l))
     = option_map (fun st => status_of st f) (settled f))
    /\ (~ In (path f) (map path l) ->
        lookup (path f) (statuses_of (flat_map terminal l)) = None).
Proof.
  induction l as [|g l IH]; intros Hnd f.
  - split; [intros []|reflexivity].
  - cbn [map] in Hnd; inversion Hnd as [|? ? Hg Hl]; subst.
    specialize (IH Hl f); destruct IH as [IH1 IH2].
    cbn [flat_map]; rewrite statuses_of_app, terminal_statuses.
    unfold lookup in *; rewrite find_app_first.
    split.
    + intros [->|Hf].
      * destruct (settled f) as [st|]; cbn [find status_of fs_path];
          [now rewrite str_eqb_refl|].
        cbn [option_map]; apply IH2; exact Hg.
      * assert (Hne : path g <> path f).
        { intros E; apply Hg; rewrite E; now apply in_map. }
        destruct (settled g) as [st|]; cbn [find status_of fs_path];
          [rewrite (str_eqb_neq Hne)|]; now apply IH1.
    + intros Hn; cbn [map] in Hn.
      assert (Hne : path g <> path f) by (intros E; apply Hn; now left).
      destruct (settled g) as [st|]; cbn [find status_of fs_path];
        [rewrite (str_eqb_neq Hne)|]; apply IH2; intros H; apply Hn;
        now right.
Qed.

Lemma terminal_nodup (l : list TreeNode) :
  NoDup (map path l) ->
  NoDup (map fs_path (statuses_of (flat_map terminal l))).
Proof.
  induction l as [|g l IH]; intros Hnd; [constructor|].
  cbn [map] in Hnd; inversion Hnd as [|? ? Hg Hl]; subst.
  cbn [flat_map]; rewrite statuses_of_app, map_app, terminal_statuses.
  destruct (settled g) as [st|]; cbn [map app status_of fs_path];
    [|now apply IH].
  constructor; [|now apply IH].
  intros H; apply Hg; now apply terminal_paths.
Qed.

End Shown.

Lemma last_is_first (p : jsstring) (l : list FetchedFileStatus) :
  NoDup (map fs_path l) -> last_update p l = lookup p l.
Proof.
  unfold last_update, lookup; induction l as [|x l IH]; intros Hnd;
    [reflexivity|].
  cbn [map] in Hnd; inversion Hnd as [|? ? Hx Hl]; subst.
  cbn [rev find]; rewrite find_app_first, (IH Hl); cbn [find].
  destruct (str_eqb (fs_path x) p) eqn:E.
  - apply str_eqb_eq in E; subst p.
    apply lookup_None in Hx; unfold lookup in Hx; now rewrite Hx.
  - destruct (find (fun f => str_eqb (fs_path f) p) l); reflexivity.
Qed.

Lemma pending_fold (l : list TreeNode) :
  forall acc,
    NoDup (map fs_path acc ++ map path l) ->
    fold_left updateFile (map (status_of pending) l) acc
    = acc ++ map (status_of pending) l.
Proof.
  induction l as [|f l IH]; intros acc Hnd; cbn [map fold_left];
    [now rewrite app_nil_r|].
  assert (Hf : ~ In (path f) (map fs_path acc)).
  { intros H; apply NoDup_remove_2 in Hnd; apply Hnd.
    apply in_or_app; now left. }
  assert (U : updateFile acc (status_of pending f)
              = acc ++ [status_of pending f]).
  { apply lookup_None in Hf; unfold updateFile, lookup in *.
    cbn [status_of fs_path]; now rewrite Hf. }
  rewrite U, IH, <- app_assoc; [reflexivity|].
  rewrite map_app, <- app_assoc; exact Hnd.
Qed.

Lemma pending_lookup (l : list TreeNode) (f : TreeNode) :
  NoDup (map path l) -> In f l ->
  lookup (path f) (map (status_of pending) l) = Some (status_of pending f).
Proof.
  unfold lookup; induction l as [|g l IH]; intros Hnd Hin; [contradiction|].
  cbn [map] in Hnd; inversion Hnd as [|? ? Hg Hl]; subst.
  cbn [map find status_of fs_path].
  destruct Hin as [->|Hin]; [now rewrite str_eqb_refl|].
  rewrite str_eqb_neq; [now apply IH|].
  intros E; apply Hg; rewrite E; now apply in_map.
Qed.

Lemma stable_paths (l acc : list FetchedFileStatus) :
  (forall p, In p (map fs_path l) -> In p (map fs_path acc)) ->
  map fs_path (fold_left updateFile l acc) = map fs_path acc.
Proof.
  revert acc; induction l as [|x l IH]; intros acc H; [reflexivity|].
  assert (Hx : map fs_path (updateFile acc x) = map fs_path acc).
  { rewrite paths_updateFile.
    destruct (lookup (fs_path x) acc) eqn:E; [reflexivity|].
    apply lookup_None in E; elim E; apply H; now left. }
  cbn [fold_left]; rewrite IH, Hx; [reflexivity|].
  intros p Hp; rewrite Hx; apply H; now right.
Qed.

Lemma nodup_disjoint {A} (l1 l2 : list A) (a : A) :
  NoDup (l1 ++ l2) -> In a l1 -> In a l2 -> False.
Proof.
  induction l1 as [|x l1 IH]; intros Hnd H1 H2; [contradiction|].
  cbn in Hnd; inversion Hnd as [|? ? Hx Hl]; subst.
  destruct H1 as [->|H1]; [|now apply IH].
  apply Hx, in_or_app; now right.
Qed.

Lemma nodup_firstn {A} (n : nat) (l : list A) :
  NoDup l -> NoDup (firstn n l).
Proof.
  intros H; rewrite <- (firstn_skipn n l) in H.
  now apply NoDup_app_remove_r in H.
Qed.

Lemma download_updates
  (fetch_raw : jsstring -> FetchOutcome jsstring)
  (latency : nat -> nat)
  (signal : option (nat -> bool)) (options : FetchOptions)
  (info : RepoInfo) (br : jsstring) (repoData : RepoData)
  (files : list TreeNode) (evs : list Event) :
  exists k,
    (length files <= k * batchSize \/ aborted signal k = true)
    /\ Permutation (reported latency files 0 k)
         (firstn (k * batchSize) files)
    /\ filter is_file_update
         (fst (download fetch_raw latency signal options info br repoData
                 files evs))
       = filter is_file_update evs
         ++ flat_map (terminal_update fetch_raw info br)
              (reported latency files 0 k).
Proof.
  unfold download.
  set (st0 := mkDl 0 [] _).
  destruct (@FetchFacts.download_loop_spec fetch_raw latency signal options
              info br files (S (length files)) 0 st0)
    as (k & st' & L1 & _ & _ & L4 & _).
  { cbn [Nat.mul skipn]; unfold batchSize; lia. }
  destruct (@SessionFacts.download_loop_trace fetch_raw latency signal
              options info br files (S (length files)) 0 st0)
    as (k' & st'' & M1 & _ & M3 & _).
  { cbn [Nat.mul skipn]; unfold batchSize; lia. }
  rewrite L1 in M1; injection M1 as <- <-.
  cbn [Nat.mul skipn] in L1; rewrite Nat.sub_0_r in M3.
  assert (E0 : filter is_file_update (events st0) = filter is_file_update evs).
  { unfold st0; cbn [events]; rewrite filter_app; cbn; apply app_nil_r. }
  rewrite E0 in M3; rewrite L1.
  exists k; split; [exact L4|].
  split; [apply (SessionFacts.reported_perm latency files k 0)|].
  destruct ((length (results st') =? 0) && negb (aborted signal k));
    cbn [fst]; [exact M3|].
  rewrite filter_app; cbn [filter is_file_update]; rewrite app_nil_r.
  exact M3.
Qed.

Lemma download_shown
  (fetch_raw : jsstring -> FetchOutcome jsstring)
  (latency : nat -> nat)
  (signal : option (nat -> bool)) (options : FetchOptions)
  (info : RepoInfo) (br : jsstring) (repoData : RepoData)
  (files : list TreeNode) (evs : list Event) :
  NoDup (map path files) ->
  statuses_of evs = map (status_of pending) files ->
  let shown :=
    fetchedFiles
      (fst (download fetch_raw latency signal options info br repoData
              files evs)) in
  exists k,
    let attempted := firstn (k * batchSize) files in
    (length files <= k * batchSize \/ aborted signal k = true)
    /\ map fs_path shown = map path files
    /\ (forall f, In f attempted ->
          lookup (path f) shown
          = Some (status_of (shown_status fetch_raw info br f) f))
    /\ (forall f, In f files -> ~ In f attempted ->
          lookup (path f) shown = Some (status_of pending f)).
Proof.
  intros Hnd Hev shown; subst shown.
  destruct (download_updates fetch_raw latency signal options info br
              repoData files evs) as (k & Hk & Hperm & Hu).
  exists k; cbv zeta.
  set (att := firstn (k * batchSize) files) in *.
  set (ord := reported latency files 0 k) in *.
  set (T := statuses_of (flat_map (terminal_update fetch_raw info br) ord)).
  assert (Hatt : NoDup (map path att)).
  { unfold att; rewrite <- firstn_map; now apply nodup_firstn. }
  assert (Hpp : Permutation (map path ord) (map path att))
    by now apply Permutation_map.
  assert (Hord : NoDup (map path ord)).
  { apply (Permutation_NoDup (Permutation_sym Hpp)); exact Hatt. }
  assert (Hst : statuses_of
                  (fst (download fetch_raw latency signal options info br
                          repoData files evs))
                = map (status_of pending) files ++ T).
  { rewrite statuses_of_updates, Hu, statuses_of_app,
      <- statuses_of_updates, Hev; reflexivity. }
  assert (Hfold : fetchedFiles
                    (fst (download fetch_raw latency signal options info br
                            repoData files evs))
                  = fold_left updateFile T (map (status_of pending) files)).
  { unfold fetchedFiles; rewrite fetchedFiles_fold, Hst, fold_left_app.
    rewrite pending_fold; [reflexivity|exact Hnd]. }
  assert (Hpaths : map fs_path (map (status_of pending) files)
                   = map path files).
  { rewrite map_map; reflexivity. }
  assert (Hlast : forall p, last_update p T = lookup p T).
  { intros p; apply last_is_first; now apply terminal_nodup. }
  rewrite Hfold.
  split; [exact Hk|]. split.
  - rewrite stable_paths; [exact Hpaths|].
    intros p Hp; rewrite Hpaths.
    apply terminal_paths in Hp.
    apply (Permutation_in _ Hpp) in Hp.
    unfold att in Hp; rewrite <- firstn_map in Hp.
    now apply In_firstn in Hp.
  - split.
    + intros f Hf; rewrite fold_lookup, Hlast.
      assert (Hf' : In f ord)
        by (apply (Permutation_in _ (Permutation_sym Hperm)); exact Hf).
      destruct (@terminal_lookup fetch_raw info br ord Hord f) as [H1 _].
      unfold T; rewrite (H1 Hf'); unfold shown_status.
      destruct (settled_status fetch_raw info br f); [reflexivity|].
      cbn [option_map]; apply pending_lookup; [exact Hnd|].
      now apply In_firstn in Hf.
    + intros f Hf Hn; rewrite fold_lookup, Hlast.
      destruct (@terminal_lookup fetch_raw info br ord Hord f) as [_ H2].
      unfold T; rewrite H2; [now apply pending_lookup|].
      intros Hp; apply (Permutation_in _ Hpp) in Hp; apply Hn.
      assert (Hsplit : files = att ++ skipn (k * batchSize) files)
        by (symmetry; apply firstn_skipn).
      rewrite Hsplit in Hf; apply in_app_or in Hf.
      destruct Hf as [Hf|Hf]; [exact Hf|].
      rewrite Hsplit, map_app in Hnd.
      exfalso; apply (@nodup_disjoint _ _ _ (path f) Hnd Hp).
      now apply in_map.
Qed.

(** *** The whole session *)

Section Session.

Variable URL_new : jsstring -> option URL.
Variable fetch_repo : jsstring -> FetchOutcome RepoData.
Variable fetch_tree : jsstring -> FetchOutcome TreeData.
Variable fetch_raw : jsstring -> FetchOutcome jsstring.
Variable latency : nat -> nat.
Variable url : jsstring.
Variable allowedExtensions : list jsstring.
Variable signal : option (nat -> bool).
Variable options : FetchOptions.
Variable info : RepoInfo.
Variable repoRes : Response RepoData.
Variable treeRes : Response TreeData.

Local Abbreviation session :=
  (fetchGithubRepoContents URL_new fetch_repo fetch_tree fetch_raw latency url
     allowedExtensions signal options).
Local Abbreviation br :=
  (or_else (branch options)
     (or_else (default_branch (body repoRes)) (lit "main"))).
Local Abbreviation files :=
  (filesToFetch allowedExtensions options (tree_nodes (body treeRes))).

Hypothesis parsed : parseGithubUrl URL_new url = Some info.
Hypothesis repo_found : fetch_repo (api_repo_url info) = Resolved repoRes.
Hypothesis repo_ok : ok repoRes = true.
Hypothesis tree_found : fetch_tree (api_tree_url info br) = Resolved treeRes.
Hypothesis tree_ok : ok treeRes = true.

Lemma session_download :
  exists before,
    filter is_file_update before = []
    /\ session
       = match files with
         | [] => (before, inl NoFilesFound)
         | _ =>
             download fetch_raw latency signal options info br
               (body repoRes) files (before ++ map pending_update files)
         end.
Proof.
  unfold fetchGithubRepoContents.
  rewrite parsed, repo_found, repo_ok; cbn [negb].
  rewrite tree_found, tree_ok; cbn [negb].
  eexists; split; [|destruct files; reflexivity].
  destruct (truncated (body treeRes)); reflexivity.
Qed.

Lemma download_outcome (repoData : RepoData) (l : list TreeNode)
  (evs : list Event) :
  let out := download fetch_raw latency signal options info br repoData l evs in
  snd out = inl DownloadFailed
  \/ exists text,
       snd out
       = inr (mkResult (header info br repoData ++ text)
                (mkDetails (owner info) (repo info) br)).
Proof.
  unfold download.
  destruct (download_loop fetch_raw latency signal options info br
              (S (length l)) l 0 _) as [st k].
  destruct ((length (results st) =? 0) && negb (aborted signal k));
    cbn [snd]; [now left|right; eexists; reflexivity].
Qed.

End Session.

(** X9. A session whose metadata and tree lookups succeed fails only with
    [NoFilesFound], exactly when no file passes the filter, or with
    [DownloadFailed]; a returned corpus starts with the header and its
    details name the parsed owner and repository and the branch used for
    the lookups, which is the caller's branch when that is a non-empty
    string, else the default branch of the repository when that is a
    non-empty string, else [main]. *)
Theorem session_result
  (URL_new : jsstring -> option URL)
  (fetch_repo : jsstring -> FetchOutcome RepoData)
  (fetch_tree : jsstring -> FetchOutcome TreeData)
  (fetch_raw : jsstring -> FetchOutcome jsstring)
  (latency : nat -> nat)
  (url : jsstring) (allowedExtensions : list jsstring)
  (signal : option (nat -> bool)) (options : FetchOptions)
  (info : RepoInfo) (repoRes : Response RepoData)
  (treeRes : Response TreeData) :
  let br :=
    or_else (branch options)
      (or_else (default_branch (body repoRes)) (lit "main")) in
  let out :=
    fetchGithubRepoContents URL_new fetch_repo fetch_tree fetch_raw latency url
      allowedExtensions signal options in
  parseGithubUrl URL_new url = Some info ->
  fetch_repo (api_repo_url info) = Resolved repoRes ->
  ok repoRes = true ->
  fetch_tree (api_tree_url info br) = Resolved treeRes ->
  ok treeRes = true ->
  (snd out = inl NoFilesFound <->
   filesToFetch allowedExtensions options (tree_nodes (body treeRes)) = [])
  /\ (forall e, snd out = inl e -> e = NoFilesFound \/ e = DownloadFailed)
  /\ (forall res, snd out = inr res ->
        repoDetails res = mkDetails (owner info) (repo info) br
        /\ startsWith (r_content res) (header info br (body repoRes)) = true)
  /\ (forall b, branch options = Some b -> b <> [] -> br = b)
  /\ (branch options = None \/ branch options = Some [] ->
      forall d, default_branch (body repoRes) = Some d -> d <> [] -> br = d)
  /\ (branch options = None \/ branch options = Some [] ->
      default_branch (body repoRes) = None
      \/ default_branch (body repoRes) = Some [] ->
      br = lit "main").
Proof.
  intros br out Hp Hr Hrok Ht Htok; subst out.
  destruct (@session_download URL_new fetch_repo fetch_tree fetch_raw
              latency url allowedExtensions signal options info repoRes
              treeRes Hp Hr Hrok Ht Htok) as (before & Hb & Hs).
  fold br in Hs; rewrite Hs.
  set (fs := filesToFetch allowedExtensions options (tree_nodes (body treeRes)))
    in *.
  split; [|split; [|split]].
  - destruct fs as [|f fs'] eqn:E; cbn [snd]; [tauto|].
    split; [|discriminate].
    destruct (@download_outcome fetch_raw latency signal options info repoRes
                (body repoRes) (f :: fs')
                (before ++ map pending_update (f :: fs'))) as [H|[t H]];
      fold br in H; rewrite H; discriminate.
  - intros e; destruct fs as [|f fs'] eqn:E; cbn [snd].
    + intros H; injection H as <-; now left.
    + destruct (@download_outcome fetch_raw latency signal options info repoRes
                  (body repoRes) (f :: fs')
                  (before ++ map pending_update (f :: fs'))) as [H|[t H]];
        fold br in H; rewrite H; [|discriminate].
      intros H'; injection H' as <-; now right.
  - intros res; destruct fs as [|f fs'] eqn:E; cbn [snd]; [discriminate|].
    destruct (@download_outcome fetch_raw latency signal options info repoRes
                (body repoRes) (f :: fs')
                (before ++ map pending_update (f :: fs'))) as [H|[t H]];
      fold br in H; rewrite H; [discriminate|].
    intros H'; injection H' as <-; cbn [repoDetails r_content].
    split; [reflexivity|apply startsWith_iff; now exists t].
  - subst br; unfold or_else; repeat split.
    + intros b -> Hb'; destruct b; [congruence|reflexivity].
    + intros [->| ->] d -> Hd; destruct d; try congruence; reflexivity.
    + intros [->| ->] [->| ->]; reflexivity.
Qed.

Lemma session_result_witness :
  snd scenario <> inl NoFilesFound
  /\ forall res, snd scenario = inr res ->
       repoDetails res = mkDetails (lit "octo") (lit "demo") (lit "main").
Proof.
  assert (P : parseGithubUrl sample_URL_new sample_url
              = Some (mkRepoInfo (lit "octo") (lit "demo")))
    by reflexivity.
  destruct (@session_result sample_URL_new (fun _ => OK sample_data)
              (fun _ => OK (mkTree scenario_nodes false)) scenario_fetch_raw
              scenario_latency sample_url [] None default_options
              (mkRepoInfo (lit "octo") (lit "demo"))
              (mkResponse 200%Z (lit "OK") sample_data)
              (mkResponse 200%Z (lit "OK") (mkTree scenario_nodes false))
              P eq_refl eq_refl eq_refl eq_refl)
    as (H1 & _ & H3 & _).
  unfold scenario; split.
  - intros H; apply (proj1 H1) in H; vm_compute in H; discriminate.
  - intros res Hres; destruct (H3 res Hres) as [Hd _].
    rewrite Hd; reflexivity.
Defined.

(** X10. The view after a session whose lookups succeed: when the selected
    files have distinct paths, the list of the view has one entry per
    selected file, in priority order; with [k] the number of batches that
    ran, a file of these batches is shown with [success] when its fetch
    answered 2xx, with [error] when it answered otherwise or was
    rejected, and stays [pending] when its fetch was rejected by an
    abort; the files of later batches stay [pending]. *)
Theorem session_shown
  (URL_new : jsstring -> option URL)
  (fetch_repo : jsstring -> FetchOutcome RepoData)
  (fetch_tree : jsstring -> FetchOutcome TreeData)
  (fetch_raw : jsstring -> FetchOutcome jsstring)
  (latency : nat -> nat)
  (url : jsstring) (allowedExtensions : list jsstring)
  (signal : option (nat -> bool)) (options : FetchOptions)
  (info : RepoInfo) (repoRes : Response RepoData)
  (treeRes : Response TreeData) :
  let br :=
    or_else (branch options)
      (or_else (default_branch (body repoRes)) (lit "main")) in
  let files :=
    filesToFetch allowedExtensions options (tree_nodes (body treeRes)) in
  let shown :=
    fetchedFiles
      (fst (fetchGithubRepoContents URL_new fetch_repo fetch_tree fetch_raw
              latency url allowedExtensions signal options)) in
  parseGithubUrl URL_new url = Some info ->
  fetch_repo (api_repo_url info) = Resolved repoRes ->
  ok repoRes = true ->
  fetch_tree (api_tree_url info br) = Resolved treeRes ->
  ok treeRes = true ->
  NoDup (map path files) ->
  exists k,
    let attempted := firstn (k * batchSize) files in
    (length files <= k * batchSize \/ aborted signal k = true)
    /\ map fs_path shown = map path files
    /\ (forall f, In f attempted ->
          lookup (path f) shown
          = Some (status_of (shown_status fetch_raw info br f) f))
    /\ (forall f, In f files -> ~ In f attempted ->
          lookup (path f) shown = Some (status_of pending f)).
Proof.
  intros br files shown Hp Hr Hrok Ht Htok Hnd; subst shown.
  destruct (@session_download URL_new fetch_repo fetch_tree fetch_raw
              latency url allowedExtensions signal options info repoRes
              treeRes Hp Hr Hrok Ht Htok) as (before & Hb & Hs).
  fold br files in Hs; rewrite Hs.
  assert (Hst : statuses_of (before ++ map pending_update files)
                = map (status_of pending) files).
  { rewrite statuses_of_app, (statuses_of_updates before), Hb.
    cbn [statuses_of app].
    clear; induction files as [|f l IH]; cbn; [reflexivity|now rewrite IH]. }
  destruct files as [|f0 fs] eqn:E.
  - exists 0; cbv zeta; cbn [fst firstn].
    split; [left; cbn; lia|].
    unfold fetchedFiles; rewrite fetchedFiles_fold, statuses_of_updates, Hb.
    split; [reflexivity|]. split; intros f [].
  - rewrite <- E in *.
    apply (@download_shown fetch_raw latency signal options info br
             (body repoRes) files (before ++ map pending_update files)
             Hnd Hst).
Qed.

Lemma session_shown_witness :
  map fs_path (fetchedFiles (fst scenario)) = map path scenario_nodes
  /\ lookup (lit "f1.ts") (fetchedFiles (fst scenario))
     = Some (mkStatus (lit "f1.ts") (Some 120%Z) success)
  /\ lookup (lit "f8.ts") (fetchedFiles (fst scenario))
     = Some (mkStatus (lit "f8.ts") (Some 120%Z) error).
Proof.
  assert (P : parseGithubUrl sample_URL_new sample_url
              = Some (mkRepoInfo (lit "octo") (lit "demo")))
    by reflexivity.
  assert (N : NoDup (map path
                       (filesToFetch [] default_options
                          (tree_nodes (mkTree scenario_nodes false))))).
  { apply (NoDup_map_inv (fun p => p)); rewrite map_id.
    vm_compute; repeat constructor; cbn; intuition discriminate. }
  destruct (@session_shown sample_URL_new (fun _ => OK sample_data)
              (fun _ => OK (mkTree scenario_nodes false)) scenario_fetch_raw
              scenario_latency sample_url [] None default_options
              (mkRepoInfo (lit "octo") (lit "demo"))
              (mkResponse 200%Z (lit "OK") sample_data)
              (mkResponse 200%Z (lit "OK") (mkTree scenario_nodes false))
              P eq_refl eq_refl eq_refl eq_refl N)
    as (k & Hk & Hpaths & Hatt & _).
  unfold scenario; split.
  - rewrite Hpaths; vm_compute; reflexivity.
  - vm_compute; split; reflexivity.
Defined.

End ViewFacts.

(* ===================================================================== *)
(** ** Further properties of the chunker *)
(* ===================================================================== *)

Module ChunkerMore.
Import Str Arr Rag Spec Props StrFacts ChunkerFacts IndexFacts.

(** *** Text without file records *)

Lemma regex_exec_no_open (s : jsstring) :
  includes s OPEN = false -> regex_exec s = None.
Proof.
  unfold includes; induction s as [|c s IH]; intros H.
  - reflexivity.
  - destruct (find_literal OPEN (c :: s)) eqn:F; [discriminate|].
    apply find_literal_None_cons in F; destruct F as [F1 F2].
    cbn [regex_exec]; unfold match_here; rewrite F1.
    apply IH; now rewrite F2.
Qed.

(** X11. A text that does not contain [--- FILE: ], such as pasted code,
    yields no chunk: the index built from it is empty, no embedding is
    requested, and every search over that index returns the empty list
    without a request. *)
Theorem text_without_records
  (generateEmbedding : nat -> jsstring -> option (list float))
  (codeContext query : jsstring) (n : nat) (topK : Z) :
  includes codeContext OPEN = false ->
  chunkCode codeContext = []
  /\ indexCodebase generateEmbedding codeContext = mkIndex [] [] []
  /\ searchCodebase generateEmbedding n query
       (indexedChunks (indexCodebase generateEmbedding codeContext)) topK
     = ([], []).
Proof.
  intros H.
  assert (C : chunkCode codeContext = []).
  { unfold chunkCode; destruct (length codeContext); cbn [chunk_loop];
      [reflexivity|].
    now rewrite (regex_exec_no_open _ H). }
  split; [exact C|].
  assert (I : indexCodebase generateEmbedding codeContext = mkIndex [] [] []).
  { unfold indexCodebase; rewrite C; reflexivity. }
  split; [exact I|].
  rewrite I; reflexivity.
Qed.

Lemma text_without_records_witness :
  chunkCode (lit "function main() { return 1; }") = [].
Proof.
  apply (text_without_records (fun _ _ => None)
           (lit "function main() { return 1; }") (lit "main") 0 3).
  vm_compute; reflexivity.
Defined.

(** *** The sizes of the sub-chunks *)

Lemma pieces_count (n : nat) :
  0 < n ->
  forall fuel s,
    length s <= fuel ->
    n * (length (pieces fuel n s) - 1) < length s + (1 - length s)
    /\ length s <= n * length (pieces fuel n s)
    /\ (s = [] -> pieces fuel n s = []).
Proof.
  intros Hn; induction fuel as [|fuel IH]; intros s Hs.
  - destruct s; [cbn; repeat split; lia|cbn in Hs; lia].
  - destruct s as [|c s]; [cbn; repeat split; lia|].
    cbn [pieces length].
    destruct (IH (skipn n (c :: s))) as (I1 & I2 & I3).
    { rewrite length_skipn; cbn [length] in *; lia. }
    rewrite length_skipn in I1, I2; cbn [length] in I1, I2.
    split; [|split; [|discriminate]].
    + destruct (Nat.le_gt_cases (S (length s)) n) as [Hle|Hgt].
      * rewrite I3; [cbn; lia|].
        apply length_zero_iff_nil; rewrite length_skipn; cbn [length]; lia.
      * nia.
    + nia.
Qed.

Lemma pieces_full (n : nat) :
  0 < n ->
  forall fuel s,
    length s <= fuel ->
    Forall (fun x => length x = n) (removelast (pieces fuel n s))
    /\ Forall (fun x => 0 < length x) (pieces fuel n s).
Proof.
  intros Hn; induction fuel as [|fuel IH]; intros s Hs.
  - cbn; split; constructor.
  - destruct s as [|c s]; [cbn; split; constructor|].
    cbn [pieces].
    destruct (IH (skipn n (c :: s))) as [I1 I2].
    { rewrite length_skipn; cbn [length] in *; lia. }
    split.
    + destruct (pieces fuel n (skipn n (c :: s))) as [|y l] eqn:E;
        [cbn; constructor|].
      change (removelast (firstn n (c :: s) :: y :: l))
        with (firstn n (c :: s) :: removelast (y :: l)).
      constructor; [|exact I1].
      rewrite length_firstn; apply Nat.min_l.
      destruct (Nat.le_gt_cases n (length (c :: s))) as [H|H]; [exact H|].
      assert (Z : skipn n (c :: s) = []).
      { apply length_zero_iff_nil; rewrite length_skipn; lia. }
      rewrite Z in E; destruct fuel; discriminate.
    + constructor; [|exact I2].
      rewrite length_firstn; cbn [length]; lia.
Qed.

Lemma map_removelast_content (l : list CodeChunk) :
  map content (removelast l) = removelast (map content l).
Proof.
  induction l as [|c [|d l] IH]; [reflexivity|reflexivity|].
  change (removelast (c :: d :: l)) with (c :: removelast (d :: l)).
  cbn [map] in *; now rewrite IH.
Qed.

(** X12. A file body of more than 2000 characters is pushed as sub-chunks
    whose contents are the pieces of the body: every piece but the last
    has exactly 2000 characters, the last has between 1 and 2000, and
    their number is the least that covers the body; a body of at most
    2000 characters is pushed as one chunk. *)
Theorem sub_chunk_sizes (idx : nat) (chunks : list CodeChunk)
  (name body : jsstring) :
  exists group,
    push_file (idx, chunks) name body
    = (idx + length group, chunks ++ group)
    /\ concat (map content group) = body
    /\ (length body <= 2000 -> group = [mkChunk (chunk_id idx) name body None])
    /\ (2000 < length body ->
        Forall (fun c => length (content c) = 2000) (removelast group)
        /\ Forall (fun c => 0 < length (content c) <= 2000) group
        /\ 2000 * (length group - 1) < length body <= 2000 * length group).
Proof.
  exists (file_group idx name body).
  split; [apply push_file_group|].
  unfold file_group.
  destruct (2000 <? length body) eqn:E.
  - apply Nat.ltb_lt in E.
    set (parts := match_all 2000 body).
    destruct (number_parts_names name
                (combine (seq 0 (length parts)) parts) idx) as (_ & H2 & H3).
    destruct (combine_seq_fst parts 0) as (_ & G2 & G3).
    assert (Hc : map content
                   (number_parts name idx
                      (combine (seq 0 (length parts)) parts)) = parts)
      by now rewrite H2, G2.
    assert (P0 : 0 < 2000) by lia.
    destruct (@pieces_full 2000 P0 (length body) body (le_n _)) as [F1 F2].
    destruct (@pieces_count 2000 P0 (length body) body (le_n _))
      as (C1 & C2 & _).
    fold (match_all 2000 body) in F1, F2, C1, C2; fold parts in F1, F2, C1, C2.
    split; [rewrite Hc; apply match_all_concat; lia|].
    split; [lia|]. intros _.
    assert (Hl : length (number_parts name idx
                           (combine (seq 0 (length parts)) parts))
                 = length parts) by now rewrite H3, G3.
    split; [|split].
    + rewrite <- Forall_map with (f := content) (P := fun x => length x = 2000).
      rewrite map_removelast_content, Hc; exact F1.
    + rewrite <- Forall_map with (f := content)
        (P := fun x => 0 < length x <= 2000).
      rewrite Hc.
      pose proof (pieces_bound (length body) 2000 body) as B.
      fold (match_all 2000 body) in B; fold parts in B.
      rewrite Forall_forall in *; intros x Hx; split; auto.
    + rewrite Hl; lia.
  - apply Nat.ltb_ge in E.
    split; [cbn; apply app_nil_r|]. split; [reflexivity|lia].
Qed.

(** *** The ids *)

(** X13. The ids count the chunks from zero in the order of the result: the
    chunk at position [i] has the id [chunk-i], whatever files and parts
    precede it. *)
Theorem chunk_ids_consecutive (fullCodeContext : jsstring) :
  map id (chunkCode fullCodeContext)
  = map chunk_id (seq 0 (length (chunkCode fullCodeContext)))
  /\ forall i c,
       nth_error (chunkCode fullCodeContext) i = Some c ->
       id c = lit "chunk-" ++ of_nat i.
Proof.
  unfold chunkCode.
  destruct (well_numbered_loop (length fullCodeContext) fullCodeContext
              (st := (0, []))) as (H1 & H2 & _).
  { repeat split; constructor. }
  rewrite <- H1; split; [exact H2|].
  intros i c Hc.
  assert (Hi : nth_error (map id (snd (chunk_loop (length fullCodeContext)
                                         fullCodeContext (0, [])))) i
               = Some (id c)) by now rewrite nth_error_map, Hc.
  rewrite H2, nth_error_map in Hi.
  destruct (nth_error (seq 0 (fst (chunk_loop (length fullCodeContext)
                                     fullCodeContext (0, [])))) i)
    as [j|] eqn:E; [|discriminate].
  assert (Hj : j = i).
  { remember (fst (chunk_loop (length fullCodeContext) fullCodeContext
                     (0, []))) as n.
    assert (Hlt : i < n).
    { assert (L : i < length (seq 0 n))
        by (apply nth_error_Some; congruence).
      now rewrite length_seq in L. }
    pose proof (nth_error_nth _ _ 0 E) as N.
    rewrite seq_nth in N by exact Hlt; lia. }
  subst j; cbn in Hi; injection Hi as <-; reflexivity.
Qed.

(** *** What a chunk never holds *)

Lemma find_literal_before (p s b r : jsstring) :
  p <> [] -> find_literal p s = Some (b, r) -> includes b p = false.
Proof.
  intros Hp; unfold includes; revert b.
  induction s as [|c s IH]; intros b H.
  - cbn in H; destruct p; [congruence|discriminate].
  - cbn [find_literal] in H.
    destruct (strip_prefix p (c :: s)) as [x|] eqn:E.
    + injection H as <- _; cbn.
      destruct p; [congruence|reflexivity].
    + destruct (find_literal p s) as [[b' r']|] eqn:F; [|discriminate].
      injection H as <- <-.
      specialize (IH b' eq_refl).
      apply find_literal_Some in F.
      cbn [find_literal].
      destruct (strip_prefix p (c :: b')) as [y|] eqn:E'.
      * apply strip_prefix_Some in E'.
        assert (E2 : strip_prefix p (c :: s) = Some (y ++ p ++ r')).
        { apply strip_prefix_iff; rewrite F.
          change (c :: b' ++ p ++ r') with ((c :: b') ++ p ++ r').
          rewrite E', <- app_assoc; reflexivity. }
        congruence.
      * destruct (find_literal p b'); [discriminate|reflexivity].
Qed.

Lemma match_after_open_clean (s name body rest : jsstring) :
  match_after_open s = Some (name, body, rest) ->
  existsb isLineTerminator name = false /\ includes body CLOSE = false.
Proof.
  revert name; induction s as [|c s IH]; intros name H.
  - cbn in H; discriminate.
  - assert (Hext :
      (if isLineTerminator c then None
       else match match_after_open s with
            | Some (n, b, r) => Some (c :: n, b, r)
            | None => None
            end) = Some (name, body, rest) ->
      existsb isLineTerminator name = false /\ includes body CLOSE = false).
    { destruct (isLineTerminator c) eqn:Ec; [discriminate|].
      destruct (match_after_open s) as [[[n b] r]|] eqn:E; [|discriminate].
      intros H'; injection H' as <- <- <-.
      destruct (IH _ eq_refl) as [I1 I2].
      split; [cbn [existsb]; now rewrite Ec, I1|exact I2]. }
    cbn [match_after_open] in H.
    destruct (strip_prefix MID (c :: s)) as [s2|] eqn:E1; [|now apply Hext].
    destruct (find_literal CLOSE s2) as [[b r]|] eqn:E2; [|now apply Hext].
    injection H as <- <- <-.
    split; [reflexivity|].
    apply find_literal_before in E2; [exact E2|discriminate].
Qed.

Lemma regex_exec_clean (s name body rest : jsstring) :
  regex_exec s = Some (name, body, rest) ->
  existsb isLineTerminator name = false /\ includes body CLOSE = false.
Proof.
  induction s as [|c s IH]; intros H.
  - cbn in H; discriminate.
  - cbn [regex_exec] in H.
    destruct (match_here (c :: s)) as [m|] eqn:E; [|now apply IH].
    injection H as ->; unfold match_here in E.
    destruct (strip_prefix OPEN (c :: s)); [|discriminate].
    now apply match_after_open_clean in E.
Qed.

Lemma includes_app_false (a b p : jsstring) :
  includes (a ++ b) p = false ->
  includes a p = false /\ includes b p = false.
Proof.
  intros H; split.
  - destruct (includes a p) eqn:E; [|reflexivity].
    apply includes_iff in E; destruct E as (x & y & ->).
    assert (T : includes ((x ++ p ++ y) ++ b) p = true).
    { apply includes_iff; exists x, (y ++ b).
      now rewrite <- !app_assoc. }
    congruence.
  - destruct (includes b p) eqn:E; [|reflexivity].
    apply includes_iff in E; destruct E as (x & y & ->).
    assert (T : includes (a ++ x ++ p ++ y) p = true).
    { apply includes_iff; exists (a ++ x), y.
      now rewrite <- !app_assoc. }
    congruence.
Qed.

Lemma pieces_clean (p : jsstring) (n fuel : nat) :
  forall s,
    includes s p = false ->
    Forall (fun x => includes x p = false) (pieces fuel n s).
Proof.
  induction fuel as [|fuel IH]; intros s H; [constructor|].
  destruct s as [|c s]; [constructor|].
  cbn [pieces]; rewrite <- (firstn_skipn n (c :: s)) in H.
  apply includes_app_false in H; destruct H as [H1 H2].
  constructor; [exact H1|now apply IH].
Qed.

Lemma digits_no_line_terminator (d : Decimal.uint) :
  existsb isLineTerminator (lit (NilEmpty.string_of_uint d)) = false.
Proof. induction d; cbn; auto. Qed.

Lemma existsb_app_false {A} (f : A -> bool) (a b : list A) :
  existsb f a = false -> existsb f b = false -> existsb f (a ++ b) = false.
Proof. intros Ha Hb; now rewrite existsb_app, Ha, Hb. Qed.

Lemma part_name_clean (name : jsstring) (i : nat) :
  existsb isLineTerminator name = false ->
  existsb isLineTerminator (part_name name i) = false.
Proof.
  intros H; unfold part_name, of_nat.
  repeat apply existsb_app_false; auto using digits_no_line_terminator.
Qed.

Lemma clean_parts (name : jsstring) (parts : list (nat * jsstring)) :
  existsb isLineTerminator name = false ->
  Forall (fun isc => includes (snd isc) CLOSE = false) parts ->
  forall st, Forall clean_chunk (snd st) ->
             Forall clean_chunk (snd (fold_left (push_part name) parts st)).
Proof.
  intros Hn; induction 1 as [|[i sc] parts Hsc Hp IH];
    intros [idx chunks] Hst; [exact Hst|].
  cbn [fold_left push_part]; apply IH; cbn [snd] in *.
  apply Forall_app; split; [exact Hst|].
  constructor; [|constructor].
  split; [now apply part_name_clean|exact Hsc].
Qed.

Lemma clean_loop (fuel : nat) :
  forall s st, Forall clean_chunk (snd st) ->
               Forall clean_chunk (snd (chunk_loop fuel s st)).
Proof.
  induction fuel as [|fuel IH]; intros s st H; cbn [chunk_loop];
    [exact H|].
  destruct (regex_exec s) as [[[name body] rest]|] eqn:E; [|exact H].
  apply regex_exec_clean in E; destruct E as [E1 E2].
  apply IH; unfold push_file.
  destruct (2000 <? length body).
  - apply clean_parts; [exact E1| |exact H].
    apply combine_snd_Forall with (P := fun x => includes x CLOSE = false).
    now apply pieces_clean.
  - destruct st as [idx chunks]; cbn [snd] in *.
    apply Forall_app; split; [exact H|].
    constructor; [|constructor]. split; assumption.
Qed.

(** X14. Whatever the input, no chunk has a line terminator in its file name
    and no chunk has the closing delimiter in its content: every chunk
    can be wrapped in the delimiters again. *)
Theorem chunks_are_clean (fullCodeContext : jsstring) :
  Forall (fun c =>
            existsb isLineTerminator (fileName c) = false
            /\ includes (content c) CLOSE = false)
    (chunkCode fullCodeContext).
Proof. apply clean_loop; constructor. Qed.

End ChunkerMore.

(* ===================================================================== *)
(** ** More on the search *)
(* ===================================================================== *)

Module SearchMore.
Import Str Arr Rag Spec Props Panel StrFacts SortFacts ChunkerFacts
  IndexFacts.

(** *** [NaN] in the arithmetic of the scores *)

Lemma nan_of_spec (x : float) : Prim2SF x = S754_nan -> x = nan.
Proof. intros H; rewrite <- (SF2Prim_Prim2SF x), H; reflexivity. Qed.

Lemma mul_nan_r (x : float) : (x * nan)%float = nan.
Proof.
  apply nan_of_spec; rewrite mul_spec.
  change (Prim2SF nan) with S754_nan.
  unfold SF64mul, SFmul; destruct (Prim2SF x); reflexivity.
Qed.

Lemma add_nan_r (x : float) : (x + nan)%float = nan.
Proof.
  apply nan_of_spec; rewrite add_spec.
  change (Prim2SF nan) with S754_nan.
  unfold SF64add, SFadd; destruct (Prim2SF x); reflexivity.
Qed.

Lemma div_nan_l (x : float) : (nan / x)%float = nan.
Proof.
  apply nan_of_spec; rewrite div_spec.
  change (Prim2SF nan) with S754_nan.
  unfold SF64div, SFdiv; destruct (Prim2SF x); reflexivity.
Qed.

Lemma fold_left_ext_in {A B} (f g : A -> B -> A) (l : list B) :
  (forall a x, In x l -> f a x = g a x) ->
  forall a, fold_left f l a = fold_left g l a.
Proof.
  induction l as [|x l IH]; intros H a; [reflexivity|].
  cbn [fold_left]; rewrite H by now left.
  apply IH; intros a' y Hy; apply H; now right.
Qed.

(** X15. The loop of [cosineSimilarity] runs over the indices of its first
    argument.  When the second vector is shorter, the score is [NaN];
    when it is longer, its entries past the length of the first are
    never read; and an empty first vector scores [NaN]. *)
Theorem cosine_dimension_mismatch (vecA vecB : list float) :
  (length vecB < length vecA -> cosineSimilarity vecA vecB = nan)
  /\ (forall extra,
        length vecA <= length vecB ->
        cosineSimilarity vecA (vecB ++ extra) = cosineSimilarity vecA vecB)
  /\ cosineSimilarity [] vecB = nan.
Proof.
  split; [|split].
  - intros H; unfold cosineSimilarity.
    destruct (length vecA) as [|m] eqn:E; [lia|].
    rewrite seq_S, fold_left_app; cbn [Nat.add].
    destruct (fold_left (cosine_step vecA vecB) (seq 0 m) (zero, zero, zero))
      as [[d ma] mb].
    cbn [fold_left cosine_step].
    assert (N : at_index vecB m = nan)
      by (unfold at_index; apply nth_overflow; lia).
    rewrite N, mul_nan_r, add_nan_r; apply div_nan_l.
  - intros extra H; unfold cosineSimilarity.
    rewrite (@fold_left_ext_in _ _ (cosine_step vecA (vecB ++ extra))
               (cosine_step vecA vecB)); [reflexivity|].
    intros [[d ma] mb] i Hi; apply in_seq in Hi.
    unfold cosine_step, at_index.
    rewrite app_nth1 by lia; reflexivity.
  - reflexivity.
Qed.

Lemma cosine_dimension_mismatch_witness :
  cosineSimilarity [one; one] [one] = nan
  /\ cosineSimilarity [one] ([one] ++ [zero]) = cosineSimilarity [one] [one].
Proof.
  destruct (cosine_dimension_mismatch [one; one] [one]) as (H1 & _ & _).
  destruct (cosine_dimension_mismatch [one] [one]) as (_ & H2 & _).
  split; [apply H1; cbn; lia|apply H2; cbn; lia].
Defined.

(** *** The number of results *)

Lemma slice0_count {A} (l : list A) (k : Z) :
  length (slice0 l k)
  = if (k <? 0)%Z then length l - Z.to_nat (- k)
    else Nat.min (Z.to_nat k) (length l).
Proof.
  unfold slice0; destruct (k <? 0)%Z; rewrite length_firstn; lia.
Qed.

Lemma slice0_all {A} (l : list A) (k : Z) :
  (Z.of_nat (length l) <= k)%Z -> slice0 l k = l.
Proof.
  intros H; unfold slice0.
  destruct (k <? 0)%Z eqn:E; [apply Z.ltb_lt in E; lia|].
  apply firstn_all2; lia.
Qed.

(** X16. When the query is embedded, [searchCodebase] returns exactly
    [min K m] chunks for a non-negative [K], with [m] the number of
    chunks that have an embedding, and [m - |K|] chunks (or none) for a
    negative [K]; with [K >= m] the result is a rearrangement of all [m]
    scored chunks. *)
Theorem search_result_count
  (generateEmbedding : nat -> jsstring -> option (list float))
  (n : nat) (query : jsstring) (chunks : list CodeChunk) (topK : Z)
  (q : list float) :
  existsb has_embedding chunks = true ->
  generateEmbedding n query = Some q ->
  let m := length (filter has_embedding chunks) in
  let out := fst (searchCodebase generateEmbedding n query chunks topK) in
  0 < m
  /\ ((0 <= topK)%Z -> length out = Nat.min (Z.to_nat topK) m)
  /\ ((topK < 0)%Z -> length out = m - Z.to_nat (- topK))
  /\ ((Z.of_nat m <= topK)%Z ->
      Permutation out
        (map (score_chunk q) (filter has_embedding chunks))).
Proof.
  intros He Hq m out; subst m out; unfold searchCodebase.
  rewrite He, Hq; cbn [negb fst].
  split; [|split; [|split]].
  - apply existsb_exists in He; destruct He as (c & Hc & Hc').
    assert (I : In c (filter has_embedding chunks))
      by (apply filter_In; now split).
    destruct (filter has_embedding chunks); [destruct I|cbn; lia].
  - intros Hk; rewrite slice0_count, sort_by_length, length_map.
    destruct (topK <? 0)%Z eqn:E; [apply Z.ltb_lt in E; lia|reflexivity].
  - intros Hk; rewrite slice0_count, sort_by_length, length_map.
    destruct (topK <? 0)%Z eqn:E; [reflexivity|apply Z.ltb_ge in E; lia].
  - intros Hk; rewrite slice0_all.
    + apply Permutation_sym, sort_by_perm.
    + now rewrite sort_by_length, length_map.
Qed.

Lemma search_result_count_witness :
  length (fst (searchCodebase sample_service 0 (lit "auth") sample_index 2))
  = 2
  /\ length (fst (searchCodebase sample_service 0 (lit "auth") sample_index
                    (-1)))
     = 2.
Proof.
  destruct (@search_result_count sample_service 0 (lit "auth") sample_index
              2 [one; zero] eq_refl eq_refl) as (_ & H1 & _).
  destruct (@search_result_count sample_service 0 (lit "auth") sample_index
              (-1) [one; zero] eq_refl eq_refl) as (_ & _ & H2 & _).
  split; [rewrite H1 by lia|rewrite H2 by lia]; vm_compute; reflexivity.
Defined.

(** *** The search of the panel *)

(** X17. [handleSemanticSearch] leaves the results as they are for an empty
    query or an empty index; otherwise it replaces them by at most four
    chunks of the index that have an embedding, by none when no chunk
    has one or the query cannot be embedded, and by exactly [min 4 m]
    when the query is embedded and [m] chunks have an embedding. *)
Theorem semantic_search_results
  (generateEmbedding : nat -> jsstring -> option (list float))
  (n : nat) (semanticQuery : jsstring) (indexedChunks : list CodeChunk)
  (semanticResults : list ScoredChunk) :
  let shown :=
    handleSemanticSearch generateEmbedding n semanticQuery indexedChunks
      semanticResults in
  (semanticQuery = [] \/ indexedChunks = [] -> shown = semanticResults)
  /\ (semanticQuery <> [] -> indexedChunks <> [] ->
      length shown <= 4
      /\ (forall r, In r shown ->
            In (chunk r) indexedChunks /\ has_embedding (chunk r) = true)
      /\ (existsb has_embedding indexedChunks = false
          \/ generateEmbedding n semanticQuery = None -> shown = [])
      /\ (forall q,
            existsb has_embedding indexedChunks = true ->
            generateEmbedding n semanticQuery = Some q ->
            length shown
            = Nat.min 4 (length (filter has_embedding indexedChunks)))).
Proof.
  intros shown; subst shown; unfold handleSemanticSearch; split.
  - intros [-> | ->]; [reflexivity|].
    now rewrite orb_true_r.
  - intros Hq Hc.
    destruct semanticQuery as [|c0 query]; [congruence|].
    destruct indexedChunks as [|c1 chunks]; [congruence|].
    cbn [truthy negb orb length Nat.eqb].
    set (query' := c0 :: query); set (chunks' := c1 :: chunks).
    unfold searchCodebase.
    destruct (existsb has_embedding chunks') eqn:He; cbn [negb].
    + destruct (generateEmbedding n query') as [q|] eqn:Hg; cbn [fst].
      * split; [|split; [|split]].
        -- pose proof (@slice0_length _
                         (sort_by score_after
                            (map (score_chunk q)
                               (filter has_embedding chunks'))) 4).
           lia.
        -- intros r Hr; apply slice0_In in Hr.
           apply (Permutation_in _ (Permutation_sym (sort_by_perm _ _)))
             in Hr.
           apply in_map_iff in Hr; destruct Hr as (c & <- & Hc').
           apply filter_In in Hc'; exact Hc'.
        -- intros [H|H]; discriminate.
        -- intros q' _ Hq'; injection Hq' as <-.
           rewrite slice0_count, sort_by_length, length_map; reflexivity.
      * split; [cbn; lia|]. split; [intros r []|].
        split; [reflexivity|intros q' _ Hq'; discriminate].
    + cbn [fst]; split; [cbn; lia|]. split; [intros r []|].
      split; [reflexivity|intros q' H; discriminate].
Qed.

Lemma semantic_search_results_witness :
  length (handleSemanticSearch sample_service 0 (lit "auth") sample_index [])
  <= 4.
Proof.
  destruct (semantic_search_results sample_service 0 (lit "auth")
              sample_index []) as [_ H].
  destruct H as (H & _); [discriminate|discriminate|exact H].
Defined.

End SearchMore.

(* ===================================================================== *)
(** ** The key and the embedding requests *)
(* ===================================================================== *)

Module KeyFacts.
Import Str Arr Rag Spec Props Gemini StrFacts TreeFacts ChunkerFacts
  IndexFacts.

Lemma key_name_refl : str_eqb KEY_NAME KEY_NAME = true.
Proof. reflexivity. Qed.

(** X18. Saving a key makes it the key of the client at once; after the page
    is loaded again the saved key is read back when it is not empty,
    whereas a saved empty key gives way to the key of the environment;
    no other entry of the storage changes. *)
Theorem saved_key_survives_reload (key : jsstring) (st : KeyState)
  (env_API_KEY : option jsstring) :
  let st' := setGlobalApiKey key st in
  hasValidKey st' = truthy key
  /\ getAIClient st' = (if truthy key then inr key else inl ApiKeyMissing)
  /\ dynamicApiKey (load (localStorage st') env_API_KEY)
     = (if truthy key then key else or_else env_API_KEY [])
  /\ localStorage (load (localStorage st') env_API_KEY) = localStorage st'
  /\ (forall k, k <> KEY_NAME ->
        getItem (localStorage st') k = getItem (localStorage st) k).
Proof.
  cbv zeta; unfold setGlobalApiKey, hasValidKey, getAIClient, load;
    cbn [dynamicApiKey localStorage].
  split; [reflexivity|]. split; [reflexivity|].
  split; [|split; [reflexivity|]].
  - unfold getItem, setItem; rewrite key_name_refl; cbn [or_else].
    destruct (truthy key); reflexivity.
  - intros k Hk; unfold getItem, setItem.
    destruct (str_eqb k KEY_NAME) eqn:E; [|reflexivity].
    apply str_eqb_eq in E; contradiction.
Qed.

(** *** Without a key *)

Lemma map_snd_combine_seq {A} (l : list A) (start : nat) :
  map snd (combine (seq start (length l)) l) = l.
Proof.
  revert start; induction l as [|x l IH]; intros start; [reflexivity|].
  cbn; now rewrite IH.
Qed.

Lemma index_without_service
  (service : nat -> jsstring -> option (list float))
  (codeContext : jsstring) :
  (forall k text, service k text = None) ->
  indexedChunks (indexCodebase service codeContext) = chunkCode codeContext.
Proof.
  intros H; rewrite indexCodebase_closed_form; cbn [indexedChunks].
  rewrite <- (map_snd_combine_seq (chunkCode codeContext) 0) at 3.
  apply map_ext_in; intros [i c] Hic; unfold embed_at; cbn [fst snd].
  apply in_combine_r in Hic.
  pose proof (chunkCode_bare codeContext) as B.
  rewrite Forall_forall in B; specialize (B c Hic); unfold bare in B.
  rewrite H; destruct c; cbn in *; now rewrite B.
Qed.

Lemma bare_no_embedding (chunks : list CodeChunk) :
  Forall bare chunks -> existsb has_embedding chunks = false.
Proof.
  induction 1 as [|c l Hc Hl IH]; [reflexivity|].
  cbn [existsb]; rewrite IH; unfold has_embedding; now rewrite Hc.
Qed.

(** X19. While no key is set, every embedding request fails with the missing
    key error before the service is asked, so [indexCodebase] returns the
    chunks of [chunkCode] without any embedding, still reporting the
    progress of every chunk, and a search over that index returns no
    chunk and sends no request. *)
Theorem missing_key_blocks_search (st : KeyState)
  (embedContent : nat -> jsstring -> jsstring -> option EmbedResponse)
  (codeContext query : jsstring) (n : nat) (topK : Z) :
  hasValidKey st = false ->
  let service := embedding_service st embedContent in
  let index := indexCodebase service codeContext in
  (forall k text,
      Gemini.generateEmbedding st embedContent k text = inl ApiKeyMissing)
  /\ indexedChunks index = chunkCode codeContext
  /\ Forall (fun c => embedding c = None) (indexedChunks index)
  /\ length (progress index) = length (chunkCode codeContext)
  /\ searchCodebase service n query (indexedChunks index) topK = ([], []).
Proof.
  intros Hk service index.
  assert (G : forall k text,
             Gemini.generateEmbedding st embedContent k text
             = inl ApiKeyMissing).
  { intros k text; unfold Gemini.generateEmbedding, getAIClient.
    unfold hasValidKey in Hk; now rewrite Hk. }
  assert (S : forall k text, service k text = None).
  { intros k text; unfold service, embedding_service; now rewrite G. }
  assert (I : indexedChunks index = chunkCode codeContext)
    by now apply index_without_service.
  split; [exact G|]. split; [exact I|].
  split; [rewrite I; apply chunkCode_bare|].
  split.
  - unfold index; rewrite indexCodebase_closed_form; cbn [progress].
    now rewrite length_map, length_seq.
  - rewrite I; unfold searchCodebase.
    now rewrite (bare_no_embedding (chunkCode_bare codeContext)).
Qed.

Lemma missing_key_blocks_search_witness :
  searchCodebase
    (embedding_service (load empty_storage None) constant_service) 0
    (lit "auth")
    (indexedChunks
       (indexCodebase
          (embedding_service (load empty_storage None) constant_service)
          sample_header))
    3
  = ([], []).
Proof.
  destruct (@missing_key_blocks_search (load empty_storage None)
              constant_service sample_header (lit "auth") 0 3 eq_refl)
    as (_ & _ & _ & _ & H).
  exact H.
Defined.

End KeyFacts.

(* ===================================================================== *)
(** ** The extensions chosen in the view *)
(* ===================================================================== *)

Module ExtensionFacts.
Import Str Arr Github Spec Props View StrFacts SortFacts TreeFacts.

Lemma existsb_str_eqb (ext : jsstring) (l : list jsstring) :
  existsb (str_eqb ext) l = true <-> In ext l.
Proof.
  rewrite existsb_exists; split.
  - intros (x & Hx & E); apply str_eqb_eq in E; now subst.
  - intros H; exists ext; split; [exact H|now apply str_eqb_eq].
Qed.

Lemma filter_absent (ext : jsstring) (l : list jsstring) :
  ~ In ext l -> filter (fun e => negb (str_eqb e ext)) l = l.
Proof.
  induction l as [|x l IH]; intros H; [reflexivity|].
  cbn [filter].
  destruct (str_eqb x ext) eqn:E.
  - apply str_eqb_eq in E; subst; exfalso; apply H; now left.
  - cbn [negb]; rewrite IH; [reflexivity|].
    intros H'; apply H; now right.
Qed.

Lemma filter_app_absent (ext : jsstring) (l : list jsstring) :
  ~ In ext l -> filter (fun e => negb (str_eqb e ext)) (l ++ [ext]) = l.
Proof.
  intros H; rewrite filter_app, filter_absent by exact H.
  cbn [filter].
  assert (E : str_eqb ext ext = true) by now apply str_eqb_eq.
  rewrite E; cbn [negb]; apply app_nil_r.
Qed.

(** X20. [toggleExtension] flips the membership of the extension and of no
    other one: a selected extension is removed in all its occurrences,
    an absent one is added at the end; a selection without duplicates
    stays so; and toggling an absent extension twice gives back the
    selection as it was. *)
Theorem toggleExtension_flip (prev : list jsstring) (ext : jsstring) :
  (In ext (toggleExtension prev ext) <-> ~ In ext prev)
  /\ (forall e, e <> ext ->
        (In e (toggleExtension prev ext) <-> In e prev))
  /\ (NoDup prev -> NoDup (toggleExtension prev ext))
  /\ (~ In ext prev ->
      toggleExtension prev ext = prev ++ [ext]
      /\ toggleExtension (toggleExtension prev ext) ext = prev)
  /\ (In ext prev ->
      toggleExtension (toggleExtension prev ext) ext
      = filter (fun e => negb (str_eqb e ext)) prev ++ [ext]).
Proof.
  assert (F : forall e, In e (filter (fun e => negb (str_eqb e ext)) prev)
                        <-> In e prev /\ e <> ext).
  { intros e; rewrite filter_In, negb_true_iff; split.
    - intros [H1 H2]; split; [exact H1|].
      intros ->; assert (str_eqb ext ext = true) by now apply str_eqb_eq.
      congruence.
    - intros [H1 H2]; split; [exact H1|].
      destruct (str_eqb e ext) eqn:E; [|reflexivity].
      apply str_eqb_eq in E; contradiction. }
  unfold toggleExtension at 1 2 3 4.
  destruct (existsb (str_eqb ext) prev) eqn:E.
  - assert (I : In ext prev) by now apply existsb_str_eqb.
    split; [rewrite F; tauto|].
    split; [intros e He; rewrite F; tauto|].
    split; [intros H; now apply NoDup_filter|].
    split; [tauto|].
    intros _; unfold toggleExtension; rewrite E.
    assert (N : existsb (str_eqb ext)
                  (filter (fun e => negb (str_eqb e ext)) prev) = false).
    { destruct (existsb (str_eqb ext)
                  (filter (fun e => negb (str_eqb e ext)) prev)) eqn:E';
        [|reflexivity].
      apply existsb_str_eqb, F in E'; tauto. }
    now rewrite N.
  - assert (I : ~ In ext prev).
    { intros H; apply existsb_str_eqb in H; congruence. }
    split; [rewrite in_app_iff; cbn; tauto|].
    split.
    { intros e He; rewrite in_app_iff; cbn; split; [|tauto].
      intros [H|[H|[]]]; [exact H|congruence]. }
    split.
    { intros H; apply NoDup_app; [exact H|repeat constructor; intros []|].
      intros x Hx [<-|[]]; contradiction. }
    split; [|tauto].
    intros _; split; [reflexivity|].
    unfold toggleExtension; rewrite E.
    assert (Y : existsb (str_eqb ext) (prev ++ [ext]) = true).
    { apply existsb_str_eqb, in_or_app; right; now left. }
    rewrite Y; now apply filter_app_absent.
Qed.

Lemma toggleExtension_flip_witness :
  toggleExtension (toggleExtension [lit ".ts"; lit ".py"] (lit ".go"))
    (lit ".go")
  = [lit ".ts"; lit ".py"]
  /\ NoDup (toggleExtension [lit ".ts"; lit ".py"] (lit ".ts")).
Proof.
  destruct (toggleExtension_flip [lit ".ts"; lit ".py"] (lit ".go"))
    as (_ & _ & _ & H & _).
  destruct (toggleExtension_flip [lit ".ts"; lit ".py"] (lit ".ts"))
    as (_ & _ & N & _).
  split.
  - apply H; intros [E|[E|[]]]; discriminate.
  - apply N; constructor.
    + intros [E|[]]; discriminate.
    + constructor; [intros []|constructor].
Defined.

(** *** The custom extension *)

(** X21. For a blob that is neither too large nor blocked, outside the
    fetch-everything mode: with a custom extension typed in, the file is
    kept exactly when its path ends with one of the ticked extensions or
    with the custom one, to which a dot is put in front when it has
    none, so that typing [py] or [.py] selects the same files; the
    default extensions are used only when nothing is ticked and nothing
    is typed. *)
Theorem custom_extension_selects (selectedExtensions : list jsstring)
  (customExtension : jsstring) (options : FetchOptions) (node : TreeNode) :
  fetchAll options = false ->
  type node = blob ->
  too_large options node = false ->
  isBlocked (path node) = false ->
  let dotted :=
    if startsWith customExtension (lit ".") then customExtension
    else lit "." ++ customExtension in
  let kept :=
    keep_node (extensions selectedExtensions customExtension) options node in
  (customExtension <> [] ->
   kept = existsb (endsWith (path node)) selectedExtensions
          || endsWith (path node) dotted)
  /\ (customExtension <> [] ->
      startsWith customExtension (lit ".") = false ->
      extensions selectedExtensions (lit "." ++ customExtension)
      = extensions selectedExtensions customExtension)
  /\ (customExtension = [] -> selectedExtensions <> [] ->
      kept = existsb (endsWith (path node)) selectedExtensions)
  /\ (customExtension = [] -> selectedExtensions = [] ->
      kept = existsb (endsWith (path node)) defaultExtensions).
Proof.
  intros Hf Hb Hl Hk dotted kept; subst dotted kept.
  unfold keep_node, effectiveExtensions; rewrite Hb, Hl, Hk, Hf.
  split; [|split; [|split]].
  - intros Hc; unfold extensions.
    destruct customExtension as [|c0 c]; [congruence|]; cbn [truthy].
    destruct selectedExtensions as [|e l];
      cbn [app]; [cbn [existsb]; now rewrite orb_false_r|].
    change (e :: l ++ [?x]) with ((e :: l) ++ [x]).
    rewrite existsb_app; cbn [existsb]; now rewrite orb_false_r.
  - intros Hc Hs; unfold extensions.
    destruct customExtension as [|c0 c]; [congruence|].
    rewrite Hs; reflexivity.
  - intros -> Hs; unfold extensions; cbn [truthy].
    destruct selectedExtensions; [congruence|reflexivity].
  - intros -> ->; reflexivity.
Qed.

Lemma custom_extension_selects_witness :
  keep_node (extensions [] (lit "py")) default_options
    (node_of (lit "tools/run.py"))
  = true
  /\ extensions [lit ".ts"] (lit ".py") = extensions [lit ".ts"] (lit "py").
Proof.
  destruct (@custom_extension_selects [] (lit "py") default_options
              (node_of (lit "tools/run.py")) eq_refl eq_refl eq_refl eq_refl)
    as (H1 & _).
  destruct (@custom_extension_selects [lit ".ts"] (lit "py") default_options
              (node_of (lit "tools/run.py")) eq_refl eq_refl eq_refl eq_refl)
    as (_ & H2 & _).
  split.
  - rewrite H1 by discriminate; vm_compute; reflexivity.
  - apply H2; [discriminate|reflexivity].
Defined.

End ExtensionFacts.

(* ===================================================================== *)
(** ** What a parsed address looks like *)
(* ===================================================================== *)

Module UrlMore.
Import Str Arr Github Spec Props StrFacts SortFacts TreeFacts.

Lemma split_on_no_slash (s : jsstring) :
  forall cur,
    no_slash (rev cur) = true ->
    Forall (fun seg => no_slash seg = true) (split_on slash cur s).
Proof.
  induction s as [|c s IH]; intros cur H; cbn [split_on].
  - now constructor.
  - destruct (char_eqb c slash) eqn:E.
    + constructor; [exact H|now apply IH].
    + apply IH; cbn [rev]; apply no_slash_app; [exact H|].
      cbn; now rewrite E.
Qed.

Lemma no_slash_firstn (n : nat) (s : jsstring) :
  no_slash s = true -> no_slash (firstn n s) = true.
Proof.
  unfold no_slash; revert n; induction s as [|c s IH]; intros [|n] H;
    cbn in *; auto.
  apply andb_true_iff in H; destruct H as [H1 H2].
  rewrite H1; cbn; auto.
Qed.

Lemma strip_git_cases (seg : jsstring) :
  seg = strip_git seg \/ seg = strip_git seg ++ lit ".git".
Proof.
  unfold strip_git; destruct (endsWith seg (lit ".git")) eqn:E;
    [right|now left].
  apply endsWith_iff in E; destruct E as [a ->].
  rewrite length_app; change (length (lit ".git")) with 4.
  replace (length a + 4 - 4) with (length a + 0) by lia.
  now rewrite firstn_app_2, app_nil_r.
Qed.

(** X22. Whenever [parseGithubUrl] returns a result, the URL parsed, its host
    is [github.com], the owner is the first non-empty segment of the
    path and the repository is the second one, as it is or without one
    [.git] suffix; the owner is not empty, and neither name holds a
    slash.  The repository name can be empty: it is when the second
    segment is [.git]. *)
Theorem parseGithubUrl_shape (URL_new : jsstring -> option URL)
  (url : jsstring) (info : RepoInfo) :
  parseGithubUrl URL_new url = Some info ->
  exists u seg rest,
    URL_new url = Some u
    /\ hostname u = lit "github.com"
    /\ filter truthy (split (pathname u) slash) = owner info :: seg :: rest
    /\ (seg = repo info \/ seg = repo info ++ lit ".git")
    /\ owner info <> []
    /\ seg <> []
    /\ no_slash (owner info) = true
    /\ no_slash (repo info) = true.
Proof.
  unfold parseGithubUrl; intros H.
  destruct (URL_new url) as [u|] eqn:Hu; [|discriminate].
  destruct (str_eqb (hostname u) (lit "github.com")) eqn:Hh;
    cbn [negb] in H; [|discriminate].
  apply str_eqb_eq in Hh.
  change 47%N with slash in H.
  destruct (filter truthy (split (pathname u) slash))
    as [|o [|seg rest]] eqn:Hs; try discriminate.
  injection H as <-; cbn [owner repo].
  assert (A : Forall (fun x => no_slash x = true)
                (filter truthy (split (pathname u) slash))).
  { apply incl_Forall with (l1 := split (pathname u) slash).
    - intros x Hx; apply filter_In in Hx; tauto.
    - apply split_on_no_slash; reflexivity. }
  assert (T : Forall (fun x => truthy x = true)
                (filter truthy (split (pathname u) slash))).
  { apply Forall_forall; intros x Hx; apply filter_In in Hx; tauto. }
  rewrite Hs in A, T.
  inversion A as [|? ? A1 A']; subst; inversion A' as [|? ? A2 _]; subst.
  inversion T as [|? ? T1 T']; subst; inversion T' as [|? ? T2 _]; subst.
  exists u, seg, rest.
  split; [reflexivity|]. split; [exact Hh|]. split; [exact Hs|].
  split; [apply strip_git_cases|].
  split; [intros ->; discriminate|]. split; [intros ->; discriminate|].
  split; [exact A1|].
  unfold strip_git; destruct (endsWith seg (lit ".git"));
    [now apply no_slash_firstn|exact A2].
Qed.

Lemma parseGithubUrl_shape_witness :
  parseGithubUrl sample_URL_new sample_url
  = Some (mkRepoInfo (lit "octo") (lit "demo"))
  /\ no_slash (lit "demo") = true.
Proof.
  assert (P : parseGithubUrl sample_URL_new sample_url
              = Some (mkRepoInfo (lit "octo") (lit "demo")))
    by (vm_compute; reflexivity).
  destruct (parseGithubUrl_shape sample_URL_new sample_url P)
    as (u & seg & rest & _ & _ & _ & _ & _ & _ & _ & H).
  split; [exact P|exact H].
Defined.

End UrlMore.

(* ===================================================================== *)
(** ** Fetching one file of the corpus again *)
(* ===================================================================== *)

Module FileFacts.
Import Str Arr Github Spec Props GithubFile StrFacts SortFacts TreeFacts
  FetchFacts.

Section Refetch.

(** The network as it answered during the session, and as it answers
    when the file is fetched again. *)
Variable fetch_raw : jsstring -> FetchOutcome jsstring.
Variable fetch_later : jsstring -> FetchOutcome jsstring.
Variable options : FetchOptions.
Variable info : RepoInfo.
Variable br : jsstring.

Lemma session_answer (f : TreeNode) :
  succeeded fetch_raw info br f = true ->
  (exists r,
      fetch_raw (rawUrl info br (path f)) = Resolved r
      /\ ok r = true /\ body r = text_of fetch_raw info br f)
  /\ record_of fetch_raw options info br f
     = file_record (path f)
         (truncate_text options (text_of fetch_raw info br f)).
Proof.
  unfold succeeded, record_of, text_of.
  destruct (fetch_raw (rawUrl info br (path f))) as [res| |];
    try discriminate.
  intros H; split; [exists res; auto|reflexivity].
Qed.

(** [fetchGithubFile] asks the address that the session asked for the
    file, and its result is read off the answer. *)
Lemma refetch_request (f : TreeNode) :
  fetchGithubFile fetch_later (owner info) (repo info) br (path f)
  = match fetch_later (rawUrl info br (path f)) with
    | Resolved r =>
        if ok r then inr (body r)
        else if (status r =? 404)%Z then inl (FileNotFound (path f))
        else inl (FileFetchFailed (path f) (status r))
    | _ => inl FileRejected
    end.
Proof.
  unfold fetchGithubFile; destruct info as [o r]; cbn [owner repo].
  destruct (fetch_later (rawUrl (mkRepoInfo o r) br (path f))) as [res| |];
    try reflexivity.
  destruct (ok res); reflexivity.
Qed.

Lemma refetch_same_answer (f : TreeNode) :
  succeeded fetch_raw info br f = true ->
  fetch_later (rawUrl info br (path f)) = fetch_raw (rawUrl info br (path f)) ->
  fetchGithubFile fetch_later (owner info) (repo info) br (path f)
  = inr (text_of fetch_raw info br f).
Proof.
  intros Hs He; rewrite refetch_request, He.
  destruct (@session_answer f Hs) as [(r & E & Hok & Hb) _].
  now rewrite E, Hok, Hb.
Qed.

End Refetch.

(** X23. When the downloader returns a corpus, its content is the header
    followed by one record per kept file, in order; each kept file is
    one of the selected files, its fetch answered 2xx during the session
    and its record holds the text of that answer cut to the maximal
    length.  [fetchGithubFile] called with the owner, the repository and
    the branch of the returned details and the path of a kept file asks
    the address that the session asked: when that address answers as it
    did during the session it returns the text of the record, and when
    it answers with a status that is not 2xx it fails with "File not
    found" for 404 and with the status in the message otherwise. *)
Theorem corpus_files_refetch
  (fetch_raw : jsstring -> FetchOutcome jsstring)
  (latency : nat -> nat)
  (signal : option (nat -> bool)) (options : FetchOptions)
  (info : RepoInfo) (br : jsstring) (repoData : RepoData)
  (files : list TreeNode) (evs : list Event) (res : FetchResult) :
  snd (download fetch_raw latency signal options info br repoData files evs)
  = inr res ->
  let again fetch_later p :=
    fetchGithubFile fetch_later (d_owner (repoDetails res))
      (d_repo (repoDetails res)) (d_branch (repoDetails res)) p in
  exists kept : list (TreeNode * jsstring),
    r_content res
    = header info br repoData
      ++ join (map (fun ft => file_record (path (fst ft))
                                (truncate_text options (snd ft))) kept)
    /\ Forall
         (fun ft =>
            In (fst ft) files
            /\ (exists r,
                  fetch_raw (rawUrl info br (path (fst ft))) = Resolved r
                  /\ ok r = true /\ body r = snd ft)
            /\ (forall fetch_later,
                  fetch_later (rawUrl info br (path (fst ft)))
                  = fetch_raw (rawUrl info br (path (fst ft))) ->
                  again fetch_later (path (fst ft)) = inr (snd ft))
            /\ (forall fetch_later r,
                  fetch_later (rawUrl info br (path (fst ft))) = Resolved r ->
                  ok r = false ->
                  again fetch_later (path (fst ft))
                  = inl (if (status r =? 404)%Z
                         then FileNotFound (path (fst ft))
                         else FileFetchFailed (path (fst ft)) (status r))))
         kept.
Proof.
  unfold download; set (st0 := mkDl 0 [] _).
  destruct (@download_loop_spec fetch_raw latency signal options info br
              files (S (length files)) 0 st0)
    as (k & st' & L1 & _ & _ & _ & L5 & _).
  { cbn [Nat.mul skipn]; unfold batchSize; lia. }
  cbn [Nat.mul skipn] in L1, L5; rewrite Nat.sub_0_r in L5.
  rewrite L1; cbn [results st0 app] in L5.
  destruct ((length (results st') =? 0) && negb (aborted signal k));
    cbn [snd]; [discriminate|].
  intros H; injection H as <-; cbv zeta;
    cbn [r_content repoDetails d_owner d_repo d_branch].
  set (attempted := filter (succeeded fetch_raw info br)
                      (firstn (k * batchSize) files)) in *.
  exists (map (fun f => (f, text_of fetch_raw info br f)) attempted).
  assert (G : forall f, In f attempted ->
                        In f files /\ succeeded fetch_raw info br f = true).
  { intros f Hf; apply filter_In in Hf; destruct Hf as [Hf1 Hf2].
    split; [now apply In_firstn in Hf1|exact Hf2]. }
  split.
  - rewrite L5, map_map; cbn [fst snd].
    apply (f_equal (fun x => header info br repoData ++ join x)).
    apply map_ext_in; intros f Hf.
    now apply session_answer, G.
  - apply Forall_map, Forall_forall; intros f Hf; cbn [fst snd].
    destruct (G f Hf) as [G1 G2].
    split; [exact G1|].
    split; [exact (proj1 (@session_answer fetch_raw options info br f G2))|].
    split.
    + intros fetch_later He.
      now apply (@refetch_same_answer fetch_raw fetch_later options).
    + intros fetch_later r Hr Hok.
      rewrite refetch_request, Hr, Hok.
      destruct (status r =? 404)%Z; reflexivity.
Qed.

Lemma corpus_files_refetch_witness :
  exists res kept,
    snd (download scenario_fetch_raw scenario_latency None default_options
           sample_info (lit "main") sample_data scenario_nodes [])
    = inr res
    /\ Forall
         (fun ft =>
            fetchGithubFile scenario_fetch_raw (lit "octo") (lit "demo")
              (lit "main") (path (fst ft))
            = inr (snd ft)) kept.
Proof.
  destruct (snd (download scenario_fetch_raw scenario_latency None
                   default_options sample_info (lit "main") sample_data
                   scenario_nodes []))
    as [e|res] eqn:E; [vm_compute in E; discriminate|].
  destruct (@corpus_files_refetch scenario_fetch_raw scenario_latency None
              default_options sample_info (lit "main") sample_data
              scenario_nodes [] res E) as (kept & Hc & H).
  assert (D : repoDetails res
              = mkDetails (lit "octo") (lit "demo") (lit "main")).
  { vm_compute in E; injection E as <-; reflexivity. }
  rewrite D in H; cbn [d_owner d_repo d_branch] in H.
  exists res, kept; split; [reflexivity|].
  eapply Forall_impl; [|exact H].
  intros ft (_ & _ & Hsame & _); apply (Hsame scenario_fetch_raw eq_refl).
Defined.

End FileFacts.
